(** * FDS_SDK: a shallow embedding of the entity-component system, the type
    registry, the signal/slot utility and the configuration store.

    Source files embedded here:
    - [FDS_std/FDS_EntityComSystem.h]: [getComTypeID], [FDS_Component],
      [FDS_Entity], [FDS_EntityManager];
    - the configuration store [FDS_ConfigManager] ([setConfig], [getConfig]
      for [bool], [int] and [std::string], [loadConfig], [saveConfig],
      [reload]);
    - the signal utility [fds::Signal] ([connect], [disconnect], [emit],
      [Connection], [ScopedConnection]).

    Conventions.  [std::size_t] is a 64-bit unsigned integer, modelled as [N]
    with its wrap-around written out.  Pointers are addresses ([nat]) into
    explicit heaps ([gmap]).  Code supplied by clients (virtual hooks of
    component subclasses, slot callbacks) is a parameter of the model. *)

From Stdlib Require Import Ascii.
From stdpp Require Import gmap strings list fin_maps vector sorting.

Open Scope N_scope.

(** ** The configuration store, [FDS_ConfigManager] *)

Module Config.

(** [enum class LoadStatus]. *)
Inductive LoadStatus : Type :=
  | Success
  | FileNotFound
  | ReadError
  | NotLoaded.

(** The data members of the class.  [m_configData] is
    [std::map<std::string, std::map<std::string, std::string>>]. *)
Record FDS_ConfigManager : Type := mkConfig {
  m_fileName : string;
  m_configData : gmap string (gmap string string);
  m_loadStatus : LoadStatus;
  m_lastError : string
}.

(** A call either returns a value or throws [std::runtime_error] with a
    message. *)
Inductive result (A : Type) : Type :=
  | Returns (a : A)
  | Throws (what : string).
Arguments Returns {A} a.
Arguments Throws {A} what.

(** [m_configData[filter][key] = v]: [operator[]] of [std::map] creates the
    inner map when the section is absent. *)
Definition assign (filter key v : string)
    (d : gmap string (gmap string string)) : gmap string (gmap string string) :=
  <[filter := <[key := v]> (default ∅ (d !! filter))]> d.

(** [template<> void setConfig(filter, key, const bool& value)]. *)
Definition setConfig_bool (filter key : string) (value : bool)
    (c : FDS_ConfigManager) : FDS_ConfigManager :=
  {| m_fileName := m_fileName c;
     m_configData :=
       assign filter key (if value then "true" else "false")%string (m_configData c);
     m_loadStatus := m_loadStatus c;
     m_lastError := m_lastError c |}.

(** [template<> bool getConfig(filter, key)]. *)
Definition getConfig_bool (filter key : string) (c : FDS_ConfigManager) : result bool :=
  match m_configData c !! filter with
  | None => Throws ("Filter not found: " +:+ filter)
  | Some sect =>
    match sect !! key with
    | None => Throws ("Key not found: " +:+ key +:+ " in filter: " +:+ filter)
    | Some value =>
      if bool_decide (value = "true" ∨ value = "True" ∨ value = "1")%string
      then Returns true
      else if bool_decide (value = "false" ∨ value = "False" ∨ value = "0")%string
      then Returns false
      else Throws ("Invalid boolean value for key: " +:+ key +:+ " in filter: " +:+ filter)
    end
  end.

(** The string stored under a section and key, if any. *)
Definition stored (filter key : string) (c : FDS_ConfigManager) : option string :=
  m_configData c !! filter ≫= (.!! key).

Definition is_throw {A} (r : result A) : Prop :=
  match r with Throws _ => True | Returns _ => False end.

Lemma stored_setConfig_bool f k b c :
  stored f k (setConfig_bool f k b c) = Some (if b then "true" else "false")%string.
Proof.
  unfold stored, setConfig_bool, assign; simpl.
  rewrite lookup_insert_eq; simpl. by rewrite lookup_insert_eq.
Qed.

Lemma getConfig_bool_stored f k c v :
  stored f k c = Some v →
  getConfig_bool f k c =
    if bool_decide (v = "true" ∨ v = "True" ∨ v = "1")%string then Returns true
    else if bool_decide (v = "false" ∨ v = "False" ∨ v = "0")%string then Returns false
    else Throws ("Invalid boolean value for key: " +:+ k +:+ " in filter: " +:+ f).
Proof.
  unfold stored, getConfig_bool.
  destruct (m_configData c !! f) as [sect|]; simpl; [|done].
  intros ->. done.
Qed.

Lemma getConfig_bool_missing f k c :
  stored f k c = None → is_throw (getConfig_bool f k c).
Proof.
  unfold stored, getConfig_bool.
  destruct (m_configData c !! f) as [sect|]; simpl; [|done].
  intros ->. done.
Qed.

(** C10.  Writing a boolean with [setConfig<bool>] and reading it back with
    [getConfig<bool>] under the same section and key returns that boolean and
    does not throw.  [setConfig<bool>] stores the text "true" or "false";
    [getConfig<bool>] returns true exactly for the stored texts "true", "True"
    and "1", false exactly for "false", "False" and "0", and throws for every
    other stored text, for a missing section and for a missing key. *)
Theorem C10_bool_roundtrip :
  ∀ (c : FDS_ConfigManager) (f k : string),
    (∀ b : bool,
       getConfig_bool f k (setConfig_bool f k b c) = Returns b
       ∧ stored f k (setConfig_bool f k b c)
         = Some (if b then "true" else "false")%string)
    ∧ (∀ v : string, stored f k c = Some v →
         (getConfig_bool f k c = Returns true
            ↔ v = "true" ∨ v = "True" ∨ v = "1")%string
         ∧ (getConfig_bool f k c = Returns false
            ↔ v = "false" ∨ v = "False" ∨ v = "0")%string
         ∧ (is_throw (getConfig_bool f k c)
            ↔ ¬ (v = "true" ∨ v = "True" ∨ v = "1" ∨
                 v = "false" ∨ v = "False" ∨ v = "0")%string))
    ∧ (m_configData c !! f = None → is_throw (getConfig_bool f k c))
    ∧ (∀ sect, m_configData c !! f = Some sect → sect !! k = None →
         is_throw (getConfig_bool f k c)).
Proof.
  intros c f k. split; [|split; [|split]].
  - intros b. split; [|apply stored_setConfig_bool].
    rewrite (getConfig_bool_stored _ _ _ _ (stored_setConfig_bool f k b c)).
    by destruct b.
  - intros v Hv. rewrite (getConfig_bool_stored _ _ _ _ Hv).
    destruct (decide (v = "true" ∨ v = "True" ∨ v = "1")%string) as [Ht|Ht];
      [rewrite (bool_decide_eq_true_2 _ Ht)|rewrite (bool_decide_eq_false_2 _ Ht)].
    { split_and!; split; try done; try tauto.
      intros Hf; exfalso.
      destruct Ht as [->| [->| ->]], Hf as [Hf|[Hf|Hf]]; discriminate Hf. }
    destruct (decide (v = "false" ∨ v = "False" ∨ v = "0")%string) as [Hf|Hf];
      [rewrite (bool_decide_eq_true_2 _ Hf)|rewrite (bool_decide_eq_false_2 _ Hf)];
      split_and!; split; simpl; try done; tauto.
  - intros Hf. apply getConfig_bool_missing. unfold stored. by rewrite Hf.
  - intros sect Hf Hk. apply getConfig_bool_missing. unfold stored.
    rewrite Hf. simpl. done.
Qed.

(** *** Values of other types: [setConfig<T>] and [getConfig<T>] *)

(** The characters of a [std::string]. *)
Definition chars (s : string) : list ascii := String.list_ascii_of_string s.
Definition str (l : list ascii) : string := String.string_of_list_ascii l.

(** What a type [T] brings to the templates: [ss << value] on an empty
    [std::stringstream] leaves the characters [put value] in it;
    [ss >> value] on a stream holding the characters [s] reads [get s], or
    sets [failbit] when there is nothing to read. *)
Class Streamed (T : Type) : Type := {
  put : T → list ascii;
  get : list ascii → option T
}.

(** [template<typename T> void setConfig(filter, key, const T& value)]:
    [ss << value; m_configData[filter][key] = ss.str();] *)
Definition setConfig {T} `{Streamed T} (filter key : string) (value : T)
    (c : FDS_ConfigManager) : FDS_ConfigManager :=
  {| m_fileName := m_fileName c;
     m_configData := assign filter key (str (put value)) (m_configData c);
     m_loadStatus := m_loadStatus c;
     m_lastError := m_lastError c |}.

(** [template<typename T> T getConfig(filter, key)]. *)
Definition getConfig (T : Type) `{Streamed T} (filter key : string)
    (c : FDS_ConfigManager) : result T :=
  match m_configData c !! filter with
  | None => Throws ("Filter not found: " +:+ filter)
  | Some sect =>
    match sect !! key with
    | None => Throws ("Key not found: " +:+ key +:+ " in filter: " +:+ filter)
    | Some value =>
      match get (chars value) with
      | Some v => Returns v
      | None =>
        Throws ("Failed to convert value to requested type for key: " +:+ key
                +:+ " in filter: " +:+ filter)
      end
    end
  end.

(** Formatted input first skips white space ([std::isspace] in the "C"
    locale: space, tab, line feed, vertical tab, form feed, carriage
    return). *)
Fixpoint skipws (s : list ascii) : list ascii :=
  match s with
  | c :: s' => if Ascii.is_space c then skipws s' else s
  | [] => []
  end.

(** [operator>>(std::istream&, std::string&)] then extracts characters up
    to the next white space or the end of the stream. *)
Fixpoint token (s : list ascii) : list ascii :=
  match s with
  | c :: s' => if Ascii.is_space c then [] else c :: token s'
  | [] => []
  end.

(** With no character extracted, [failbit] is set. *)
Definition get_string (s : list ascii) : option string :=
  match token (skipws s) with
  | [] => None
  | t => Some (str t)
  end.

#[export] Instance string_streamed : Streamed string :=
  {| put := chars; get := get_string |}.

(** [int] has 32 bits. *)
Definition INT_MIN : Z := (- 2 ^ 31)%Z.
Definition INT_MAX : Z := (2 ^ 31 - 1)%Z.

(** The character ['0' + d]. *)
Definition digit_char (d : Z) : ascii := ascii_of_N (48 + Z.to_N d).

(** The decimal digits of [n], most significant first, in front of [acc]. *)
Fixpoint put_digits (fuel : nat) (n : Z) (acc : list ascii) : list ascii :=
  match fuel with
  | O => acc
  | S fuel' =>
    if (n / 10 =? 0)%Z then digit_char (n `mod` 10) :: acc
    else put_digits fuel' (n / 10) (digit_char (n `mod` 10) :: acc)
  end.

(** [operator<<(std::ostream&, int)] with the default flags: decimal, a
    minus sign for negative values, no padding. *)
Definition put_int (v : Z) : list ascii :=
  if (v <? 0)%Z then "-"%char :: put_digits (S (Z.to_nat (Z.log2 (- v)))) (- v) []
  else put_digits (S (Z.to_nat (Z.log2 v))) v [].

Definition digit_value (c : ascii) : option Z := Z.of_nat <$> Ascii.is_nat c.

(** The values of the longest prefix of decimal digits. *)
Fixpoint digits (s : list ascii) : list Z :=
  match s with
  | c :: s' =>
    match digit_value c with
    | Some d => d :: digits s'
    | None => []
    end
  | [] => []
  end.

Definition number (ds : list Z) : Z := foldl (λ acc d, 10 * acc + d)%Z 0%Z ds.

(** [operator>>(std::istream&, int&)] with the default flags: white space
    is skipped, then an optional sign and the longest run of decimal digits
    are read; [failbit] is set when there is no digit, or when the number
    does not fit an [int]. *)
Definition get_int (s : list ascii) : option Z :=
  let '(negative, t) :=
    match skipws s with
    | "-"%char :: t => (true, t)
    | "+"%char :: t => (false, t)
    | t => (false, t)
    end in
  match digits t with
  | [] => None
  | ds =>
    let v := if negative : bool then (- number ds)%Z else number ds in
    if decide (INT_MIN ≤ v ≤ INT_MAX)%Z then Some v else None
  end.

#[export] Instance int_streamed : Streamed Z :=
  {| put := put_int; get := get_int |}.

Lemma str_chars s : str (chars s) = s.
Proof. apply String.string_of_list_ascii_of_string. Qed.

Lemma chars_str l : chars (str l) = l.
Proof. apply String.list_ascii_of_string_of_list_ascii. Qed.

Lemma stored_assign f k v f' k' d :
  assign f k v d !! f' ≫= (.!! k')
  = if decide (f' = f ∧ k' = k) then Some v else d !! f' ≫= (.!! k').
Proof.
  unfold assign. destruct (decide (f' = f)) as [->|Hf].
  - rewrite lookup_insert_eq. simpl. destruct (decide (k' = k)) as [->|Hk].
    + rewrite lookup_insert_eq. by rewrite decide_True.
    + rewrite lookup_insert_ne by done. rewrite decide_False by tauto.
      by destruct (d !! f).
  - rewrite lookup_insert_ne by done. by rewrite decide_False by tauto.
Qed.

Lemma stored_setConfig {T} `{Streamed T} f k (v : T) f' k' c :
  stored f' k' (setConfig f k v c)
  = if decide (f' = f ∧ k' = k) then Some (str (put v)) else stored f' k' c.
Proof. apply stored_assign. Qed.

Lemma getConfig_stored (T : Type) `{Streamed T} f k c :
  getConfig T f k c
  = match stored f k c with
    | Some value =>
      match get (chars value) with
      | Some v => Returns v
      | None =>
        Throws ("Failed to convert value to requested type for key: " +:+ k
                +:+ " in filter: " +:+ f)
      end
    | None =>
      match m_configData c !! f with
      | None => Throws ("Filter not found: " +:+ f)
      | Some _ => Throws ("Key not found: " +:+ k +:+ " in filter: " +:+ f)
      end
    end.
Proof.
  unfold getConfig, stored. destruct (m_configData c !! f) as [sect|]; [|done].
  simpl. by destruct (sect !! k).
Qed.

Lemma getConfig_roundtrip (T : Type) `{Streamed T} f k (v : T) c :
  getConfig T f k (setConfig f k v c)
  = match get (put v) with
    | Some v' => Returns v'
    | None =>
      Throws ("Failed to convert value to requested type for key: " +:+ k
              +:+ " in filter: " +:+ f)
    end.
Proof.
  rewrite getConfig_stored, stored_setConfig, decide_True by done.
  by rewrite chars_str.
Qed.

Definition blank (ch : ascii) : Prop := Ascii.is_space ch = true.
Definition solid (ch : ascii) : Prop := Ascii.is_space ch = false.

Lemma token_solid s : Forall solid (token s).
Proof.
  induction s as [|ch s IH]; simpl; [constructor|].
  destruct (Ascii.is_space ch) eqn:Hch; [constructor|]. by constructor.
Qed.

Lemma token_id s : Forall solid s → token s = s.
Proof.
  induction 1 as [|ch s Hch _ IH]; simpl; [done|].
  unfold solid in Hch. rewrite Hch. by f_equal.
Qed.

Lemma skipws_split s : ∃ ws, s = ws ++ skipws s ∧ Forall blank ws.
Proof.
  induction s as [|ch s (ws & Hs & Hws)]; simpl.
  - by exists [].
  - destruct (Ascii.is_space ch) eqn:Hch.
    + exists (ch :: ws). split; [by rewrite Hs at 1|by constructor].
    + by exists [].
Qed.

Lemma token_split s :
  ∃ rest, s = token s ++ rest
          ∧ (rest = [] ∨ ∃ ch rest', rest = ch :: rest' ∧ blank ch).
Proof.
  induction s as [|ch s (rest & Hs & Hrest)]; simpl.
  - exists []. by split; [|left].
  - destruct (Ascii.is_space ch) eqn:Hch.
    + exists (ch :: s). split; [done|]. right. by exists ch, s.
    + exists rest. split; [by rewrite Hs at 1|done].
Qed.

Lemma token_skipws_nil s : token (skipws s) = [] ↔ Forall blank s.
Proof.
  induction s as [|ch s IH]; simpl.
  - split; [constructor|done].
  - destruct (Ascii.is_space ch) eqn:Hch.
    + rewrite IH. split; [by constructor|]. by inversion 1.
    + simpl. rewrite Hch. split; [done|]. inversion 1 as [|?? Hb]; subst.
      unfold blank in Hb. congruence.
Qed.

Lemma skipws_solid ch s : solid ch → skipws (ch :: s) = ch :: s.
Proof. intros Hch. simpl. unfold solid in Hch. by rewrite Hch. Qed.

Lemma chars_inj s1 s2 : chars s1 = chars s2 → s1 = s2.
Proof. intros Heq. by rewrite <- (str_chars s1), <- (str_chars s2), Heq. Qed.

(** X14.  Text values.  [setConfig<std::string>] stores the text as it
    is, but [getConfig<std::string>] reads one white-space delimited word:
    the value read back is the stored text exactly when that text is not
    empty and holds no white space; a text that is empty or all white space
    makes [getConfig] throw; otherwise the result is the first word of the
    text (leading white space dropped, everything from the next white space
    on dropped). *)
Theorem X14_text_values (c : FDS_ConfigManager) (f k v : string) :
  (getConfig string f k (setConfig f k v c) = Returns v
     ↔ v ≠ "" ∧ Forall solid (chars v))
  ∧ (is_throw (getConfig string f k (setConfig f k v c)) ↔ Forall blank (chars v))
  ∧ (∀ r, getConfig string f k (setConfig f k v c) = Returns r →
       r ≠ "" ∧ Forall solid (chars r)
       ∧ ∃ ws rest, chars v = ws ++ chars r ++ rest
                    ∧ Forall blank ws
                    ∧ (rest = [] ∨ ∃ ch rest', rest = ch :: rest' ∧ blank ch)).
Proof.
  assert (getConfig string f k (setConfig f k v c)
          = match token (skipws (chars v)) with
            | [] => Throws ("Failed to convert value to requested type for key: "
                            +:+ k +:+ " in filter: " +:+ f)
            | t => Returns (str t)
            end) as ->.
  { rewrite (getConfig_roundtrip string). simpl. unfold get_string.
    by destruct (token (skipws (chars v))). }
  assert (∀ r, match token (skipws (chars v)) with
               | [] => Throws ("Failed to convert value to requested type for key: "
                               +:+ k +:+ " in filter: " +:+ f)
               | t => Returns (str t)
               end = Returns r →
          r ≠ "" ∧ Forall solid (chars r)
          ∧ ∃ ws rest, chars v = ws ++ chars r ++ rest
                       ∧ Forall blank ws
                       ∧ (rest = [] ∨ ∃ ch rest', rest = ch :: rest' ∧ blank ch)) as Hword.
  { intros r Hr.
    destruct (token (skipws (chars v))) as [|ch t] eqn:Htok; [done|].
    injection Hr as <-. change (String ch (str t)) with (str (ch :: t)).
    rewrite chars_str. split_and!.
    - done.
    - rewrite <- Htok. apply token_solid.
    - destruct (skipws_split (chars v)) as (ws & Hv & Hws).
      destruct (token_split (skipws (chars v))) as (rest & Hs & Hrest).
      exists ws, rest. split; [|done]. rewrite <- Htok. by rewrite <- Hs. }
  split_and!.
  - split.
    + intros Hr. destruct (Hword _ Hr) as (? & ? & _). done.
    + intros [Hne Hsolid].
      destruct (chars v) as [|ch s] eqn:Hv.
      * destruct Hne. apply chars_inj. by rewrite Hv.
      * inversion Hsolid as [|?? Hch Hs]; subst.
        rewrite (skipws_solid _ _ Hch), (token_id _ Hsolid).
        by rewrite <- Hv, str_chars.
  - rewrite <- token_skipws_nil.
    by destruct (token (skipws (chars v))).
  - exact Hword.
Qed.

(** *** Integers *)

Lemma digit_cases (d : Z) (P : Z → Prop) :
  (0 ≤ d ≤ 9)%Z →
  P 0%Z → P 1%Z → P 2%Z → P 3%Z → P 4%Z → P 5%Z → P 6%Z → P 7%Z → P 8%Z → P 9%Z →
  P d.
Proof.
  intros Hd ??????????.
  assert (d = 0 ∨ d = 1 ∨ d = 2 ∨ d = 3 ∨ d = 4 ∨ d = 5 ∨ d = 6 ∨ d = 7
          ∨ d = 8 ∨ d = 9)%Z as Hc by lia.
  destruct Hc as [->|[->|[->|[->|[->|[->|[->|[->|[->| ->]]]]]]]]]; done.
Qed.

Lemma digit_value_digit_char d : (0 ≤ d ≤ 9)%Z → digit_value (digit_char d) = Some d.
Proof. intros Hd. by apply (digit_cases d (λ d, digit_value (digit_char d) = Some d)). Qed.

Lemma digit_char_solid d : (0 ≤ d ≤ 9)%Z → solid (digit_char d).
Proof. intros Hd. by apply (digit_cases d (λ d, solid (digit_char d))). Qed.

(** The optional sign in front of a number. *)
Definition read_sign (s : list ascii) : bool * list ascii :=
  match s with
  | "-"%char :: t => (true, t)
  | "+"%char :: t => (false, t)
  | t => (false, t)
  end.

Lemma get_int_read_sign s :
  get_int s
  = match digits (read_sign (skipws s)).2 with
    | [] => None
    | ds =>
      let v := if (read_sign (skipws s)).1 then (- number ds)%Z else number ds in
      if decide (INT_MIN ≤ v ≤ INT_MAX)%Z then Some v else None
    end.
Proof.
  unfold get_int, read_sign.
  by destruct (skipws s) as [|[[] [] [] [] [] [] [] []] t].
Qed.

Lemma read_sign_digit d s :
  (0 ≤ d ≤ 9)%Z → read_sign (digit_char d :: s) = (false, digit_char d :: s).
Proof.
  intros Hd.
  by apply (digit_cases d (λ d, read_sign (digit_char d :: s) = (false, digit_char d :: s))).
Qed.

Lemma number_snoc ds d : number (ds ++ [d]) = (10 * number ds + d)%Z.
Proof. unfold number. by rewrite foldl_app. Qed.

Lemma digits_app ds rest :
  Forall (λ d, 0 ≤ d ≤ 9)%Z ds →
  digits ((digit_char <$> ds) ++ rest) = ds ++ digits rest.
Proof.
  induction 1 as [|d ds Hd _ IH]; [done|].
  rewrite fmap_cons. simpl. rewrite (digit_value_digit_char d Hd). by rewrite IH.
Qed.

(** With enough fuel, [put_digits] writes the decimal digits of [n]. *)
Lemma put_digits_spec fuel : ∀ n acc,
  (0 < fuel)%nat → (0 ≤ n < 2 ^ Z.of_nat fuel)%Z →
  ∃ ds, put_digits fuel n acc = (digit_char <$> ds) ++ acc
        ∧ ds ≠ []
        ∧ Forall (λ d, 0 ≤ d ≤ 9)%Z ds
        ∧ number ds = n.
Proof.
  induction fuel as [|fuel IH]; intros n acc Hfuel Hn; [lia|].
  rewrite Nat2Z.inj_succ, Z.pow_succ_r in Hn by lia.
  pose proof (Z.mod_pos_bound n 10 ltac:(lia)) as Hmod.
  pose proof (Z.div_mod n 10 ltac:(lia)) as Hdiv.
  simpl. destruct (n / 10 =? 0)%Z eqn:Hq.
  - apply Z.eqb_eq in Hq. exists [n `mod` 10]%Z. split_and!; [done|done| |].
    + constructor; [lia|constructor].
    + unfold number. simpl. lia.
  - apply Z.eqb_neq in Hq.
    assert (0 < n / 10)%Z as Hpos.
    { pose proof (Z.div_pos n 10 ltac:(lia) ltac:(lia)). lia. }
    assert (n / 10 < 2 ^ Z.of_nat fuel)%Z as Hlt.
    { apply Z.div_lt_upper_bound; lia. }
    assert (0 < fuel)%nat as Hfuel'.
    { destruct fuel; [|lia]. simpl in Hlt. lia. }
    destruct (IH (n / 10)%Z (digit_char (n `mod` 10) :: acc) Hfuel' ltac:(lia))
      as (ds & Hput & Hne & Hds & Hnum).
    exists (ds ++ [n `mod` 10]%Z). split_and!.
    + rewrite Hput, fmap_app. simpl. by rewrite <- app_assoc.
    + by destruct ds.
    + apply Forall_app. split; [done|]. constructor; [lia|constructor].
    + rewrite number_snoc, Hnum. lia.
Qed.

Lemma put_nat_spec n :
  (0 ≤ n)%Z →
  ∃ ds, put_digits (S (Z.to_nat (Z.log2 n))) n [] = digit_char <$> ds
        ∧ ds ≠ []
        ∧ Forall (λ d, 0 ≤ d ≤ 9)%Z ds
        ∧ number ds = n.
Proof.
  intros Hn.
  destruct (put_digits_spec (S (Z.to_nat (Z.log2 n))) n []) as (ds & Hput & Hrest).
  { lia. }
  { split; [done|]. rewrite Nat2Z.inj_succ, Z2Nat.id by apply Z.log2_nonneg.
    destruct (decide (n = 0%Z)) as [->|Hne]; [done|].
    apply Z.log2_spec. lia. }
  exists ds. split; [|done]. by rewrite Hput, app_nil_r.
Qed.

(** Reading what [put_int] wrote, whatever follows the digits. *)
Lemma get_int_put_int v junk :
  (INT_MIN ≤ v ≤ INT_MAX)%Z → digits junk = [] →
  get_int (put_int v ++ junk) = Some v.
Proof.
  intros Hv Hjunk. rewrite get_int_read_sign. unfold put_int.
  destruct (v <? 0)%Z eqn:Hneg.
  - apply Z.ltb_lt in Hneg.
    destruct (put_nat_spec (- v)%Z ltac:(lia)) as (ds & -> & Hne & Hds & Hnum).
    change (skipws (("-"%char :: (digit_char <$> ds)) ++ junk))
      with ("-"%char :: (digit_char <$> ds) ++ junk).
    change (read_sign ("-"%char :: (digit_char <$> ds) ++ junk))
      with (true, (digit_char <$> ds) ++ junk).
    cbn [fst snd]. rewrite (digits_app ds junk Hds), Hjunk, app_nil_r.
    destruct ds as [|d ds]; [done|]. cbn zeta. rewrite Hnum.
    rewrite decide_True by lia. f_equal. lia.
  - apply Z.ltb_ge in Hneg.
    destruct (put_nat_spec v Hneg) as (ds & -> & Hne & Hds & Hnum).
    destruct ds as [|d ds]; [done|].
    inversion Hds as [|?? Hd _]; subst.
    rewrite fmap_cons. simpl app.
    rewrite (skipws_solid _ _ (digit_char_solid d Hd)).
    rewrite (read_sign_digit d _ Hd). cbn [fst snd].
    change (digit_char d :: (digit_char <$> ds) ++ junk)
      with ((digit_char <$> d :: ds) ++ junk).
    rewrite (digits_app (d :: ds) junk Hds), Hjunk, app_nil_r.
    cbn zeta. by rewrite decide_True by lia.
Qed.

Lemma put_int_text v (s : string) :
  (INT_MIN ≤ v ≤ INT_MAX)%Z → str (put_int v) = s → get_int (chars s) = Some v.
Proof.
  intros Hv <-. rewrite chars_str.
  rewrite <- (app_nil_r (put_int v)). by apply get_int_put_int.
Qed.

(** X15.  Integer values.  An [int] written with [setConfig<int>] is read
    back unchanged by [getConfig<int>]; more generally [getConfig<int>]
    returns [v] from every stored text that consists of the decimal form of
    [v] followed by anything that does not start with a digit (the rest is
    ignored without error).  Read as a boolean, a stored integer is true
    exactly when it is 1 and false exactly when it is 0, and every other
    integer makes [getConfig<bool>] throw; a stored boolean read as an
    integer always throws. *)
Theorem X15_int_values (c : FDS_ConfigManager) (f k : string) (v : Z) :
  (INT_MIN ≤ v ≤ INT_MAX)%Z →
  getConfig Z f k (setConfig f k v c) = Returns v
  ∧ (∀ c' junk, digits junk = [] →
       stored f k c' = Some (str (put_int v ++ junk)) →
       getConfig Z f k c' = Returns v)
  ∧ (getConfig_bool f k (setConfig f k v c) = Returns true ↔ v = 1%Z)
  ∧ (getConfig_bool f k (setConfig f k v c) = Returns false ↔ v = 0%Z)
  ∧ (is_throw (getConfig_bool f k (setConfig f k v c)) ↔ v ≠ 0%Z ∧ v ≠ 1%Z)
  ∧ (∀ b, is_throw (getConfig Z f k (setConfig_bool f k b c))).
Proof.
  intros Hv.
  assert (∀ s : string, str (put_int v) = s → get_int (chars s) = Some v) as Htext
    by (intros s; by apply put_int_text).
  assert (stored f k (setConfig f k v c) = Some (str (put_int v))) as Hst.
  { rewrite stored_setConfig. by rewrite decide_True. }
  pose proof (getConfig_bool_stored _ _ _ _ Hst) as Hb.
  assert (v = 1%Z → str (put_int v) = "1") as H1 by (by intros ->).
  assert (v = 0%Z → str (put_int v) = "0") as H0 by (by intros ->).
  assert (str (put_int v) = "1" → v = 1%Z) as H1'.
  { intros Hs. pose proof (Htext _ Hs) as Hg. vm_compute in Hg. congruence. }
  assert (str (put_int v) = "0" → v = 0%Z) as H0'.
  { intros Hs. pose proof (Htext _ Hs) as Hg. vm_compute in Hg. congruence. }
  assert (∀ s : string, get_int (chars s) = None → str (put_int v) ≠ s) as Hnot.
  { intros s Hnone Hs. rewrite (Htext _ Hs) in Hnone. done. }
  pose proof (Hnot "true" eq_refl) as Ht. pose proof (Hnot "True" eq_refl) as HT.
  pose proof (Hnot "false" eq_refl) as Hf. pose proof (Hnot "False" eq_refl) as HF.
  assert ((str (put_int v) = "true" ∨ str (put_int v) = "True" ∨ str (put_int v) = "1")
          ↔ v = 1%Z) as Htrue by tauto.
  assert ((str (put_int v) = "false" ∨ str (put_int v) = "False" ∨ str (put_int v) = "0")
          ↔ v = 0%Z) as Hfalse by tauto.
  rewrite Hb, (bool_decide_ext _ _ Htrue), (bool_decide_ext _ _ Hfalse).
  split_and!.
  - rewrite (getConfig_roundtrip Z). simpl.
    rewrite <- (app_nil_r (put_int v)). by rewrite get_int_put_int.
  - intros c' junk Hjunk Hc'. rewrite getConfig_stored, Hc', chars_str. simpl.
    by rewrite get_int_put_int.
  - repeat case_bool_decide; split; try done; lia.
  - repeat case_bool_decide; split; try done; lia.
  - repeat case_bool_decide; simpl; split; try done; lia.
  - intros b. rewrite getConfig_stored, stored_setConfig_bool.
    by destruct b.
Qed.

(** X16.  Writing one entry leaves the others alone.  After a [setConfig]
    under section [f] and key [k], every other entry holds the text it held
    before, an entry that could be read is read with the same result, and
    file name, load status and last error are untouched; a second write to
    the same entry replaces the first, and writes to different entries can
    be swapped.  (The message of a failing [getConfig] can change: a key
    missing from a section that did not exist is reported as a missing
    key once the section exists.) *)
Theorem X16_setConfig_frame {T} `{Streamed T} (c : FDS_ConfigManager)
    (f k : string) (v : T) :
  (∀ f' k', (f', k') ≠ (f, k) →
     stored f' k' (setConfig f k v c) = stored f' k' c)
  ∧ (∀ f' k' b, (f', k') ≠ (f, k) →
       (getConfig_bool f' k' (setConfig f k v c) = Returns b
        ↔ getConfig_bool f' k' c = Returns b))
  ∧ (∀ f' k' (u : Z), (f', k') ≠ (f, k) →
       (getConfig Z f' k' (setConfig f k v c) = Returns u
        ↔ getConfig Z f' k' c = Returns u))
  ∧ (∀ f' k' (u : string), (f', k') ≠ (f, k) →
       (getConfig string f' k' (setConfig f k v c) = Returns u
        ↔ getConfig string f' k' c = Returns u))
  ∧ (∀ k', k' ≠ k → m_configData c !! f = None →
       getConfig Z f k' c = Throws ("Filter not found: " +:+ f)
       ∧ getConfig Z f k' (setConfig f k v c)
         = Throws ("Key not found: " +:+ k' +:+ " in filter: " +:+ f))
  ∧ (∀ v2 : T, setConfig f k v2 (setConfig f k v c) = setConfig f k v2 c)
  ∧ (∀ f' k' (v' : T), (f', k') ≠ (f, k) →
       setConfig f k v (setConfig f' k' v' c) = setConfig f' k' v' (setConfig f k v c))
  ∧ m_fileName (setConfig f k v c) = m_fileName c
  ∧ m_loadStatus (setConfig f k v c) = m_loadStatus c
  ∧ m_lastError (setConfig f k v c) = m_lastError c.
Proof.
  assert (∀ f' k', (f', k') ≠ (f, k) →
            stored f' k' (setConfig f k v c) = stored f' k' c) as Hst.
  { intros f' k' Hne. rewrite stored_setConfig, decide_False; [done|].
    intros [-> ->]. done. }
  assert (∀ f' k', stored f' k' c ≠ None → m_configData c !! f' ≠ None) as Hsect.
  { intros f' k'. unfold stored. by destruct (m_configData c !! f'). }
  assert (∀ U `{Streamed U} f' k' (u : U), (f', k') ≠ (f, k) →
            (getConfig U f' k' (setConfig f k v c) = Returns u
             ↔ getConfig U f' k' c = Returns u)) as Hget.
  { intros U HU f' k' u Hne. rewrite !getConfig_stored, (Hst f' k' Hne).
    destruct (stored f' k' c) as [value|]; [done|].
    destruct (m_configData (setConfig f k v c) !! f'),
      (m_configData c !! f'); done. }
  split_and!; try done.
  - intros f' k' b Hne. pose proof (Hst f' k' Hne) as Heq.
    destruct (stored f' k' c) as [value|] eqn:Hc.
    + by rewrite (getConfig_bool_stored _ _ _ _ Heq), (getConfig_bool_stored _ _ _ _ Hc).
    + pose proof (getConfig_bool_missing _ _ _ Heq) as H1.
      pose proof (getConfig_bool_missing _ _ _ Hc) as H2.
      destruct (getConfig_bool f' k' (setConfig f k v c)),
        (getConfig_bool f' k' c); done.
  - intros f' k' u. apply (Hget Z _).
  - intros f' k' u. apply (Hget string _).
  - intros k' Hk Hnone. unfold getConfig. rewrite Hnone. split; [done|].
    simpl. unfold assign. rewrite lookup_insert_eq, Hnone. simpl.
    by rewrite lookup_insert_ne.
  - intros v2. unfold setConfig, assign. simpl. f_equal.
    rewrite lookup_insert_eq. simpl. by rewrite !insert_insert_eq.
  - intros f' k' v' Hne. unfold setConfig. simpl. f_equal.
    apply map_eq. intros g. apply option_eq. intros sect. unfold assign.
    destruct (decide (f' = f)) as [->|Hf].
    + assert (k' ≠ k) as Hk by congruence.
      rewrite !lookup_insert_eq. simpl.
      rewrite !insert_insert_eq. by rewrite (insert_insert_ne _ k k').
    + rewrite (lookup_insert_ne _ f' f) by done.
      rewrite (lookup_insert_ne _ f f') by done.
      by rewrite (insert_insert_ne _ f f').
Qed.

(** *** The file: [loadConfig], [saveConfig], [reload] *)

(** Sequencing of calls that may throw. *)
#[export] Instance result_bind : MBind result := λ A B k r,
  match r with
  | Returns a => k a
  | Throws w => Throws w
  end.

(** The characters [" \t\r\n"] that [loadConfig] strips. *)
Definition trim_set : list ascii := [" "; "009"; "013"; "010"]%char.

Definition newline : ascii := "010"%char.

(** [s.find_first_not_of(set)]; [None] stands for [std::string::npos]. *)
Fixpoint find_first_not_of (set s : list ascii) : option nat :=
  match s with
  | [] => None
  | ch :: s' =>
    if decide (ch ∈ set) then S <$> find_first_not_of set s' else Some 0%nat
  end.

(** [s.find_last_not_of(set)]. *)
Fixpoint find_last_not_of (set s : list ascii) : option nat :=
  match s with
  | [] => None
  | ch :: s' =>
    match find_last_not_of set s' with
    | Some i => Some (S i)
    | None => if decide (ch ∈ set) then None else Some 0%nat
    end
  end.

(** [s.find(c)]. *)
Fixpoint find_char (c : ascii) (s : list ascii) : option nat :=
  match s with
  | [] => None
  | ch :: s' => if decide (ch = c) then Some 0%nat else S <$> find_char c s'
  end.

(** [last + 1] on [std::size_t]: [npos + 1] wraps around to 0. *)
Definition succ_npos (i : option nat) : nat :=
  match i with
  | Some n => S n
  | None => 0
  end.

(** What [std::ifstream ifs(m_fileName)] meets: a file that cannot be
    opened; a file that opens but whose first read fails; or a file from
    which [std::getline] delivers the given lines before it fails, with
    [ifs.bad()] as given afterwards. *)
Inductive Input : Type :=
  | CannotOpen
  | CannotRead
  | Reads (lines : list (list ascii)) (bad : bool).

(** The lines that [std::getline] delivers from a file holding [text]:
    each call extracts up to the next line feed, which it drops; a call
    that finds nothing left fails. *)
Fixpoint getlines (text : list ascii) : list (list ascii) :=
  match text with
  | [] => []
  | ch :: text' =>
    if decide (ch = newline) then [] :: getlines text'
    else match getlines text' with
         | [] => [[ch]]
         | line :: lines => (ch :: line) :: lines
         end
  end.

(** [std::map] iterates in the order of its keys, and [std::string]
    compares lexicographically by character code. *)
Definition in_order {A} (m : gmap string A) : list (string * A) :=
  merge_sort (λ p q, String.le p.1 q.1) (map_to_list m).

Section File.

(** The text of [what()] of the [std::out_of_range] that
    [std::string::substr] throws, which the standard leaves to the
    implementation; it may depend on the position and on the string. *)
Variable out_of_range : option nat → list ascii → string.

(** [s.substr(pos, len)], with [None] for [npos] (the default [len]):
    throws when [pos > s.size()]. *)
Definition substr (pos len : option nat) (s : list ascii) : result (list ascii) :=
  match pos with
  | Some p =>
    if decide (p ≤ length s)%nat then
      Returns (match len with
               | Some n => take n (drop p s)
               | None => drop p s
               end)
    else Throws (out_of_range pos s)
  | None => Throws (out_of_range pos s)
  end.

(** The four statements that strip a key or a value:
    [first = s.find_first_not_of(" \t\r\n"); s = s.substr(first);
     last = s.find_last_not_of(" \t\r\n"); s = s.substr(0, last + 1);] *)
Definition trim (s : list ascii) : result (list ascii) :=
  s1 ← substr (find_first_not_of trim_set s) None s;
  substr (Some 0%nat) (Some (succ_npos (find_last_not_of trim_set s1))) s1.

(** The body of the loop of [loadConfig] for one line, on the current
    section name and the data. *)
Definition read_line (line : list ascii) (cur : string)
    (d : gmap string (gmap string string))
    : result (string * gmap string (gmap string string)) :=
  match find_first_not_of trim_set line with
  | None => Returns (cur, d)
  | Some first =>
    line ← substr (Some first) None line;
    line ← substr (Some 0%nat) (Some (succ_npos (find_last_not_of trim_set line))) line;
    match line with
    | [] => Returns (cur, d)
    | ch :: _ =>
      if decide (ch = "["%char) then
        match find_char "]"%char line with
        | Some endBracket =>
          name ← substr (Some 1%nat) (Some (endBracket - 1)%nat) line;
          Returns (str name, d)
        | None => Returns (cur, d)
        end
      else
        match find_char "="%char line with
        | Some equalsPos =>
          key ← substr (Some 0%nat) (Some equalsPos) line;
          value ← substr (Some (equalsPos + 1)%nat) None line;
          key ← trim key;
          value ← trim value;
          Returns (cur, assign cur (str key) (str value) d)
        | None => Returns (cur, d)
        end
    end
  end.

(** The loop [while (std::getline(ifs, line))]: the section name and the
    data when it ends, and the message of the exception that ended it, if
    one did. *)
Fixpoint read_lines (lines : list (list ascii)) (cur : string)
    (d : gmap string (gmap string string))
    : string * gmap string (gmap string string) * option string :=
  match lines with
  | [] => (cur, d, None)
  | line :: lines' =>
    match read_line line cur d with
    | Returns (cur', d') => read_lines lines' cur' d'
    | Throws w => (cur, d, Some w)
    end
  end.

(** [void FDS_ConfigManager::loadConfig()]. *)
Definition loadConfig (input : Input) (c : FDS_ConfigManager) : FDS_ConfigManager :=
  match input with
  | CannotOpen =>
    {| m_fileName := m_fileName c;
       m_configData := m_configData c;
       m_loadStatus := FileNotFound;
       m_lastError :=
         "Config file not found: " +:+ m_fileName c +:+ " (will be created on save)" |}
  | CannotRead =>
    {| m_fileName := m_fileName c;
       m_configData := m_configData c;
       m_loadStatus := ReadError;
       m_lastError := "Failed to read from config file: " +:+ m_fileName c |}
  | Reads lines bad =>
    match read_lines lines "" (m_configData c) with
    | (_, d, Some w) =>
      {| m_fileName := m_fileName c;
         m_configData := d;
         m_loadStatus := ReadError;
         m_lastError := "Exception while reading config file: " +:+ w |}
    | (_, d, None) =>
      if bad then
        {| m_fileName := m_fileName c;
           m_configData := d;
           m_loadStatus := ReadError;
           m_lastError := "Error reading from config file: " +:+ m_fileName c |}
      else
        {| m_fileName := m_fileName c;
           m_configData := d;
           m_loadStatus := Success;
           m_lastError := "" |}
    end
  end.

(** [FDS_ConfigManager(const std::string& file_name)]: the members take
    their initial values, then [loadConfig()] runs. *)
Definition FDS_ConfigManager_new (input : Input) (file_name : string) : FDS_ConfigManager :=
  loadConfig input {| m_fileName := file_name;
                      m_configData := ∅;
                      m_loadStatus := NotLoaded;
                      m_lastError := "" |}.

(** [void reload() { m_configData.clear(); loadConfig(); }] *)
Definition reload (input : Input) (c : FDS_ConfigManager) : FDS_ConfigManager :=
  loadConfig input {| m_fileName := m_fileName c;
                      m_configData := ∅;
                      m_loadStatus := m_loadStatus c;
                      m_lastError := m_lastError c |}.

(** [bool isLoaded() const noexcept], [bool isFileNotFound() const noexcept]. *)
Definition isLoaded (c : FDS_ConfigManager) : bool :=
  match m_loadStatus c with Success => true | _ => false end.
Definition isFileNotFound (c : FDS_ConfigManager) : bool :=
  match m_loadStatus c with FileNotFound => true | _ => false end.

(** [std::endl] writes a line feed. *)
Definition endl : list ascii := [newline].

(** [ofs << keyValuePair.first << "=" << keyValuePair.second << std::endl;] *)
Definition write_entry (out : list ascii) (kv : string * string) : list ascii :=
  out ++ chars kv.1 ++ "="%char :: chars kv.2 ++ endl.

(** The body of the outer loop of [saveConfig]. *)
Definition write_section (out : list ascii) (p : string * gmap string string)
    : list ascii :=
  foldl write_entry (out ++ "["%char :: chars p.1 ++ "]"%char :: endl) (in_order p.2)
  ++ endl.

(** [void FDS_ConfigManager::saveConfig()]: the text written to the file,
    or the exception when the file cannot be opened for writing. *)
Definition saveConfig (can_open : bool) (c : FDS_ConfigManager) : result (list ascii) :=
  if can_open then Returns (foldl write_section [] (in_order (m_configData c)))
  else Throws ("Failed to open: " +:+ m_fileName c).

(** **** The string primitives *)

Lemma find_first_not_of_all set s :
  Forall (λ ch, ch ∈ set) s → find_first_not_of set s = None.
Proof.
  induction 1 as [|ch s Hch _ IH]; simpl; [done|].
  rewrite decide_True by done. by rewrite IH.
Qed.

Lemma find_first_not_of_head set ch s :
  ch ∉ set → find_first_not_of set (ch :: s) = Some 0%nat.
Proof. intros Hch. simpl. by rewrite decide_False. Qed.

Lemma find_last_not_of_all set s :
  Forall (λ ch, ch ∈ set) s → find_last_not_of set s = None.
Proof.
  induction 1 as [|ch s Hch _ IH]; simpl; [done|].
  rewrite IH. by rewrite decide_True.
Qed.

Lemma find_last_not_of_app set s ch t :
  ch ∉ set → Forall (λ x, x ∈ set) t →
  find_last_not_of set (s ++ ch :: t) = Some (length s).
Proof.
  intros Hch Ht. induction s as [|a s IH]; simpl.
  - rewrite (find_last_not_of_all _ _ Ht). by rewrite decide_False.
  - by rewrite IH.
Qed.

Lemma find_char_app c s t : c ∉ s → find_char c (s ++ c :: t) = Some (length s).
Proof.
  induction s as [|a s IH]; intros Hc; simpl.
  - by rewrite decide_True.
  - rewrite decide_False by (intros ->; apply Hc; by left).
    rewrite IH; [done|]. intros Hin. apply Hc. by right.
Qed.

(** A text that neither starts nor ends with a character of [trim_set]. *)
Definition starts_solid (s : list ascii) : Prop :=
  match s with
  | [] => False
  | ch :: _ => ch ∉ trim_set
  end.

Definition ends_solid (s : list ascii) : Prop :=
  match last s with
  | Some ch => ch ∉ trim_set
  | None => False
  end.

#[export] Instance starts_solid_dec s : Decision (starts_solid s).
Proof. destruct s; apply _. Defined.

#[export] Instance ends_solid_dec s : Decision (ends_solid s).
Proof. unfold ends_solid. destruct (last s); apply _. Defined.

Lemma ends_solid_split s :
  ends_solid s → ∃ s0 ch, s = s0 ++ [ch] ∧ ch ∉ trim_set.
Proof.
  unfold ends_solid. destruct (last s) as [ch|] eqn:Hl; [|done].
  apply last_Some in Hl as [s0 ->]. by exists s0, ch.
Qed.

Lemma find_last_not_of_solid s :
  ends_solid s → succ_npos (find_last_not_of trim_set s) = length s.
Proof.
  intros (s0 & ch & -> & Hch)%ends_solid_split.
  rewrite (find_last_not_of_app _ _ _ [] Hch) by constructor.
  rewrite length_app. simpl. lia.
Qed.

Lemma bind_Returns {A B} (a : A) (k : A → result B) : (Returns a ≫= k) = k a.
Proof. done. Qed.

Lemma substr_all s : substr (Some 0%nat) None s = Returns s.
Proof. unfold substr. by rewrite decide_True by lia. Qed.

Lemma substr_take n s : substr (Some 0%nat) (Some n) s = Returns (take n s).
Proof. unfold substr. rewrite decide_True by lia. by rewrite drop_0. Qed.

Lemma substr_length s :
  substr (Some 0%nat) (Some (length s)) s = Returns s.
Proof. unfold substr. rewrite decide_True by lia. by rewrite drop_0, take_ge. Qed.

Lemma substr_prefix s t :
  substr (Some 0%nat) (Some (length s)) (s ++ t) = Returns s.
Proof.
  unfold substr. rewrite decide_True by lia. by rewrite drop_0, take_app_length.
Qed.

Lemma substr_suffix s ch t :
  substr (Some (length s + 1)%nat) None (s ++ ch :: t) = Returns t.
Proof.
  unfold substr. rewrite decide_True by (rewrite length_app; simpl; lia).
  f_equal. change (s ++ ch :: t) with (s ++ [ch] ++ t).
  rewrite (assoc_L (++) s [ch] t).
  apply drop_app_length'. rewrite length_app. simpl. lia.
Qed.

Lemma trim_solid s : starts_solid s → ends_solid s → trim s = Returns s.
Proof.
  intros Hs He. unfold trim. destruct s as [|ch s]; [done|].
  rewrite (find_first_not_of_head _ _ _ Hs), substr_all, bind_Returns.
  rewrite (find_last_not_of_solid _ He). apply substr_length.
Qed.

(** The part of the loop body that runs on the stripped line. *)
Definition read_stripped (line : list ascii) (cur : string)
    (d : gmap string (gmap string string))
    : result (string * gmap string (gmap string string)) :=
  match line with
  | [] => Returns (cur, d)
  | ch :: _ =>
    if decide (ch = "["%char) then
      match find_char "]"%char line with
      | Some endBracket =>
        name ← substr (Some 1%nat) (Some (endBracket - 1)%nat) line;
        Returns (str name, d)
      | None => Returns (cur, d)
      end
    else
      match find_char "="%char line with
      | Some equalsPos =>
        key ← substr (Some 0%nat) (Some equalsPos) line;
        value ← substr (Some (equalsPos + 1)%nat) None line;
        key ← trim key;
        value ← trim value;
        Returns (cur, assign cur (str key) (str value) d)
      | None => Returns (cur, d)
      end
  end.

Lemma read_line_solid ch line t cur d :
  ch ∉ trim_set → line = ch :: t →
  read_line line cur d
  = read_stripped (take (succ_npos (find_last_not_of trim_set line)) line) cur d.
Proof.
  intros Hch ->. unfold read_line.
  rewrite (find_first_not_of_head _ _ _ Hch), substr_all, bind_Returns.
  by rewrite substr_take, bind_Returns.
Qed.

(** A blank line is skipped. *)
Lemma read_line_blank line cur d :
  Forall (λ ch, ch ∈ trim_set) line → read_line line cur d = Returns (cur, d).
Proof. intros Hl. unfold read_line. by rewrite find_first_not_of_all. Qed.

(** A section line as [saveConfig] writes it. *)
Lemma read_line_header (f : string) cur d :
  "]"%char ∉ chars f →
  read_line ("["%char :: chars f ++ ["]"%char]) cur d = Returns (f, d).
Proof.
  intros Hf.
  rewrite (read_line_solid "["%char _ (chars f ++ ["]"%char])); [|compute_done|done].
  rewrite find_last_not_of_solid.
  2:{ unfold ends_solid. rewrite app_comm_cons, last_snoc. compute_done. }
  rewrite take_ge by done.
  unfold read_stripped. rewrite decide_True by done.
  change (find_char "]"%char ("["%char :: chars f ++ ["]"%char]))
    with (S <$> find_char "]"%char (chars f ++ ["]"%char])).
  rewrite (find_char_app _ _ [] Hf). simpl fmap.
  unfold substr. rewrite decide_True by (simpl; lia).
  rewrite bind_Returns. simpl drop. rewrite drop_0.
  replace (S (length (chars f)) - 1)%nat with (length (chars f)) by lia.
  by rewrite take_app_length, str_chars.
Qed.

Definition clean_name (f : string) : Prop :=
  (newline ∉ chars f) ∧ ("]"%char ∉ chars f).

Definition clean_key (k : string) : Prop :=
  starts_solid (chars k) ∧ ends_solid (chars k)
  ∧ (newline ∉ chars k) ∧ ("="%char ∉ chars k)
  ∧ head (chars k) ≠ Some "["%char.

Definition clean_value (v : string) : Prop :=
  starts_solid (chars v) ∧ ends_solid (chars v) ∧ (newline ∉ chars v).

(** The line of a clean key, up to the point where the value is
    stripped. *)
Lemma read_stripped_entry (k : string) (value : list ascii) cur d :
  clean_key k →
  read_stripped (chars k ++ "="%char :: value) cur d
  = (value ← trim value; Returns (cur, assign cur k (str value) d)).
Proof.
  intros (Hs & He & _ & Heq & Hhead).
  unfold read_stripped.
  destruct (chars k) as [|ch K] eqn:HK; [done|].
  rewrite <- app_comm_cons. rewrite decide_False by (intros ->; by apply Hhead).
  rewrite app_comm_cons, (find_char_app _ _ _ Heq).
  rewrite substr_prefix, bind_Returns, substr_suffix, bind_Returns.
  rewrite (trim_solid _ Hs He), bind_Returns.
  by rewrite <- HK, str_chars.
Qed.

(** An entry line as [saveConfig] writes it, for a clean key and value. *)
Lemma read_line_entry (k v : string) cur d :
  clean_key k → clean_value v →
  read_line (chars k ++ "="%char :: chars v) cur d = Returns (cur, assign cur k v d).
Proof.
  intros Hk (Hs & He & _).
  pose proof Hk as (Hks & _).
  destruct (chars k) as [|ch K] eqn:HK; [done|].
  rewrite (read_line_solid ch _ (K ++ "="%char :: chars v)); [|done|done].
  rewrite find_last_not_of_solid.
  2:{ destruct (ends_solid_split _ He) as (v0 & l & Hv & Hl).
      unfold ends_solid. rewrite Hv.
      replace ((ch :: K) ++ "="%char :: v0 ++ [l])
        with (((ch :: K) ++ "="%char :: v0) ++ [l]) by (by rewrite <- app_assoc).
      by rewrite last_snoc. }
  rewrite take_ge by done. rewrite <- HK.
  rewrite (read_stripped_entry k (chars v) cur d Hk).
  by rewrite (trim_solid _ Hs He), bind_Returns, str_chars.
Qed.

(** An entry line whose value is empty or made of blanks: stripping the
    value throws. *)
Lemma read_line_blank_value (k v : string) cur d :
  clean_key k → Forall (λ ch, ch ∈ trim_set) (chars v) →
  ∃ w, read_line (chars k ++ "="%char :: chars v) cur d = Throws w.
Proof.
  intros Hk Hv.
  pose proof Hk as (Hks & _).
  destruct (chars k) as [|ch K] eqn:HK; [done|].
  rewrite (read_line_solid ch _ (K ++ "="%char :: chars v)); [|done|done].
  rewrite (find_last_not_of_app _ (ch :: K) "="%char (chars v)); [|compute_done|done].
  cbn [succ_npos].
  replace (take (S (length (ch :: K))) ((ch :: K) ++ "="%char :: chars v))
    with ((ch :: K) ++ ["="%char]).
  2:{ change ((ch :: K) ++ "="%char :: chars v)
        with ((ch :: K) ++ ["="%char] ++ chars v).
      rewrite (assoc_L (++) (ch :: K) ["="%char] (chars v)).
      rewrite take_app_length'; [done|]. rewrite length_app. simpl. lia. }
  rewrite <- HK, (read_stripped_entry k [] cur d Hk).
  eexists. reflexivity.
Qed.

(** **** Lines and text *)

(** The text of some lines, each ended by [std::endl]. *)
Definition unlines (L : list (list ascii)) : list ascii := L ≫= (λ l, l ++ endl).
Arguments unlines : simpl never.

Lemma unlines_app L1 L2 : unlines (L1 ++ L2) = unlines L1 ++ unlines L2.
Proof. apply bind_app. Qed.

Lemma unlines_cons l L : unlines (l :: L) = l ++ newline :: unlines L.
Proof. unfold unlines. rewrite bind_cons. unfold endl. by rewrite <- app_assoc. Qed.

Lemma getlines_line l rest :
  newline ∉ l → getlines (l ++ newline :: rest) = l :: getlines rest.
Proof.
  induction l as [|ch l IH]; intros Hl; simpl.
  - done.
  - rewrite decide_False by (intros ->; apply Hl; by left).
    rewrite IH; [done|]. intros Hin. apply Hl. by right.
Qed.

Lemma getlines_unlines L :
  Forall (λ l, newline ∉ l) L → getlines (unlines L) = L.
Proof.
  induction 1 as [|l L Hl _ IH]; [done|].
  rewrite unlines_cons, getlines_line by done. by f_equal.
Qed.

Lemma getlines_nonempty ch t : getlines (ch :: t) ≠ [].
Proof. simpl. case_decide; [done|]. by destruct (getlines t). Qed.

(** A text that ends with a line feed can be read on its own. *)
Lemma getlines_app A rest :
  A = [] ∨ last A = Some newline →
  getlines (A ++ rest) = getlines A ++ getlines rest.
Proof.
  induction A as [|ch A IH]; intros HA; [done|].
  destruct HA as [|HA]; [done|].
  assert (A = [] ∨ last A = Some newline) as HA'.
  { destruct A as [|a A]; [by left|]. right. by rewrite last_cons_cons in HA. }
  simpl. case_decide as Hch.
  - by rewrite IH.
  - rewrite IH by done. destruct A as [|a A].
    + simpl in HA. congruence.
    + destruct (getlines (a :: A)) eqn:Hg; [by apply getlines_nonempty in Hg|].
      done.
Qed.

Lemma last_unlines L : unlines L = [] ∨ last (unlines L) = Some newline.
Proof.
  induction L as [|l L _] using rev_ind; [by left|]. right.
  rewrite unlines_app, unlines_cons. change (unlines []) with (@nil ascii).
  by rewrite !(assoc_L (++)), last_snoc.
Qed.

(** A line without line feed that was written is a line that is read. *)
Lemma getlines_unlines_elem L line :
  line ∈ L → newline ∉ line → line ∈ getlines (unlines L).
Proof.
  intros (L1 & L2 & ->)%list_elem_of_split Hl.
  rewrite unlines_app, unlines_cons, getlines_app by apply last_unlines.
  rewrite getlines_line by done. apply elem_of_app. right. by left.
Qed.

(** The lines of [saveConfig]: for every section its name in brackets, its
    entries and an empty line. *)
Definition entry_line (kv : string * string) : list ascii :=
  chars kv.1 ++ "="%char :: chars kv.2.

Definition section_lines (p : string * gmap string string) : list (list ascii) :=
  ("["%char :: chars p.1 ++ ["]"%char]) :: (entry_line <$> in_order p.2) ++ [[]].

Definition saved_lines (d : gmap string (gmap string string)) : list (list ascii) :=
  in_order d ≫= section_lines.

Lemma foldl_write_entry kvs : ∀ out,
  foldl write_entry out kvs = out ++ unlines (entry_line <$> kvs).
Proof.
  induction kvs as [|kv kvs IH]; intros out; simpl.
  - change (unlines []) with (@nil ascii). by rewrite app_nil_r.
  - rewrite IH, unlines_cons. unfold write_entry, entry_line, endl.
    rewrite <- !(assoc_L (++)). simpl. by rewrite <- !(assoc_L (++)).
Qed.

Lemma write_section_lines out p :
  write_section out p = out ++ unlines (section_lines p).
Proof.
  unfold write_section, section_lines.
  rewrite foldl_write_entry, unlines_cons, unlines_app, unlines_cons.
  change (unlines []) with (@nil ascii). unfold endl.
  rewrite <- !(assoc_L (++)). simpl. by rewrite <- !(assoc_L (++)).
Qed.

Lemma foldl_write_section L : ∀ out,
  foldl write_section out L = out ++ unlines (L ≫= section_lines).
Proof.
  induction L as [|p L IH]; intros out.
  - change (unlines _) with (@nil ascii). simpl. by rewrite app_nil_r.
  - rewrite bind_cons, unlines_app. cbn [foldl].
    rewrite IH, write_section_lines. by rewrite <- (assoc_L (++)).
Qed.

Lemma saveConfig_lines c :
  saveConfig true c = Returns (unlines (saved_lines (m_configData c))).
Proof. unfold saveConfig. by rewrite foldl_write_section. Qed.

Lemma elem_of_in_order {A} (m : gmap string A) k a :
  (k, a) ∈ in_order m ↔ m !! k = Some a.
Proof. unfold in_order. rewrite merge_sort_Permutation. apply elem_of_map_to_list. Qed.

(** The entries of the store, as [saveConfig] meets them. *)
Definition entries (d : gmap string (gmap string string))
    : list (string * string * string) :=
  in_order d ≫= λ p, (λ kv, (p.1, kv.1, kv.2)) <$> in_order p.2.

Lemma elem_of_entries d f k v :
  (f, k, v) ∈ entries d ↔ ∃ sect, d !! f = Some sect ∧ sect !! k = Some v.
Proof.
  unfold entries. rewrite list_elem_of_bind. split.
  - intros ([f' sect] & Hin & Hp).
    apply list_elem_of_fmap in Hin as ([k' v'] & [= -> -> ->] & Hkv).
    exists sect. by rewrite <- !elem_of_in_order.
  - intros (sect & Hf & Hk). exists (f, sect). split; [|by apply elem_of_in_order].
    apply list_elem_of_fmap. exists (k, v). split; [done|].
    by apply elem_of_in_order.
Qed.

(** **** Reading lines *)

Lemma read_lines_app l1 l2 cur d :
  read_lines (l1 ++ l2) cur d
  = match read_lines l1 cur d with
    | (cur', d', None) => read_lines l2 cur' d'
    | r => r
    end.
Proof.
  revert cur d. induction l1 as [|line l1 IH]; intros cur d; [done|].
  simpl. destruct (read_line line cur d) as [[cur' d']|w]; [|done]. apply IH.
Qed.

(** The assignments [m_configData[f][k] = v] of a list of entries. *)
Definition store_all (ts : list (string * string * string))
    (d : gmap string (gmap string string)) : gmap string (gmap string string) :=
  foldl (λ d t, assign t.1.1 t.1.2 t.2 d) d ts.

Lemma store_all_app ts1 ts2 d :
  store_all (ts1 ++ ts2) d = store_all ts2 (store_all ts1 d).
Proof. apply foldl_app. Qed.

Lemma read_lines_entries (cur : string) (kvs : list (string * string)) :
  Forall (λ kv, clean_key kv.1 ∧ clean_value kv.2) kvs →
  ∀ d, read_lines (entry_line <$> kvs) cur d
       = (cur, store_all ((λ kv, (cur, kv.1, kv.2)) <$> kvs) d, None).
Proof.
  induction 1 as [|[k v] kvs [Hk Hv] _ IH]; intros d; [done|].
  rewrite !fmap_cons. simpl. unfold entry_line at 1. simpl.
  rewrite (read_line_entry k v cur d Hk Hv). apply IH.
Qed.

Definition clean_section (p : string * gmap string string) : Prop :=
  clean_name p.1 ∧ Forall (λ kv, clean_key kv.1 ∧ clean_value kv.2) (in_order p.2).

Lemma read_lines_section (p : string * gmap string string) cur d :
  clean_section p →
  read_lines (section_lines p) cur d
  = (p.1, store_all ((λ kv, (p.1, kv.1, kv.2)) <$> in_order p.2) d, None).
Proof.
  intros [[_ Hname] Hkvs]. unfold section_lines.
  change (read_lines (?h :: ?t) cur d)
    with (match read_line h cur d with
          | Returns (cur', d') => read_lines t cur' d'
          | Throws w => (cur, d, Some w)
          end).
  rewrite (read_line_header p.1 cur d Hname).
  by rewrite read_lines_app, (read_lines_entries p.1 _ Hkvs).
Qed.

Lemma read_lines_sections (L : list (string * gmap string string)) :
  Forall clean_section L →
  ∀ cur d, ∃ cur',
    read_lines (L ≫= section_lines) cur d
    = (cur',
       store_all (L ≫= λ p, (λ kv, (p.1, kv.1, kv.2)) <$> in_order p.2) d,
       None).
Proof.
  induction 1 as [|p L Hp _ IH]; intros cur d; [by exists cur|].
  rewrite !bind_cons, read_lines_app, (read_lines_section p cur d Hp).
  rewrite store_all_app. apply IH.
Qed.

Lemma store_all_other ts : ∀ d f k,
  (f, k) ∉ ts.*1 →
  store_all ts d !! f ≫= (.!! k) = d !! f ≫= (.!! k).
Proof.
  induction ts as [|[[f' k'] v'] ts IH]; intros d f k Hnot; [done|].
  simpl. rewrite IH.
  - rewrite stored_assign, decide_False; [done|]. intros [-> ->].
    apply Hnot. by left.
  - intros Hin. apply Hnot. by right.
Qed.

Lemma store_all_elem ts : ∀ d f k v,
  (f, k, v) ∈ ts → (∀ v', (f, k, v') ∈ ts → v' = v) →
  store_all ts d !! f ≫= (.!! k) = Some v.
Proof.
  induction ts as [|[[f' k'] v'] ts IH]; intros d f k v Hin Hfun.
  - by apply elem_of_nil in Hin.
  - simpl. destruct (decide ((f, k) ∈ ts.*1)) as [Hk|Hk].
    + apply list_elem_of_fmap in Hk as ([[f0 k0] v0] & [= <- <-] & Hin0).
      assert (v0 = v) as -> by (apply Hfun; by right).
      apply IH; [done|]. intros v1 Hv1. apply Hfun. by right.
    + rewrite (store_all_other ts _ f k Hk), stored_assign.
      apply elem_of_cons in Hin as [[= -> -> ->]|Hin].
      * by rewrite decide_True.
      * destruct Hk. apply list_elem_of_fmap. by exists (f, k, v).
Qed.

(** No section of the store is empty. *)
Definition no_empty_section (d : gmap string (gmap string string)) : Prop :=
  ∀ f sect, d !! f = Some sect → sect ≠ ∅.

Lemma no_empty_assign f k v d :
  no_empty_section d → no_empty_section (assign f k v d).
Proof.
  intros Hd f' sect. unfold assign. destruct (decide (f' = f)) as [->|Hf].
  - rewrite lookup_insert_eq. intros [= <-]. apply insert_non_empty.
  - rewrite lookup_insert_ne by done. apply Hd.
Qed.

Lemma no_empty_store_all ts : ∀ d,
  no_empty_section d → no_empty_section (store_all ts d).
Proof.
  induction ts as [|t ts IH]; intros d Hd; [done|].
  simpl. by apply IH, no_empty_assign.
Qed.

Lemma no_empty_read_line line cur d cur' d' :
  no_empty_section d → read_line line cur d = Returns (cur', d') →
  no_empty_section d'.
Proof.
  intros Hd. unfold read_line.
  destruct (find_first_not_of trim_set line) as [first|]; [|by intros [= _ <-]].
  destruct (substr (Some first) None line) as [line1|]; [|done].
  rewrite bind_Returns.
  destruct (substr (Some 0%nat) _ line1) as [line2|]; [|done].
  rewrite bind_Returns.
  destruct line2 as [|ch t]; [by intros [= _ <-]|].
  case_decide.
  - destruct (find_char "]"%char (ch :: t)); [|by intros [= _ <-]].
    destruct (substr _ _ _); [|done]. rewrite bind_Returns. by intros [= _ <-].
  - destruct (find_char "="%char (ch :: t)) as [pos|]; [|by intros [= _ <-]].
    destruct (substr (Some 0%nat) (Some pos) (ch :: t)) as [key|]; [|done].
    rewrite bind_Returns.
    destruct (substr (Some (pos + 1)%nat) None (ch :: t)) as [value|]; [|done].
    rewrite bind_Returns.
    destruct (trim key) as [key'|]; [|done]. rewrite bind_Returns.
    destruct (trim value) as [value'|]; [|done]. rewrite bind_Returns.
    intros [= _ <-]. by apply no_empty_assign.
Qed.

Lemma no_empty_read_lines lines : ∀ cur d,
  no_empty_section d → no_empty_section (read_lines lines cur d).1.2.
Proof.
  induction lines as [|line lines IH]; intros cur d Hd; [done|].
  simpl. destruct (read_line line cur d) as [[cur' d']|w] eqn:Hl; [|done].
  apply IH. by eapply no_empty_read_line.
Qed.

(** Two stores without empty sections that hold the same entries are
    equal. *)
Lemma data_ext (d1 d2 : gmap string (gmap string string)) :
  no_empty_section d1 → no_empty_section d2 →
  (∀ f k, d1 !! f ≫= (.!! k) = d2 !! f ≫= (.!! k)) →
  d1 = d2.
Proof.
  intros H1 H2 Heq. apply map_eq. intros f.
  destruct (d1 !! f) as [s1|] eqn:Hs1, (d2 !! f) as [s2|] eqn:Hs2; [| | |done].
  - f_equal. apply map_eq. intros k. specialize (Heq f k).
    by rewrite Hs1, Hs2 in Heq.
  - destruct (map_choose s1 (H1 _ _ Hs1)) as (k & v & Hk).
    specialize (Heq f k). rewrite Hs1, Hs2 in Heq. simpl in Heq. congruence.
  - destruct (map_choose s2 (H2 _ _ Hs2)) as (k & v & Hk).
    specialize (Heq f k). rewrite Hs1, Hs2 in Heq. simpl in Heq. congruence.
Qed.

Lemma store_all_entries d :
  no_empty_section d → store_all (entries d) ∅ = d.
Proof.
  intros Hd. apply data_ext; [|done|].
  { apply no_empty_store_all. intros f sect Hf. by rewrite lookup_empty in Hf. }
  intros f k. destruct (d !! f ≫= (.!! k)) as [v|] eqn:Hv.
  - assert (∀ v', (f, k, v') ∈ entries d → d !! f ≫= (.!! k) = Some v') as Hfun.
    { intros v' (sect & Hf & Hk)%elem_of_entries. by rewrite Hf. }
    apply store_all_elem.
    + apply elem_of_entries. destruct (d !! f) as [sect|]; [|done]. by exists sect.
    + intros v' Hv'. apply Hfun in Hv'. congruence.
  - rewrite store_all_other; [by rewrite lookup_empty|].
    intros ([[f0 k0] v0] & [= <- <-] & (sect & Hf & Hk)%elem_of_entries)%list_elem_of_fmap.
    rewrite Hf in Hv. simpl in Hv. congruence.
Qed.

(** A store that [saveConfig] writes in a form [loadConfig] reads back:
    no section is empty; no name, key or value holds a line feed; section
    names hold no closing bracket; keys hold no equals sign and do not
    start with an opening bracket; keys and values are not empty and
    neither start nor end with a blank, a tab or a carriage return. *)
Definition storable (d : gmap string (gmap string string)) : Prop :=
  map_Forall (λ f sect,
    clean_name f ∧ sect ≠ ∅
    ∧ map_Forall (λ k v, clean_key k ∧ clean_value v) sect) d.

Lemma storable_sections d : storable d → Forall clean_section (in_order d).
Proof.
  intros Hd. apply Forall_forall. intros [f sect] Hin%elem_of_in_order.
  destruct (Hd f sect Hin) as (Hname & _ & Hsect). split; [done|].
  apply Forall_forall. intros [k v] Hkv%elem_of_in_order. exact (Hsect k v Hkv).
Qed.

Lemma storable_no_empty d : storable d → no_empty_section d.
Proof. intros Hd f sect Hf. by destruct (Hd f sect Hf) as (_ & ? & _). Qed.

Lemma read_saved_lines d :
  storable d → ∃ cur, read_lines (saved_lines d) "" ∅ = (cur, d, None).
Proof.
  intros Hd.
  destruct (read_lines_sections (in_order d) (storable_sections d Hd) "" ∅)
    as (cur & Hrun).
  exists cur. unfold saved_lines. rewrite Hrun.
  change (store_all _ ∅) with (store_all (entries d) ∅).
  by rewrite (store_all_entries d (storable_no_empty d Hd)).
Qed.

Lemma clean_line_no_newline (k v : string) :
  newline ∉ chars k → newline ∉ chars v → newline ∉ entry_line (k, v).
Proof.
  intros Hk Hv. unfold entry_line. simpl.
  rewrite elem_of_app, elem_of_cons. intros [?|[?|?]]; done.
Qed.

Lemma saved_lines_no_newline d :
  storable d → Forall (λ l, newline ∉ l) (saved_lines d).
Proof.
  intros Hd. apply Forall_forall. intros l.
  unfold saved_lines. rewrite list_elem_of_bind.
  intros ([f sect] & Hl & Hin%elem_of_in_order).
  destruct (Hd f sect Hin) as ([Hname _] & _ & Hsect).
  unfold section_lines in Hl. simpl in Hl.
  rewrite elem_of_cons, elem_of_app, list_elem_of_fmap, list_elem_of_singleton in Hl.
  destruct Hl as [->|[([k v] & -> & Hkv%elem_of_in_order)| ->]].
  - rewrite elem_of_cons, elem_of_app, list_elem_of_singleton.
    intros [?|[?|?]]; done.
  - destruct (Hsect k v Hkv) as [(_ & _ & Hk & _) (_ & _ & Hv)].
    by apply clean_line_no_newline.
  - by intros ?%elem_of_nil.
Qed.

(** A line that throws ends the loop with an exception, at that line or
    before. *)
Lemma read_lines_throws lines line :
  line ∈ lines →
  (∀ cur d, ∃ w, read_line line cur d = Throws w) →
  ∀ cur d, ∃ cur' d' w, read_lines lines cur d = (cur', d', Some w).
Proof.
  intros Hin Hthrow. induction lines as [|l lines IH]; intros cur d.
  - by apply elem_of_nil in Hin.
  - simpl. destruct (read_line l cur d) as [[cur' d']|w] eqn:Hl; [|by eauto].
    apply elem_of_cons in Hin as [->|Hin].
    + destruct (Hthrow cur d) as [w Hw]. congruence.
    + by apply IH.
Qed.

(** Blank, tab and carriage return: the characters [loadConfig] strips,
    without the line feed. *)
Definition padding : list ascii := [" "; "009"; "013"]%char.

(** X17.  The outcome of a load.  After [loadConfig()] the store is loaded
    exactly when the last error is empty, and exactly when the file could
    be opened and read, no line threw and the stream did not go bad; the
    status is [FileNotFound] exactly when the file could not be opened; the
    file name is untouched, and no section is left empty.  When the file
    cannot be opened or read, [loadConfig()] leaves the entries as they
    are, but [reload()] has cleared them first: after such a [reload()]
    the store is empty and every [getConfig] throws for its section. *)
Theorem X17_load_outcome (input : Input) (c : FDS_ConfigManager) :
  (isLoaded (loadConfig input c) = true ↔ m_lastError (loadConfig input c) = "")
  ∧ (isLoaded (loadConfig input c) = true
     ↔ ∃ lines, input = Reads lines false
                ∧ (read_lines lines "" (m_configData c)).2 = None)
  ∧ (isFileNotFound (loadConfig input c) = true ↔ input = CannotOpen)
  ∧ m_fileName (loadConfig input c) = m_fileName c
  ∧ (no_empty_section (m_configData c) →
     no_empty_section (m_configData (loadConfig input c)))
  ∧ (input = CannotOpen ∨ input = CannotRead →
       m_configData (loadConfig input c) = m_configData c
       ∧ m_configData (reload input c) = ∅
       ∧ isLoaded (reload input c) = false
       ∧ ∀ f k,
           getConfig_bool f k (reload input c) = Throws ("Filter not found: " +:+ f)
           ∧ getConfig Z f k (reload input c) = Throws ("Filter not found: " +:+ f)
           ∧ getConfig string f k (reload input c)
             = Throws ("Filter not found: " +:+ f)).
Proof.
  split_and!.
  - destruct input as [| |lines bad]; simpl; [done|done|].
    destruct (read_lines lines "" (m_configData c)) as [[cur d] [w|]]; [done|].
    by destruct bad.
  - destruct input as [| |lines bad]; simpl.
    + split; [done|]. by intros (? & ? & _).
    + split; [done|]. by intros (? & ? & _).
    + destruct (read_lines lines "" (m_configData c)) as [[cur d] [w|]] eqn:Hr.
      * split; [done|]. intros (ls & [= <- _] & Hn). by rewrite Hr in Hn.
      * destruct bad; simpl.
        -- split; [done|]. by intros (? & ? & _).
        -- split; [|done]. intros _. exists lines. by rewrite Hr.
  - destruct input as [| |lines bad]; simpl; [done|done|].
    destruct (read_lines lines "" (m_configData c)) as [[cur d] [w|]]; [done|].
    by destruct bad.
  - destruct input as [| |lines bad]; simpl; [done|done|].
    destruct (read_lines lines "" (m_configData c)) as [[cur d] [w|]]; [done|].
    by destruct bad.
  - intros Hc. destruct input as [| |lines bad]; simpl; [done|done|].
    pose proof (no_empty_read_lines lines "" _ Hc) as Hd.
    destruct (read_lines lines "" (m_configData c)) as [[cur d] [w|]]; [done|].
    by destruct bad.
  - intros Hin.
    assert (m_configData (reload input c) = ∅) as He by (by destruct Hin as [-> | ->]).
    split_and!; [by destruct Hin as [-> | ->]|done|by destruct Hin as [-> | ->]|].
    intros f k. unfold getConfig_bool, getConfig. by rewrite He, lookup_empty.
Qed.

(** X18.  What [saveConfig()] writes, [loadConfig()] reads back.  For a
    store without empty sections whose names, keys and values survive
    stripping and splitting (no line feeds; no closing bracket in a section
    name; no equals sign in a key, which does not start with an opening
    bracket; keys and values not empty and without blank, tab or carriage
    return at either end), [saveConfig()] writes a text from which a
    [reload()], or the constructor of another manager, restores exactly the
    entries of the store, with status [Success] and no error; every
    [getConfig] then answers as on the store that was saved. *)
Theorem X18_save_then_load (c : FDS_ConfigManager) :
  storable (m_configData c) →
  ∃ text,
    saveConfig true c = Returns text
    ∧ (∀ c', m_configData (reload (Reads (getlines text) false) c') = m_configData c
             ∧ m_loadStatus (reload (Reads (getlines text) false) c') = Success
             ∧ m_lastError (reload (Reads (getlines text) false) c') = "")
    ∧ (∀ file,
         m_configData (FDS_ConfigManager_new (Reads (getlines text) false) file)
         = m_configData c
         ∧ isLoaded (FDS_ConfigManager_new (Reads (getlines text) false) file) = true)
    ∧ (∀ c' f k,
         getConfig_bool f k (reload (Reads (getlines text) false) c')
         = getConfig_bool f k c)
    ∧ (∀ (U : Type) (HU : Streamed U) c' f k,
         getConfig U f k (reload (Reads (getlines text) false) c') = getConfig U f k c).
Proof.
  intros Hc. exists (unlines (saved_lines (m_configData c))).
  rewrite (getlines_unlines _ (saved_lines_no_newline _ Hc)).
  destruct (read_saved_lines _ Hc) as (cur & Hrun).
  assert (∀ c', m_configData (reload (Reads (saved_lines (m_configData c)) false) c')
                = m_configData c) as Hdata.
  { intros c'. unfold reload, loadConfig. simpl. by rewrite Hrun. }
  split_and!.
  - apply saveConfig_lines.
  - intros c'. split; [apply Hdata|].
    unfold reload, loadConfig. simpl. by rewrite Hrun.
  - intros file. unfold FDS_ConfigManager_new, loadConfig, isLoaded. simpl.
    by rewrite Hrun.
  - intros c' f k. unfold getConfig_bool. by rewrite Hdata.
  - intros U HU c' f k. unfold getConfig. by rewrite Hdata.
Qed.

(** X19.  An entry with an empty value breaks the next load.  When the
    store holds, under a clean key, a value that is empty or consists of
    blanks, tabs and carriage returns (as after
    [setConfig<std::string>(f, k, "")]), [saveConfig()] still writes the
    file, but reading it back fails whatever else is stored: stripping the
    value calls [substr(npos)], which throws, and [loadConfig()] ends with
    status [ReadError] and the message of that exception. *)
Theorem X19_blank_value_breaks_load (c c' : FDS_ConfigManager) (f k v : string) :
  stored f k c = Some v →
  clean_key k →
  Forall (λ ch, ch ∈ padding) (chars v) →
  ∃ text,
    saveConfig true c = Returns text
    ∧ m_loadStatus (reload (Reads (getlines text) false) c') = ReadError
    ∧ isLoaded (reload (Reads (getlines text) false) c') = false
    ∧ ∃ w, m_lastError (reload (Reads (getlines text) false) c')
           = "Exception while reading config file: " +:+ w.
Proof.
  intros Hst Hk Hv. exists (unlines (saved_lines (m_configData c))).
  split; [apply saveConfig_lines|].
  unfold stored in Hst. destruct (m_configData c !! f) as [sect|] eqn:Hf; [|done].
  simpl in Hst.
  assert (entry_line (k, v) ∈ saved_lines (m_configData c)) as Hin.
  { unfold saved_lines. apply list_elem_of_bind. exists (f, sect).
    split; [|by apply elem_of_in_order].
    unfold section_lines. simpl. right. apply elem_of_app. left.
    apply list_elem_of_fmap. exists (k, v). split; [done|].
    by apply elem_of_in_order. }
  assert (newline ∉ entry_line (k, v)) as Hnl.
  { apply clean_line_no_newline; [by destruct Hk as (_ & _ & ? & _)|].
    intros Hn. rewrite Forall_forall in Hv. specialize (Hv _ Hn).
    revert Hv. compute_done. }
  assert (Forall (λ ch, ch ∈ trim_set) (chars v)) as Hv'.
  { eapply Forall_impl; [exact Hv|]. intros ch Hch.
    unfold padding in Hch. unfold trim_set.
    rewrite !elem_of_cons in Hch. rewrite !elem_of_cons. tauto. }
  destruct (read_lines_throws _ _ (getlines_unlines_elem _ _ Hin Hnl)
              (λ cur d, read_line_blank_value k v cur d Hk Hv') "" ∅)
    as (cur' & d' & w & Hrun).
  unfold reload, loadConfig, isLoaded. simpl. rewrite Hrun. simpl.
  split_and!; [done|done|by exists w].
Qed.

Lemma storable_assign f k v d :
  storable d → clean_name f → clean_key k → clean_value v →
  storable (assign f k v d).
Proof.
  intros Hd Hf Hk Hv. unfold assign.
  apply map_Forall_insert_2; [|done].
  split_and!; [done|apply insert_non_empty|].
  apply map_Forall_insert_2; [done|].
  destruct (d !! f) as [sect|] eqn:Hs; simpl.
  - by destruct (Hd _ _ Hs) as (_ & _ & ?).
  - apply map_Forall_empty.
Qed.

Lemma digit_char_not_trim d : (0 ≤ d ≤ 9)%Z → digit_char d ∉ trim_set.
Proof.
  intros Hd. apply (digit_cases d (λ d, digit_char d ∉ trim_set)); [done|..];
    compute_done.
Qed.

Lemma clean_value_int (v : Z) : clean_value (str (put_int v)).
Proof.
  unfold clean_value. rewrite chars_str.
  assert (∃ sign ds, put_int v = sign ++ (digit_char <$> ds)
                     ∧ (sign = [] ∨ sign = ["-"%char])
                     ∧ ds ≠ [] ∧ Forall (λ d, 0 ≤ d ≤ 9)%Z ds)
    as (sign & ds & -> & Hsign & Hne & Hds).
  { unfold put_int. destruct (v <? 0)%Z eqn:Hneg.
    - apply Z.ltb_lt in Hneg.
      destruct (put_nat_spec (- v)%Z ltac:(lia)) as (ds & -> & Hne & Hds & _).
      exists ["-"%char], ds. split_and!; [done|by right|done|done].
    - apply Z.ltb_ge in Hneg.
      destruct (put_nat_spec v Hneg) as (ds & -> & Hne & Hds & _).
      exists [], ds. split_and!; [done|by left|done|done]. }
  split_and!.
  - destruct Hsign as [-> | ->]; [|compute_done].
    destruct ds as [|d ds]; [done|]. inversion Hds; subst. simpl.
    by apply digit_char_not_trim.
  - destruct ds as [|d ds _] using rev_ind; [done|].
    apply Forall_app in Hds as [_ Hd]. inversion Hd; subst.
    unfold ends_solid. rewrite fmap_app, (assoc_L (++)). simpl.
    rewrite last_snoc. by apply digit_char_not_trim.
  - rewrite elem_of_app, list_elem_of_fmap. intros [Hin|(d & Hd & Hin)].
    + destruct Hsign as [-> | ->]; [by apply elem_of_nil in Hin|].
      revert Hin. compute_done.
    + rewrite Forall_forall in Hds. apply (digit_char_not_trim d (Hds d Hin)).
      rewrite <- Hd. compute_done.
Qed.

(** X20.  Stores that can be saved and loaded again are easy to build:
    the empty store is one, and it stays one under [setConfig<bool>],
    under [setConfig<int>] with any value, and under
    [setConfig<std::string>] with a clean value, as long as section names
    and keys are clean.  Booleans and integers are always written in a
    form that [loadConfig()] reads back. *)
Theorem X20_storable_kept (c : FDS_ConfigManager) (f k : string) :
  storable (m_configData c) → clean_name f → clean_key k →
  storable ∅
  ∧ (∀ b, storable (m_configData (setConfig_bool f k b c)))
  ∧ (∀ v : Z, storable (m_configData (setConfig f k v c)))
  ∧ (∀ v : string, clean_value v → storable (m_configData (setConfig f k v c))).
Proof.
  intros Hc Hf Hk. split_and!.
  - apply map_Forall_empty.
  - intros b. apply storable_assign; [done|done|done|]. destruct b; compute_done.
  - intros v. apply storable_assign; [done|done|done|]. apply clean_value_int.
  - intros v Hv. apply storable_assign; [done|done|done|].
    simpl. by rewrite str_chars.
Qed.

End File.

(** *** A concrete store *)

(** A message for the exception of [substr]. *)
Definition substr_what (pos : option nat) (s : list ascii) : string :=
  "basic_string::substr".

(** A manager constructed on a missing file, with three entries set. *)
Definition sample : FDS_ConfigManager :=
  setConfig "video" "width" 1920%Z
    (setConfig "video" "title" ("Demo" : string)
       (setConfig_bool "audio" "mute" true
          (FDS_ConfigManager_new substr_what CannotOpen "settings.cfg"))).

Example sample_saved :
  str <$> (match saveConfig true sample with Returns t => Some t | Throws _ => None end)
  = Some "[audio]
mute=true

[video]
title=Demo
width=1920

".
Proof. vm_compute. reflexivity. Qed.

Lemma sample_storable : storable (m_configData sample).
Proof. compute_done. Qed.

(** The concrete run: the integer -42. *)
Lemma X15_int_values_witness :
  (INT_MIN ≤ -42 ≤ INT_MAX)%Z
  ∧ getConfig Z "video" "offset" (setConfig "video" "offset" (-42)%Z sample)
    = Returns (-42)%Z.
Proof.
  assert (INT_MIN ≤ -42 ≤ INT_MAX)%Z as H by (vm_compute; split; discriminate).
  split; [exact H|].
  exact (proj1 (X15_int_values sample "video" "offset" (-42)%Z H)).
Defined.

(** The concrete run: the sample store is written and read back. *)
Lemma X18_save_then_load_witness :
  storable (m_configData sample)
  ∧ ∃ text,
      saveConfig true sample = Returns text
      ∧ ∀ c', m_configData (reload substr_what (Reads (getlines text) false) c')
              = m_configData sample.
Proof.
  split; [exact sample_storable|].
  destruct (X18_save_then_load substr_what sample sample_storable)
    as (text & Hsave & Hload & _).
  exists text. split; [exact Hsave|]. intros c'. exact (proj1 (Hload c')).
Defined.

(** The concrete run: an empty device name is stored, saved and read. *)
Lemma X19_blank_value_breaks_load_witness :
  stored "audio" "device" (setConfig "audio" "device" ("" : string) sample) = Some ""
  ∧ clean_key "device"
  ∧ Forall (λ ch, ch ∈ padding) (chars "")
  ∧ ∃ text,
      saveConfig true (setConfig "audio" "device" ("" : string) sample) = Returns text
      ∧ m_loadStatus (reload substr_what (Reads (getlines text) false) sample)
        = ReadError.
Proof.
  assert (stored "audio" "device" (setConfig "audio" "device" ("" : string) sample)
          = Some "") as Hst by (vm_compute; reflexivity).
  assert (clean_key "device") as Hk by compute_done.
  assert (Forall (λ ch, ch ∈ padding) (chars "")) as Hv by constructor.
  split; [exact Hst|]. split; [exact Hk|]. split; [exact Hv|].
  destruct (X19_blank_value_breaks_load substr_what _ sample _ _ _ Hst Hk Hv)
    as (text & Hsave & Hstatus & _).
  exists text. split; [exact Hsave|exact Hstatus].
Defined.

(** The concrete run: one more integer for the sample store. *)
Lemma X20_storable_kept_witness :
  storable (m_configData sample)
  ∧ clean_name "video"
  ∧ clean_key "height"
  ∧ storable (m_configData (setConfig "video" "height" 1080%Z sample)).
Proof.
  assert (clean_name "video") as Hf by compute_done.
  assert (clean_key "height") as Hk by compute_done.
  split; [exact sample_storable|]. split; [exact Hf|]. split; [exact Hk|].
  exact (proj1 (proj2 (proj2 (X20_storable_kept sample "video" "height"
                                sample_storable Hf Hk))) 1080%Z).
Defined.


End Config.

(** ** The entity-component system, [FDS_EntityComSystem.h] *)

Module ECS.

(** *** The type registry *)

(** [constexpr std::size_t FDS_MAX_COM = 32]. *)
Definition FDS_MAX_COM : N := 32.

(** [std::size_t] arithmetic wraps at [2^64]. *)
Definition SIZE_MOD : N := 2 ^ 64.

(** [using FDS_ComID = std::size_t]. *)
Abbreviation FDS_ComID := N (only parsing).

(** A component type [T], the template argument of [getComTypeID<T>],
    [addComponent<T>], [hasComponent<T>] and [getComponent<T>]. *)
Abbreviation TypeTag := nat (only parsing).

(** The function-local statics: [lastID] of [getComTypeID()] and, for every
    instantiation [getComTypeID<T>], its [typeID] (absent until the first
    call initialises it). *)
Record Registry : Type := mkRegistry {
  lastID : N;
  typeID : gmap nat N
}.

(** The statics at program start. *)
Definition registry_init : Registry := {| lastID := 0; typeID := ∅ |}.

(** [inline FDS_ComID getComTypeID() { static FDS_ComID lastID = 0; return lastID++; }] *)
Definition getComTypeID (r : Registry) : N * Registry :=
  (lastID r, {| lastID := (lastID r + 1) mod SIZE_MOD; typeID := typeID r |}).

(** [template<typename T> getComTypeID() { static FDS_ComID typeID = getComTypeID(); return typeID; }]:
    the initialiser runs on the first call only. *)
Definition getComTypeID_T (T : nat) (r : Registry) : N * Registry :=
  match typeID r !! T with
  | Some id => (id, r)
  | None =>
    let '(id, r') := getComTypeID r in
    (id, {| lastID := lastID r'; typeID := <[T := id]> (typeID r') |})
  end.

(** A sequence of calls [getComTypeID<T1>(); getComTypeID<T2>(); ...]: the
    identifiers returned, and the statics afterwards. *)
Fixpoint calls (ts : list nat) (r : Registry) : list N * Registry :=
  match ts with
  | [] => ([], r)
  | T :: ts' =>
    let '(id, r1) := getComTypeID_T T r in
    let '(ids, r2) := calls ts' r1 in
    (id :: ids, r2)
  end.

(** The types of a call sequence in the order of their first use, starting
    from the types [seen] so far. *)
Fixpoint first_uses (seen ts : list nat) : list nat :=
  match ts with
  | [] => seen
  | T :: ts' =>
    if decide (T ∈ seen) then first_uses seen ts' else first_uses (seen ++ [T]) ts'
  end.

(** The identifier of the [k]-th registered type (counting from zero). *)
Definition nth_id (k : nat) : N := N.of_nat k mod SIZE_MOD.

(** The statics agree with the list [seen] of the types registered so far. *)
Definition reg_inv (seen : list nat) (r : Registry) : Prop :=
  NoDup seen
  ∧ lastID r = nth_id (length seen)
  ∧ ∀ T id, typeID r !! T = Some id ↔ ∃ k, seen !! k = Some T ∧ id = nth_id k.

Example calls_example :
  calls [7; 3; 7; 5; 3]%nat registry_init
  = ([0; 1; 0; 2; 1], {| lastID := 3; typeID := {[ 7%nat := 0; 3%nat := 1; 5%nat := 2 ]} |}).
Proof. vm_compute. reflexivity. Qed.

(** **** Properties of the registry *)

Lemma reg_inv_init : reg_inv [] registry_init.
Proof.
  split; [constructor|]. split; [done|].
  intros T id; simpl. rewrite lookup_empty. split; [done|].
  intros (k & Hk & _). by rewrite lookup_nil in Hk.
Qed.

Lemma first_uses_prefix ts : ∀ seen, seen `prefix_of` first_uses seen ts.
Proof.
  induction ts as [|T ts IH]; intros seen; simpl; [done|].
  case_decide; [apply IH|].
  etrans; [|apply IH]. by apply prefix_app_r.
Qed.

Lemma first_uses_elem ts : ∀ seen x, x ∈ first_uses seen ts ↔ x ∈ seen ∨ x ∈ ts.
Proof.
  induction ts as [|T ts IH]; intros seen x; simpl.
  - rewrite elem_of_nil. tauto.
  - case_decide as Hin; rewrite IH.
    + rewrite elem_of_cons. split; [tauto|]. intros [?|[->|?]]; tauto.
    + rewrite elem_of_app, list_elem_of_singleton, elem_of_cons. tauto.
Qed.

Lemma first_uses_NoDup ts : ∀ seen, NoDup seen → NoDup (first_uses seen ts).
Proof.
  induction ts as [|T ts IH]; intros seen Hnd; simpl; [done|].
  case_decide; [by apply IH|]. apply IH.
  apply NoDup_app. split_and!; [done| |apply NoDup_singleton].
  intros x Hx ->%list_elem_of_singleton. done.
Qed.

Lemma first_uses_length ts :
  length (first_uses [] ts) = size (list_to_set ts : gset nat).
Proof.
  rewrite <- (size_list_to_set (C := gset nat) (first_uses [] ts))
    by (apply first_uses_NoDup; constructor).
  f_equal. apply set_eq. intros x.
  rewrite !elem_of_list_to_set, first_uses_elem, elem_of_nil. tauto.
Qed.

Lemma first_uses_app ts1 ts2 : ∀ seen,
  first_uses seen (ts1 ++ ts2) = first_uses (first_uses seen ts1) ts2.
Proof.
  induction ts1 as [|T ts1 IH]; intros seen; simpl; [done|].
  case_decide; apply IH.
Qed.

Lemma first_uses_cons T ts seen :
  first_uses seen (T :: ts) = first_uses (first_uses seen [T]) ts.
Proof. apply (first_uses_app [T] ts seen). Qed.

(** One call [getComTypeID<T>()]. *)
Lemma getComTypeID_T_spec seen r T :
  reg_inv seen r →
  reg_inv (first_uses seen [T]) (getComTypeID_T T r).2
  ∧ ∃ k, first_uses seen [T] !! k = Some T
       ∧ (getComTypeID_T T r).1 = nth_id k
       ∧ (T ∉ seen → k = length seen ∧ nth_id k = lastID r).
Proof.
  intros (Hnd & Hlast & Hmap). unfold getComTypeID_T, getComTypeID. simpl.
  destruct (typeID r !! T) as [id|] eqn:HT.
  - destruct (proj1 (Hmap T id) HT) as (k & Hk & ->).
    assert (T ∈ seen) as Hin by (by apply list_elem_of_lookup; eauto).
    rewrite decide_True by done. simpl. split; [by split_and!|].
    exists k. split_and!; [done|done|]. intros Hn. by destruct Hn.
  - assert (T ∉ seen) as Hnin.
    { intros (k & Hk)%list_elem_of_lookup.
      by rewrite (proj2 (Hmap T (nth_id k)) (ex_intro _ k (conj Hk eq_refl))) in HT. }
    rewrite decide_False by done. simpl. split.
    + split_and!.
      * apply NoDup_app. split_and!; [done| |apply NoDup_singleton].
        intros x Hx ->%list_elem_of_singleton. done.
      * rewrite length_app. simpl. rewrite Hlast. unfold nth_id.
        rewrite Nat.add_1_r, Nat2N.inj_succ, <- N.add_1_r.
        rewrite N.Div0.add_mod_idemp_l. done.
      * intros T' id. simpl. destruct (decide (T' = T)) as [->|Hne].
        -- rewrite lookup_insert_eq. split.
           ++ intros [= <-]. exists (length seen).
              rewrite lookup_app_r, Nat.sub_diag by lia. by rewrite Hlast.
           ++ intros (k & Hk & ->). f_equal. rewrite Hlast. f_equal.
              destruct (decide (k < length seen)%nat) as [Hlt|Hge].
              ** rewrite lookup_app_l in Hk by done.
                 destruct Hnin. apply list_elem_of_lookup; eauto.
              ** apply lookup_lt_Some in Hk. rewrite length_app in Hk.
                 simpl in Hk. lia.
        -- rewrite lookup_insert_ne by done. rewrite Hmap. split.
           ++ intros (k & Hk & ->). exists k. split; [|done].
              by apply lookup_app_l_Some.
           ++ intros (k & Hk & ->). exists k. split; [|done].
              apply lookup_app_Some in Hk as [Hk|[_ Hk]]; [done|].
              apply list_lookup_singleton_Some in Hk as [_ ?]. congruence.
    + exists (length seen). rewrite lookup_app_r, Nat.sub_diag by lia.
      split_and!; [done|by rewrite Hlast|]. intros _. by rewrite Hlast.
Qed.

Lemma calls_cons T ts r :
  calls (T :: ts) r =
    ((getComTypeID_T T r).1 :: (calls ts (getComTypeID_T T r).2).1,
     (calls ts (getComTypeID_T T r).2).2).
Proof.
  simpl. destruct (getComTypeID_T T r) as [id r1]. simpl.
  by destruct (calls ts r1).
Qed.

(** A sequence of calls, started in statics that agree with [seen]. *)
Lemma calls_spec ts : ∀ seen r,
  reg_inv seen r →
  reg_inv (first_uses seen ts) (calls ts r).2
  ∧ length (calls ts r).1 = length ts
  ∧ ∀ i T, ts !! i = Some T →
      ∃ k, first_uses seen ts !! k = Some T
         ∧ (calls ts r).1 !! i = Some (nth_id k)
         ∧ (T ∉ seen → T ∉ take i ts →
              k = length (first_uses seen (take i ts))
              ∧ nth_id k = lastID (calls (take i ts) r).2).
Proof.
  induction ts as [|T0 ts IH]; intros seen r Hinv.
  - simpl. split_and!; [done|done|]. intros i T Hi. by rewrite lookup_nil in Hi.
  - rewrite calls_cons. simpl fst. simpl snd.
    destruct (getComTypeID_T_spec seen r T0 Hinv) as (Hinv1 & k0 & Hk0 & Hid0 & Hnew0).
    destruct (IH _ _ Hinv1) as (Hinv2 & Hlen & Hall).
    rewrite (first_uses_cons T0 ts).
    split_and!; [done|simpl; by rewrite Hlen|].
    intros [|i] T Hi; simpl in Hi.
    + injection Hi as <-. exists k0. split_and!.
      * eapply prefix_lookup_Some; [done|apply first_uses_prefix].
      * simpl. by rewrite Hid0.
      * intros Hn _. simpl. by apply Hnew0.
    + destruct (Hall i T Hi) as (k & Hk & Hid & Hnew).
      exists k. split_and!; [done|done|].
      intros Hn Hnt. simpl in Hnt. apply not_elem_of_cons in Hnt as [Hne Hnt].
      rewrite firstn_cons, calls_cons. simpl snd.
      rewrite (first_uses_cons T0 (take i ts)).
      apply Hnew; [|done].
      rewrite first_uses_elem, list_elem_of_singleton. intros [?|?]; [done|].
      by destruct (elem_of_nil T0); congruence.
Qed.

Lemma nth_id_small k : N.of_nat k < SIZE_MOD → nth_id k = N.of_nat k.
Proof. intros. unfold nth_id. by apply N.mod_small. Qed.

(** C1.  Along any sequence of calls [getComTypeID<T>()] from program start
    (with at most [2^64] distinct types, the range of [std::size_t]): two
    calls for the same type return the same identifier; calls for distinct
    types return distinct identifiers; and the first call for a type not seen
    before returns the current value of the one counter [lastID], which starts
    at zero and equals the number of distinct types registered so far, so the
    identifiers are handed out as 0, 1, 2, ... in first-use order. *)
Theorem C1_type_ids (ts : list nat) :
  N.of_nat (size (list_to_set ts : gset nat)) ≤ SIZE_MOD →
  length (calls ts registry_init).1 = length ts
  ∧ lastID registry_init = 0
  ∧ (∀ i j A B a b,
       ts !! i = Some A → ts !! j = Some B →
       (calls ts registry_init).1 !! i = Some a →
       (calls ts registry_init).1 !! j = Some b →
       (A = B → a = b) ∧ (A ≠ B → a ≠ b))
  ∧ (∀ i T,
       ts !! i = Some T → T ∉ take i ts →
       (calls ts registry_init).1 !! i
         = Some (N.of_nat (size (list_to_set (take i ts) : gset nat)))
       ∧ lastID (calls (take i ts) registry_init).2
         = N.of_nat (size (list_to_set (take i ts) : gset nat))).
Proof.
  intros Hbound.
  destruct (calls_spec ts [] registry_init reg_inv_init) as (Hinv & Hlen & Hall).
  rewrite <- first_uses_length in Hbound.
  assert (∀ k T, first_uses [] ts !! k = Some T → nth_id k = N.of_nat k) as Hsmall.
  { intros k T Hk%lookup_lt_Some. apply nth_id_small. lia. }
  split_and!; [done|done| |].
  - intros i j A B a b HA HB Ha Hb.
    destruct (Hall i A HA) as (ka & Hka & Hida & _).
    destruct (Hall j B HB) as (kb & Hkb & Hidb & _).
    rewrite Hida in Ha. rewrite Hidb in Hb.
    injection Ha as <-. injection Hb as <-.
    rewrite (Hsmall _ _ Hka), (Hsmall _ _ Hkb). split.
    + intros <-. f_equal.
      by apply (NoDup_lookup (first_uses [] ts) ka kb A (proj1 Hinv)).
    + intros Hne Heq. apply Nat2N.inj in Heq as <-. congruence.
  - intros i T Hi Hfresh.
    destruct (Hall i T Hi) as (k & Hk & Hid & Hnew).
    destruct (Hnew (not_elem_of_nil T) Hfresh) as [Hkl Hctr].
    rewrite Hid, <- Hctr, (Hsmall _ _ Hk), Hkl, first_uses_length. done.
Qed.

(** Five calls over three types. *)
Lemma C1_type_ids_witness :
  N.of_nat (size (list_to_set [7; 3; 7; 5; 3]%nat : gset nat)) ≤ SIZE_MOD
  ∧ length (calls [7; 3; 7; 5; 3]%nat registry_init).1 = 5%nat.
Proof.
  assert (N.of_nat (size (list_to_set [7; 3; 7; 5; 3]%nat : gset nat)) ≤ SIZE_MOD)
    as H by (vm_compute; discriminate).
  split; [exact H|]. exact (proj1 (C1_type_ids _ H)).
Defined.

(** *** Components, entities and the manager *)

(** The virtual member functions of [FDS_Component]: [init()], [update()],
    [draw()] and the destructor. *)
Inductive Hook : Type := Init | Update | Draw | Dtor.

(** What the system calls, in the order it calls it: a hook of a component,
    or [update()]/[draw()] of an entity (called by the manager). *)
Inductive Event : Type :=
  | HookCall (h : Hook) (c : nat)
  | EntityCall (h : Hook) (e : nat).

(** Undefined behaviour of the C++ program, by its cause. *)
Inductive fault : Type :=
  | OutOfBounds
  | NullDereference
  | DanglingPointer
  | InvalidIterator.

Inductive outcome (A : Type) : Type :=
  | Done (a : A)
  | Undefined (f : fault).
Arguments Done {A} a.
Arguments Undefined {A} f.

(** The number of slots of [FDS_ComBitSet] and [FDS_ComArray]. *)
Abbreviation capacity := (N.to_nat FDS_MAX_COM) (only parsing).

(** [class FDS_Entity]: its four data members.  [m_components] holds the
    addresses owned by the [unique_ptr]s of the vector (none is ever null:
    only [addComponent] writes to it); [m_comArray] is the array of 32 raw
    pointers, [None] for [nullptr]; [m_comBitSet] is the 32-bit set. *)
Record FDS_Entity : Type := mkEntity {
  m_isActive : bool;
  m_components : list nat;
  m_comArray : vec (option nat) capacity;
  m_comBitSet : N
}.

(** [FDS_Entity()]: the default member initialisers. *)
Definition Entity_new : FDS_Entity :=
  {| m_isActive := true;
     m_components := [];
     m_comArray := vreplicate capacity None;
     m_comBitSet := 0 |}.

(** [class FDS_EntityManager]: [m_entities] is a vector of
    [unique_ptr<FDS_Entity>]; [None] is a null (moved-from) pointer. *)
Record FDS_EntityManager : Type := mkManager {
  m_entities : list (option nat)
}.

(** An identifier as an index into the 32 slots, when it is one. *)
Definition slot_index (id : N) : option (fin capacity) :=
  match decide (N.to_nat id < capacity)%nat with
  | left Hlt => Some (nat_to_fin Hlt)
  | right _ => None
  end.

Section World.

(** The constructor arguments of a component, kept as its state. *)
Context {Args : Type}.

(** [class FDS_Component] and its subclasses: the back-reference [owner]
    ([None] for [nullptr]), the dynamic type, and the subclass's own data. *)
Record FDS_Component : Type := mkComponent {
  owner : option nat;
  dyn_type : nat;
  state : Args
}.

(** The program state: the statics of the registry, the heap of components,
    the heap of entities, and one manager. *)
Record World : Type := mkWorld {
  statics : Registry;
  coms : gmap nat FDS_Component;
  ents : gmap nat FDS_Entity;
  manager : FDS_EntityManager
}.

Definition set_statics (r : Registry) (w : World) : World :=
  {| statics := r; coms := coms w; ents := ents w; manager := manager w |}.
Definition set_coms (h : gmap nat FDS_Component) (w : World) : World :=
  {| statics := statics w; coms := h; ents := ents w; manager := manager w |}.
Definition set_ents (h : gmap nat FDS_Entity) (w : World) : World :=
  {| statics := statics w; coms := coms w; ents := h; manager := manager w |}.
Definition set_manager (m : FDS_EntityManager) (w : World) : World :=
  {| statics := statics w; coms := coms w; ents := ents w; manager := m |}.

(** The bodies of the virtual hooks: [body h c w] is the state after
    [c->init()], [c->update()], [c->draw()] or the destructor of [c] ran in
    state [w].  The bodies of [FDS_Component] itself are empty; subclasses
    are client code. *)
Variable body : Hook → nat → World → World.

(** The order in which a [std::vector] destroys elements, in its destructor
    and in [erase], which the standard leaves open: [order l] lists the
    elements [l] in the order of their destruction. *)
Variable order : ∀ A : Type, list A → list A.

(** A computation on the world: undefined behaviour, or a result, the new
    world and the calls made. *)
Definition M (A : Type) : Type := World → outcome (A * World * list Event).

Definition ret {A} (a : A) : M A := λ w, Done (a, w, []).

Definition fail {A} (f : fault) : M A := λ _, Undefined f.

Definition bind {A B} (m : M A) (k : A → M B) : M B := λ w,
  match m w with
  | Undefined f => Undefined f
  | Done (a, w1, t1) =>
    match k a w1 with
    | Undefined f => Undefined f
    | Done (b, w2, t2) => Done (b, w2, t1 ++ t2)
    end
  end.

Notation "'let*' x ':=' m 'in' k" := (bind m (λ x, k))
  (at level 10, x name, k at level 200).
Notation "m ';;' k" := (bind m (λ _, k))
  (at level 100, k at level 200, right associativity).

(** Applying [f] to the elements of [l] one after the other. *)
Fixpoint for_each {A} (l : list A) (f : A → M unit) : M unit :=
  match l with
  | [] => ret tt
  | x :: l' => f x ;; for_each l' f
  end.

(** The iterators of a running loop stay valid only while the vector is
    the one the loop started on. *)
Definition still_valid {A} `{EqDecision A} (read : M (list A)) (orig : list A) : M unit :=
  let* now := read in
  if decide (now = orig) then ret tt else fail InvalidIterator.

(** The range-based loop [for (auto& x : v) f(x);] over the vector that
    [read] reads, with [rest] still to visit: the begin and end iterators
    are taken once, so the loop visits the elements the vector has when it
    starts; a body that changes the vector invalidates them. *)
Fixpoint range_for_loop {A} `{EqDecision A} (read : M (list A)) (orig rest : list A)
    (f : A → M unit) : M unit :=
  match rest with
  | [] => ret tt
  | x :: rest' => f x ;; still_valid read orig ;; range_for_loop read orig rest' f
  end.

Definition range_for {A} `{EqDecision A} (read : M (list A)) (f : A → M unit) : M unit :=
  let* v := read in range_for_loop read v v f.

(** [getComTypeID<T>()] on the statics of the world. *)
Definition typeId (T : nat) : M N := λ w,
  Done ((getComTypeID_T T (statics w)).1,
        set_statics (getComTypeID_T T (statics w)).2 w, []).

(** Access to the members of the entity at address [e]. *)
Definition this (e : nat) : M FDS_Entity := λ w,
  match ents w !! e with
  | Some ent => Done (ent, w, [])
  | None => Undefined DanglingPointer
  end.

Definition store (e : nat) (ent : FDS_Entity) : M unit := λ w,
  Done (tt, set_ents (<[e := ent]> (ents w)) w, []).

(** A virtual call [c->init()], [c->update()] or [c->draw()], or the call
    of the virtual destructor of [c]. *)
Definition call (h : Hook) (c : nat) : M unit := λ w,
  Done (tt, body h c w, [HookCall h c]).

Definition log (ev : Event) : M unit := λ w, Done (tt, w, [ev]).

(** **** [FDS_Entity] *)

(** The vector [m_components] of the entity at [e]. *)
Definition components (e : nat) : M (list nat) :=
  let* ent := this e in ret (m_components ent).

(** [void update() { for (auto& c : m_components) c->update(); }] *)
Definition Entity_update (e : nat) : M unit :=
  range_for (components e) (call Update).

(** [void draw() { for (auto& c : m_components) c->draw(); }] *)
Definition Entity_draw (e : nat) : M unit :=
  range_for (components e) (call Draw).

(** [bool isActive() const noexcept { return m_isActive; }] *)
Definition isActive (e : nat) : M bool :=
  let* ent := this e in ret (m_isActive ent).

(** [void destroy() noexcept { m_isActive = false; }] *)
Definition destroy (e : nat) : M unit :=
  let* ent := this e in
  store e {| m_isActive := false;
             m_components := m_components ent;
             m_comArray := m_comArray ent;
             m_comBitSet := m_comBitSet ent |}.

(** [return m_comBitSet[getComTypeID<T>()];]: [operator[]] of [std::bitset]
    does not check its index. *)
Definition hasComponent (T : nat) (e : nat) : M bool :=
  let* id := typeId T in
  let* ent := this e in
  if decide (id < FDS_MAX_COM) then ret (N.testbit (m_comBitSet ent) id)
  else fail OutOfBounds.

(** [T* com(new T(std::forward<TArgs>(mArgs)...));] at a fresh address;
    [owner] is [nullptr] by its default member initialiser. *)
Definition new_component (T : nat) (args : Args) : M nat := λ w,
  let c := fresh (dom (coms w)) in
  Done (c, set_coms (<[c := {| owner := None; dyn_type := T; state := args |}]> (coms w)) w, []).

(** [com->owner = this;] *)
Definition set_owner (c e : nat) : M unit := λ w,
  match coms w !! c with
  | Some com =>
    Done (tt, set_coms (<[c := {| owner := Some e; dyn_type := dyn_type com;
                                  state := state com |}]> (coms w)) w, [])
  | None => Undefined DanglingPointer
  end.

(** [std::unique_ptr<FDS_Component> uPtr{ com }; m_components.emplace_back(std::move(uPtr));] *)
Definition emplace_back_component (e c : nat) : M unit :=
  let* ent := this e in
  store e {| m_isActive := m_isActive ent;
             m_components := m_components ent ++ [c];
             m_comArray := m_comArray ent;
             m_comBitSet := m_comBitSet ent |}.

(** [m_comArray[id] = com;]: [operator[]] of [std::array] does not check
    its index. *)
Definition comArray_store (e : nat) (id : N) (c : nat) : M unit :=
  let* ent := this e in
  match slot_index id with
  | Some i =>
    store e {| m_isActive := m_isActive ent;
               m_components := m_components ent;
               m_comArray := vinsert i (Some c) (m_comArray ent);
               m_comBitSet := m_comBitSet ent |}
  | None => fail OutOfBounds
  end.

(** [m_comBitSet[id] = true;] *)
Definition comBitSet_set (e : nat) (id : N) : M unit :=
  let* ent := this e in
  if decide (id < FDS_MAX_COM) then
    store e {| m_isActive := m_isActive ent;
               m_components := m_components ent;
               m_comArray := m_comArray ent;
               m_comBitSet := N.setbit (m_comBitSet ent) id |}
  else fail OutOfBounds.

(** [template<typename T, typename... TArgs> T& addComponent(TArgs&&... mArgs)],
    statement by statement. *)
Definition addComponent (T : nat) (args : Args) (e : nat) : M nat :=
  let* c := new_component T args in
  set_owner c e ;;
  emplace_back_component e c ;;
  (let* id := typeId T in comArray_store e id c) ;;
  (let* id := typeId T in comBitSet_set e id) ;;
  call Init c ;;
  ret c.

(** [auto ptr(m_comArray[getComTypeID<T>()]); return *static_cast<T*>(ptr);] *)
Definition getComponent (T : nat) (e : nat) : M nat :=
  let* id := typeId T in
  let* ent := this e in
  match vec_to_list (m_comArray ent) !! N.to_nat id with
  | None => fail OutOfBounds
  | Some None => fail NullDereference
  | Some (Some c) => ret c
  end.

(** **** [FDS_EntityManager] *)

(** [e->update()] through a [unique_ptr] of [m_entities]. *)
Definition through (h : Hook) (f : nat → M unit) (u : option nat) : M unit :=
  match u with
  | Some e => log (EntityCall h e) ;; f e
  | None => fail NullDereference
  end.

(** The vector [m_entities] of the manager. *)
Definition entities : M (list (option nat)) := λ w,
  Done (m_entities (manager w), w, []).

(** [void update() { for (auto& e : m_entities) e->update(); }] *)
Definition Manager_update : M unit :=
  range_for entities (through Update Entity_update).

(** [void draw() { for (auto& e : m_entities) e->draw(); }] *)
Definition Manager_draw : M unit :=
  range_for entities (through Draw Entity_draw).

(** [FDS_Entity* e = new FDS_Entity(); ... m_entities.emplace_back(std::move(uPtr)); return *e;] *)
Definition addEntity : M nat := λ w,
  let e := fresh (dom (ents w)) in
  Done (e,
        set_manager {| m_entities := m_entities (manager w) ++ [Some e] |}
          (set_ents (<[e := Entity_new]> (ents w)) w),
        []).

(** [delete c] on a component: its virtual destructor runs, then the
    storage is freed. *)
Definition delete_component (c : nat) : M unit :=
  call Dtor c ;;
  λ w, Done (tt, set_coms (delete c (coms w)) w, []).

(** [delete e] on an entity: its destructor destroys [m_components], whose
    [unique_ptr]s delete the components; then the storage is freed. *)
Definition delete_entity (e : nat) : M unit :=
  let* ent := this e in
  for_each (order nat (m_components ent)) delete_component ;;
  λ w, Done (tt, set_ents (delete e (ents w)) w, []).

(** The destructor (or [reset()]) of a [unique_ptr<FDS_Entity>]. *)
Definition release (u : option nat) : M unit :=
  match u with
  | Some e => delete_entity e
  | None => ret tt
  end.

(** The predicate of [refresh]:
    [[](const std::unique_ptr<FDS_Entity>& mEntity) { return !mEntity->isActive(); }] *)
Definition is_inactive (u : option nat) : M bool :=
  match u with
  | Some e => let* a := isActive e in ret (negb a)
  | None => fail NullDereference
  end.

(** [std::find_if(first, last, pred)] as an index into the vector: the
    first position from [i] on whose element satisfies the predicate, or
    the end. *)
Fixpoint find_if (v : list (option nat)) (i : nat) : M nat :=
  match v with
  | [] => ret i
  | u :: v' =>
    let* b := is_inactive u in
    if b then ret i else find_if v' (S i)
  end.

(** The move assignment [*first = std::move( *i )] on [unique_ptr]s: position [i] becomes null,
    position [first] takes its pointer, and what [first] owned is deleted. *)
Definition move_assign (first i : nat) (v : list (option nat)) : M (list (option nat)) :=
  match v !! first, v !! i with
  | Some old, Some src => release old ;; ret (<[first := src]> (<[i := None]> v))
  | _, _ => fail OutOfBounds
  end.

(** The loop of [std::remove_if],
    [for (i = first; ++i != last;) if (!pred( *i )) *first++ = std::move( *i );],
    with [n] iterations left. *)
Fixpoint remove_if_loop (n i first : nat) (v : list (option nat))
    : M (nat * list (option nat)) :=
  match n with
  | O => ret (first, v)
  | S n' =>
    match v !! i with
    | None => fail OutOfBounds
    | Some u =>
      let* b := is_inactive u in
      if b then remove_if_loop n' (S i) first v
      else let* v' := move_assign first i v in remove_if_loop n' (S i) (S first) v'
    end
  end.

(** [std::remove_if(begin, end, pred)]: the new logical end and the vector. *)
Definition remove_if (v : list (option nat)) : M (nat * list (option nat)) :=
  let* first := find_if v 0 in
  if decide (first = length v) then ret (first, v)
  else remove_if_loop (length v - S first) (S first) first v.

(** [v.erase(pos, v.end())]: the elements from [pos] on are destroyed. *)
Definition erase_to_end (pos : nat) (v : list (option nat)) : M (list (option nat)) :=
  for_each (order (option nat) (drop pos v)) release ;; ret (take pos v).

(** [void refresh() { m_entities.erase(std::remove_if(begin, end, pred), end); }] *)
Definition refresh : M unit := λ w,
  (let* r := remove_if (m_entities (manager w)) in
   let* v := erase_to_end r.1 r.2 in
   λ w', Done (tt, set_manager {| m_entities := v |} w', [])) w.

End World.

Arguments FDS_Component : clear implicits.
Arguments World : clear implicits.
Arguments M : clear implicits.

(** The world at program start: nothing allocated, an empty manager. *)
Definition world_init {Args} : World Args :=
  {| statics := registry_init; coms := ∅; ents := ∅;
     manager := {| m_entities := [] |} |}.

(** The hooks of [FDS_Component] itself: [virtual void init() {}] and so on. *)
Definition default_body {Args} (h : Hook) (c : nat) (w : World Args) : World Args := w.

(** Running a computation for its world and for its calls. *)
Definition world_of {Args A} (o : outcome (A * World Args * list Event)) : option (World Args) :=
  match o with Done (_, w, _) => Some w | Undefined _ => None end.
Definition calls_of {Args A} (o : outcome (A * World Args * list Event)) : option (list Event) :=
  match o with Done (_, _, t) => Some t | Undefined _ => None end.

(** *** Properties of entities *)

Lemma slot_index_Some id :
  id < FDS_MAX_COM → ∃ i, slot_index id = Some i ∧ fin_to_nat i = N.to_nat id.
Proof.
  intros Hlt. unfold slot_index.
  destruct (decide (N.to_nat id < capacity)%nat) as [H|H].
  - eexists. split; [done|]. apply fin_to_nat_to_fin.
  - destruct H. unfold FDS_MAX_COM in *. lia.
Qed.

Lemma slot_index_None id : ¬ id < FDS_MAX_COM → slot_index id = None.
Proof.
  intros Hge. unfold slot_index.
  destruct (decide (N.to_nat id < capacity)%nat) as [H|H]; [|done].
  destruct Hge. unfold FDS_MAX_COM in *. lia.
Qed.

Lemma getComTypeID_T_lookup T r :
  typeID (getComTypeID_T T r).2 !! T = Some (getComTypeID_T T r).1.
Proof.
  unfold getComTypeID_T, getComTypeID.
  destruct (typeID r !! T) as [id|] eqn:HT; simpl; [done|].
  apply lookup_insert_eq.
Qed.

Lemma getComTypeID_T_known T r id :
  typeID r !! T = Some id → getComTypeID_T T r = (id, r).
Proof. intros HT. unfold getComTypeID_T. by rewrite HT. Qed.

Lemma getComTypeID_T_again T r :
  getComTypeID_T T (getComTypeID_T T r).2
  = ((getComTypeID_T T r).1, (getComTypeID_T T r).2).
Proof. apply getComTypeID_T_known, getComTypeID_T_lookup. Qed.

Section Entities.

Context {Args : Type}.
Variable body : Hook → nat → World Args → World Args.

(** The order of destruction of the elements of a vector holds each
    element once. *)
Variable order : ∀ A : Type, list A → list A.
Hypothesis order_permutation : ∀ (A : Type) (l : list A), order A l ≡ₚ l.

Implicit Types (w : World Args) (ent : FDS_Entity) (e c T : nat).

Lemma set_statics_same w : set_statics (statics w) w = w.
Proof. by destruct w. Qed.

Lemma typeId_known T w id :
  typeID (statics w) !! T = Some id → typeId T w = Done (id, w, []).
Proof.
  intros HT. unfold typeId. rewrite (getComTypeID_T_known _ _ _ HT). simpl.
  by rewrite set_statics_same.
Qed.

(** [destroy] step by step. *)
Lemma destroy_run w e ent :
  ents w !! e = Some ent →
  destroy e w =
    Done (tt,
          set_ents (<[e := {| m_isActive := false;
                              m_components := m_components ent;
                              m_comArray := m_comArray ent;
                              m_comBitSet := m_comBitSet ent |}]> (ents w)) w,
          []).
Proof. intros He. unfold destroy, bind, this, store. by rewrite He. Qed.

Lemma isActive_run w e ent :
  ents w !! e = Some ent → isActive e w = Done (m_isActive ent, w, []).
Proof. intros He. unfold isActive, bind, this, ret. by rewrite He. Qed.

(** C6.  [destroy()] on a live entity sets its active flag to false, so
    [isActive()] returns false afterwards; a second [destroy()] leaves the
    state as the first one left it; and nothing else changes: the entity's
    owned sequence, lookup table and bitset, every other entity, the
    components, the registry and the manager are as before.  No hook is
    called. *)
Theorem C6_destroy w e ent :
  ents w !! e = Some ent →
  ∃ w' ent',
    destroy e w = Done (tt, w', [])
    ∧ isActive e w' = Done (false, w', [])
    ∧ destroy e w' = Done (tt, w', [])
    ∧ ents w' !! e = Some ent'
    ∧ m_isActive ent' = false
    ∧ m_components ent' = m_components ent
    ∧ m_comArray ent' = m_comArray ent
    ∧ m_comBitSet ent' = m_comBitSet ent
    ∧ (∀ e', e' ≠ e → ents w' !! e' = ents w !! e')
    ∧ coms w' = coms w
    ∧ statics w' = statics w
    ∧ manager w' = manager w.
Proof.
  intros He. eexists _, _. split; [by apply destroy_run|].
  assert (∀ x, ents (set_ents (<[e := x]> (ents w)) w) !! e = Some x) as Hl.
  { intros x. simpl. apply lookup_insert_eq. }
  split_and!.
  - by rewrite (isActive_run _ _ _ (Hl _)).
  - rewrite (destroy_run _ _ _ (Hl _)). simpl.
    unfold set_ents; simpl. by rewrite insert_insert_eq.
  - apply Hl.
  - done.
  - done.
  - done.
  - done.
  - intros e' Hne. simpl. by rewrite lookup_insert_ne.
  - done.
  - done.
  - done.
Qed.

(** The state in which [addComponent<T>(args)] on entity [e] calls
    [init()]: the statements before the call have run on [w], where [e] was
    [ent] and [i] is the slot of [T]. *)
Definition before_init T (args : Args) e ent (i : fin capacity) w : World Args :=
  {| statics := (getComTypeID_T T (statics w)).2;
     coms := <[fresh (dom (coms w)) :=
                 {| owner := Some e; dyn_type := T; state := args |}]> (coms w);
     ents := <[e := {| m_isActive := m_isActive ent;
                       m_components := m_components ent ++ [fresh (dom (coms w))];
                       m_comArray := vinsert i (Some (fresh (dom (coms w)))) (m_comArray ent);
                       m_comBitSet :=
                         N.setbit (m_comBitSet ent) (getComTypeID_T T (statics w)).1 |}]>
               (ents w);
     manager := manager w |}.

(** Component [c] of type [T] is attached to entity [e] and discoverable:
    [T] has an identifier within capacity, the bit and the slot of [e] under
    it are set to [c], [c] is alive, owned by [e], and points back to [e]. *)
Definition attached T e c w : Prop :=
  ∃ id ent com,
    typeID (statics w) !! T = Some id
    ∧ id < FDS_MAX_COM
    ∧ ents w !! e = Some ent
    ∧ N.testbit (m_comBitSet ent) id = true
    ∧ vec_to_list (m_comArray ent) !! N.to_nat id = Some (Some c)
    ∧ c ∈ m_components ent
    ∧ coms w !! c = Some com
    ∧ owner com = Some e.

Lemma fresh_component w : coms w !! fresh (dom (coms w)) = None.
Proof. apply not_elem_of_dom, is_fresh. Qed.

Lemma addComponent_run w T args e ent i :
  ents w !! e = Some ent →
  slot_index (getComTypeID_T T (statics w)).1 = Some i →
  addComponent body T args e w =
    Done (fresh (dom (coms w)),
          body Init (fresh (dom (coms w))) (before_init T args e ent i w),
          [HookCall Init (fresh (dom (coms w)))]).
Proof.
  intros He Hi.
  assert ((getComTypeID_T T (statics w)).1 < FDS_MAX_COM) as Hlt.
  { destruct (decide ((getComTypeID_T T (statics w)).1 < FDS_MAX_COM)) as [|Hn]; [done|].
    by rewrite (slot_index_None _ Hn) in Hi. }
  unfold addComponent, bind, new_component, set_owner, emplace_back_component,
    comArray_store, comBitSet_set, typeId, this, store, call, ret, bind.
  simpl. rewrite lookup_insert_eq. simpl. rewrite He. simpl.
  rewrite lookup_insert_eq. rewrite Hi. simpl.
  rewrite getComTypeID_T_again. simpl. rewrite lookup_insert_eq.
  rewrite (decide_True _ _ Hlt). simpl.
  unfold before_init, set_coms, set_ents, set_statics. simpl.
  by rewrite !insert_insert_eq.
Qed.

Lemma before_init_attached w T args e ent i :
  ents w !! e = Some ent →
  slot_index (getComTypeID_T T (statics w)).1 = Some i →
  fin_to_nat i = N.to_nat (getComTypeID_T T (statics w)).1 →
  (getComTypeID_T T (statics w)).1 < FDS_MAX_COM →
  attached T e (fresh (dom (coms w))) (before_init T args e ent i w).
Proof.
  intros He Hi Hfin Hlt. eexists _, _, _. split_and!.
  - apply getComTypeID_T_lookup.
  - done.
  - simpl. apply lookup_insert_eq.
  - simpl. apply N.setbit_eq.
  - simpl. rewrite vec_to_list_insert, <- Hfin.
    apply list_lookup_insert_eq. rewrite length_vec_to_list. apply fin_to_nat_lt.
  - simpl. apply elem_of_app. right. by apply list_elem_of_singleton.
  - simpl. apply lookup_insert_eq.
  - done.
Qed.

(** On a state where [c] is attached to [e] under [T], the queries find it
    and change nothing. *)
Lemma attached_queries w T e c :
  attached T e c w →
  hasComponent T e w = Done (true, w, [])
  ∧ getComponent T e w = Done (c, w, [])
  ∧ owner <$> coms w !! c = Some (Some e).
Proof.
  intros (id & ent & com & HT & Hlt & He & Hbit & Hslot & _ & Hc & Hown).
  unfold hasComponent, getComponent, bind.
  rewrite (typeId_known _ _ _ HT). unfold this. rewrite He.
  rewrite (decide_True _ _ Hlt), Hslot, Hbit. unfold ret. simpl.
  split_and!; [done|done|]. by rewrite Hc, <- Hown.
Qed.

(** The statements of [addComponent<T>(args)] one by one, with what each
    leaves behind: the construction (owner still null, entity untouched),
    the assignment of the owner (entity still untouched), the append to the
    owned sequence (table and bitset still as before), the store into the
    table (bitset still as before), the bit, and then the call of
    [init()]. *)
Lemma addComponent_steps w T args e ent i :
  ents w !! e = Some ent →
  slot_index (getComTypeID_T T (statics w)).1 = Some i →
  ∃ wa wb wc wd,
    new_component T args w = Done (fresh (dom (coms w)), wa, [])
    ∧ coms wa !! fresh (dom (coms w))
      = Some {| owner := None; dyn_type := T; state := args |}
    ∧ ents wa = ents w
    ∧ set_owner (fresh (dom (coms w))) e wa = Done (tt, wb, [])
    ∧ coms wb !! fresh (dom (coms w))
      = Some {| owner := Some e; dyn_type := T; state := args |}
    ∧ ents wb = ents w
    ∧ emplace_back_component e (fresh (dom (coms w))) wb = Done (tt, wc, [])
    ∧ ents wc !! e
      = Some {| m_isActive := m_isActive ent;
                m_components := m_components ent ++ [fresh (dom (coms w))];
                m_comArray := m_comArray ent;
                m_comBitSet := m_comBitSet ent |}
    ∧ bind (typeId T) (λ id, comArray_store e id (fresh (dom (coms w)))) wc
      = Done (tt, wd, [])
    ∧ ents wd !! e
      = Some {| m_isActive := m_isActive ent;
                m_components := m_components ent ++ [fresh (dom (coms w))];
                m_comArray := vinsert i (Some (fresh (dom (coms w)))) (m_comArray ent);
                m_comBitSet := m_comBitSet ent |}
    ∧ bind (typeId T) (λ id, comBitSet_set e id) wd
      = Done (tt, before_init T args e ent i w, [])
    ∧ call body Init (fresh (dom (coms w))) (before_init T args e ent i w)
      = Done (tt, body Init (fresh (dom (coms w))) (before_init T args e ent i w),
              [HookCall Init (fresh (dom (coms w)))]).
Proof.
  intros He Hi.
  assert ((getComTypeID_T T (statics w)).1 < FDS_MAX_COM) as Hlt.
  { destruct (decide ((getComTypeID_T T (statics w)).1 < FDS_MAX_COM)) as [|Hn]; [done|].
    by rewrite (slot_index_None _ Hn) in Hi. }
  eexists _, _, _, _. split_and!.
  - reflexivity.
  - simpl. apply lookup_insert_eq.
  - done.
  - unfold set_owner. simpl. rewrite lookup_insert_eq. simpl. reflexivity.
  - simpl. rewrite insert_insert_eq. apply lookup_insert_eq.
  - done.
  - unfold emplace_back_component, bind, this, store. simpl. rewrite He. reflexivity.
  - simpl. apply lookup_insert_eq.
  - unfold bind, typeId, comArray_store, bind, this, store. simpl.
    rewrite lookup_insert_eq, Hi. simpl. reflexivity.
  - simpl. rewrite insert_insert_eq. apply lookup_insert_eq.
  - unfold bind, typeId, comBitSet_set, bind, this, store. simpl.
    rewrite getComTypeID_T_again. simpl. rewrite lookup_insert_eq.
    rewrite (decide_True _ _ Hlt). simpl.
    unfold before_init, set_ents, set_statics. simpl.
    by rewrite !insert_insert_eq.
  - reflexivity.
Qed.

(** C2.  [addComponent<T>(args)] on a live entity [e], for a type within
    capacity, runs these steps in this order: it constructs the component
    from [args] at a fresh address (owner still null), sets its owner to
    [e], appends it at the end of the owned sequence of [e], stores it in
    the lookup table and then sets the bit under the identifier of [T], and
    only then calls [init()] on it, the one hook it calls; so the state in
    which [init()] runs has the owner set and the component recorded.  Afterwards (for an [init()] that leaves the
    attachment alone) [hasComponent<T>()] is true and [getComponent<T>()]
    returns that component, whose owner is [e]. *)
Theorem C2_addComponent w T args e ent :
  ents w !! e = Some ent →
  (getComTypeID_T T (statics w)).1 < FDS_MAX_COM →
  (∀ c w0, attached T e c w0 → attached T e c (body Init c w0)) →
  ∃ c w0 ent0,
    coms w !! c = None
    ∧ addComponent body T args e w = Done (c, body Init c w0, [HookCall Init c])
    ∧ coms w0 !! c = Some {| owner := Some e; dyn_type := T; state := args |}
    ∧ ents w0 !! e = Some ent0
    ∧ m_components ent0 = m_components ent ++ [c]
    ∧ typeID (statics w0) !! T = Some (getComTypeID_T T (statics w)).1
    ∧ vec_to_list (m_comArray ent0) !! N.to_nat (getComTypeID_T T (statics w)).1
      = Some (Some c)
    ∧ N.testbit (m_comBitSet ent0) (getComTypeID_T T (statics w)).1 = true
    ∧ hasComponent T e (body Init c w0) = Done (true, body Init c w0, [])
    ∧ getComponent T e (body Init c w0) = Done (c, body Init c w0, [])
    ∧ owner <$> coms (body Init c w0) !! c = Some (Some e)
    ∧ (∃ wa wb wc wd entc entd,
         new_component T args w = Done (c, wa, [])
         ∧ owner <$> coms wa !! c = Some None
         ∧ set_owner c e wa = Done (tt, wb, [])
         ∧ owner <$> coms wb !! c = Some (Some e)
         ∧ ents wb = ents w
         ∧ emplace_back_component e c wb = Done (tt, wc, [])
         ∧ ents wc !! e = Some entc
         ∧ m_components entc = m_components ent ++ [c]
         ∧ m_comArray entc = m_comArray ent
         ∧ m_comBitSet entc = m_comBitSet ent
         ∧ bind (typeId T) (λ id, comArray_store e id c) wc = Done (tt, wd, [])
         ∧ ents wd !! e = Some entd
         ∧ vec_to_list (m_comArray entd) !! N.to_nat (getComTypeID_T T (statics w)).1
           = Some (Some c)
         ∧ m_comBitSet entd = m_comBitSet ent
         ∧ bind (typeId T) (λ id, comBitSet_set e id) wd = Done (tt, w0, [])
         ∧ call body Init c w0 = Done (tt, body Init c w0, [HookCall Init c])).
Proof.
  intros He Hlt Hframe.
  destruct (slot_index_Some _ Hlt) as (i & Hi & Hfin).
  pose proof (before_init_attached w T args e ent i He Hi Hfin Hlt) as Hatt.
  destruct (attached_queries _ _ _ _ (Hframe _ _ Hatt)) as (Hhas & Hget & Hown).
  destruct (addComponent_steps w T args e ent i He Hi)
    as (wa & wb & wc & wd & Hs1 & Ha & _ & Hs2 & Hb & Hbe & Hs3 & Hc & Hs4 & Hd & Hs5 & Hs6).
  exists (fresh (dom (coms w))), (before_init T args e ent i w). eexists.
  refine (conj _ (conj _ (conj _ (conj _ (conj _ (conj _ (conj _ (conj _
           (conj _ (conj _ (conj _ _))))))))))); cycle 11.
  { exists wa, wb, wc, wd. eexists _, _.
    split_and!; try done.
    - by rewrite Ha.
    - by rewrite Hb.
    - simpl. rewrite vec_to_list_insert, <- Hfin.
      apply list_lookup_insert_eq. rewrite length_vec_to_list. apply fin_to_nat_lt. }
  - apply fresh_component.
  - by apply addComponent_run.
  - simpl. apply lookup_insert_eq.
  - simpl. apply lookup_insert_eq.
  - done.
  - apply getComTypeID_T_lookup.
  - simpl. rewrite vec_to_list_insert, <- Hfin.
    apply list_lookup_insert_eq. rewrite length_vec_to_list. apply fin_to_nat_lt.
  - simpl. apply N.setbit_eq.
  - done.
  - done.
  - done.
Qed.

(** *** Dispatch *)

(** The components entity [e] owns in state [w], in the order of the vector. *)
Definition components_of w e : list nat :=
  match ents w !! e with
  | Some ent => m_components ent
  | None => []
  end.

(** The vectors of [w] are untouched in [w']: the manager has the same
    sequence of entities, and every entity of [w] is still alive and owns
    the same sequence of components. *)
Definition same_structure w w' : Prop :=
  m_entities (manager w') = m_entities (manager w)
  ∧ ∀ e ent, ents w !! e = Some ent →
      ∃ ent', ents w' !! e = Some ent' ∧ m_components ent' = m_components ent.

(** What a dispatch over the entities [es] calls, in order: each entity,
    followed by the hooks of its components. *)
Definition fan_out (h : Hook) w (es : list nat) : list Event :=
  concat ((λ e, EntityCall h e :: (HookCall h <$> components_of w e)) <$> es).

Lemma same_structure_refl w : same_structure w w.
Proof. split; [done|]. intros e ent He. by exists ent. Qed.

Lemma same_structure_trans w1 w2 w3 :
  same_structure w1 w2 → same_structure w2 w3 → same_structure w1 w3.
Proof.
  intros [Hm12 H12] [Hm23 H23]. split; [congruence|]. intros e ent He.
  destruct (H12 _ _ He) as (ent2 & He2 & Hc2).
  destruct (H23 _ _ He2) as (ent3 & He3 & Hc3).
  exists ent3. split; [done|]. congruence.
Qed.

Lemma same_structure_components w w' e :
  same_structure w w' → is_Some (ents w !! e) →
  components_of w' e = components_of w e ∧ is_Some (ents w' !! e).
Proof.
  intros [_ Hs] [ent He]. destruct (Hs _ _ He) as (ent' & He' & Hc).
  unfold components_of. rewrite He, He'. eauto.
Qed.

Lemma same_structure_foldl h (l : list nat) :
  (∀ c w, same_structure w (body h c w)) →
  ∀ w, same_structure w (foldl (λ w c, body h c w) w l).
Proof.
  intros Hh. induction l as [|c l IH]; intros w; simpl.
  - apply same_structure_refl.
  - eapply same_structure_trans; [apply Hh|apply IH].
Qed.

Lemma still_valid_components e (orig : list nat) w ent :
  ents w !! e = Some ent → m_components ent = orig →
  still_valid (components e) orig w = Done (tt, w, []).
Proof.
  intros He Hc. unfold still_valid, components, bind, this, ret. rewrite He.
  by rewrite decide_True.
Qed.

(** The loop of an entity over its components, for a hook that leaves the
    vectors alone: every element is called, front to back. *)
Lemma range_for_loop_call h e (orig : list nat) :
  (∀ c w, same_structure w (body h c w)) →
  ∀ (rest : list nat) w ent,
    ents w !! e = Some ent → m_components ent = orig →
    range_for_loop (components e) orig rest (call body h) w
    = Done (tt, foldl (λ w c, body h c w) w rest, HookCall h <$> rest).
Proof.
  intros Hh. induction rest as [|c rest IH]; intros w ent He Hc; [done|].
  destruct (proj2 (Hh c w) _ _ He) as (ent' & He' & Hc').
  change (range_for_loop (components e) orig (c :: rest) (call body h) w)
    with (bind (call body h c)
            (λ _, bind (still_valid (components e) orig)
                    (λ _, range_for_loop (components e) orig rest (call body h))) w).
  unfold bind at 1. unfold call at 1. unfold bind at 1.
  rewrite (still_valid_components e orig _ ent' He') by congruence.
  rewrite (IH _ ent' He') by congruence. done.
Qed.

Lemma Entity_update_run w e ent :
  (∀ c w, same_structure w (body Update c w)) →
  ents w !! e = Some ent →
  Entity_update body e w
  = Done (tt, foldl (λ w c, body Update c w) w (m_components ent),
          HookCall Update <$> m_components ent).
Proof.
  intros Hh He. unfold Entity_update, range_for. unfold bind at 1.
  unfold components at 1. unfold bind, this, ret. rewrite He.
  by rewrite (range_for_loop_call Update e _ Hh _ w ent He eq_refl).
Qed.

Lemma Entity_draw_run w e ent :
  (∀ c w, same_structure w (body Draw c w)) →
  ents w !! e = Some ent →
  Entity_draw body e w
  = Done (tt, foldl (λ w c, body Draw c w) w (m_components ent),
          HookCall Draw <$> m_components ent).
Proof.
  intros Hh He. unfold Entity_draw, range_for. unfold bind at 1.
  unfold components at 1. unfold bind, this, ret. rewrite He.
  by rewrite (range_for_loop_call Draw e _ Hh _ w ent He eq_refl).
Qed.

(** A hook body that destroys nothing: every component stays alive, every
    entity stays alive and keeps the components it owns. *)
Definition keeps_components (f : World Args → World Args) : Prop :=
  ∀ w,
    (∀ c com, coms w !! c = Some com → is_Some (coms (f w) !! c))
    ∧ (∀ e ent, ents w !! e = Some ent →
         ∃ ent', ents (f w) !! e = Some ent' ∧ m_components ent ⊆ m_components ent').


(** The lookup table and the bitset of an entity agree: under every
    identifier within capacity, a set bit comes with a non-null slot that
    points to a component the entity owns, and a clear bit with a null slot. *)
Definition consistent ent : Prop :=
  ∀ id, id < FDS_MAX_COM →
    (N.testbit (m_comBitSet ent) id = true →
       ∃ c, vec_to_list (m_comArray ent) !! N.to_nat id = Some (Some c)
            ∧ c ∈ m_components ent)
    ∧ (N.testbit (m_comBitSet ent) id = false →
       vec_to_list (m_comArray ent) !! N.to_nat id = Some None).

Definition world_consistent w : Prop :=
  ∀ e ent, ents w !! e = Some ent → consistent ent.

Lemma Entity_new_slots id :
  id < FDS_MAX_COM →
  vec_to_list (m_comArray Entity_new) !! N.to_nat id = Some None
  ∧ N.testbit (m_comBitSet Entity_new) id = false.
Proof.
  intros Hlt. split; [|apply N.bits_0].
  change (m_comArray Entity_new) with (vreplicate capacity (None : option nat)).
  rewrite vec_to_list_replicate. apply lookup_replicate_2.
  unfold FDS_MAX_COM in *. lia.
Qed.

Lemma consistent_new : consistent Entity_new.
Proof.
  intros id Hlt. destruct (Entity_new_slots id Hlt) as [Hs Hb]. split.
  - rewrite Hb. done.
  - done.
Qed.

Lemma consistent_attach ent (i : fin capacity) id c :
  fin_to_nat i = N.to_nat id →
  consistent ent →
  consistent {| m_isActive := m_isActive ent;
                m_components := m_components ent ++ [c];
                m_comArray := vinsert i (Some c) (m_comArray ent);
                m_comBitSet := N.setbit (m_comBitSet ent) id |}.
Proof.
  intros Hfin Hcons id' Hlt'. simpl. rewrite vec_to_list_insert, Hfin.
  destruct (decide (id' = id)) as [->|Hne].
  - rewrite N.setbit_eq. split; [|done]. intros _. exists c. split.
    + apply list_lookup_insert_eq. rewrite length_vec_to_list, <- Hfin.
      apply fin_to_nat_lt.
    + apply elem_of_app. right. by apply list_elem_of_singleton.
  - rewrite N.setbit_neq by done.
    rewrite list_lookup_insert_ne by (intros Heq; apply Hne; lia).
    destruct (Hcons id' Hlt') as [Hset Hclear]. split; [|done].
    intros Hb. destruct (Hset Hb) as (c' & Hs & Hin). exists c'.
    split; [done|]. apply elem_of_app. by left.
Qed.

Lemma hasComponent_run w T e ent :
  ents w !! e = Some ent →
  (getComTypeID_T T (statics w)).1 < FDS_MAX_COM →
  hasComponent T e w
  = Done (N.testbit (m_comBitSet ent) (getComTypeID_T T (statics w)).1,
          set_statics (getComTypeID_T T (statics w)).2 w, []).
Proof.
  intros He Hlt. unfold hasComponent, bind, typeId, this. simpl.
  rewrite He. by rewrite (decide_True _ _ Hlt).
Qed.

Lemma getComponent_run w T e ent :
  ents w !! e = Some ent →
  getComponent T e w
  = match vec_to_list (m_comArray ent) !! N.to_nat (getComTypeID_T T (statics w)).1 with
    | None => Undefined OutOfBounds
    | Some None => Undefined NullDereference
    | Some (Some c) => Done (c, set_statics (getComTypeID_T T (statics w)).2 w, [])
    end.
Proof.
  intros He. unfold getComponent, bind, typeId, this. simpl. rewrite He.
  by destruct (vec_to_list (m_comArray ent) !! _) as [[c|]|].
Qed.

(** C7.  In a state whose entities have consistent tables and bitsets, for
    a live entity [e] and a type [T] within capacity: the bit of [T] is set
    exactly when the slot of [T] is non-null; when [hasComponent<T>()] is
    true the slot holds a component and [getComponent<T>()] returns it; when
    [hasComponent<T>()] is false the slot is null and [getComponent<T>()]
    dereferences a null pointer.  A fresh entity has every slot null and
    every bit clear, and [addComponent<T>] keeps every entity consistent
    (for hooks that do). *)
Theorem C7_table_bitset_consistent w T e ent :
  world_consistent w →
  ents w !! e = Some ent →
  (getComTypeID_T T (statics w)).1 < FDS_MAX_COM →
  (∀ c w0, world_consistent w0 → world_consistent (body Init c w0)) →
  (consistent Entity_new
   ∧ ∀ id, id < FDS_MAX_COM →
       vec_to_list (m_comArray Entity_new) !! N.to_nat id = Some None
       ∧ N.testbit (m_comBitSet Entity_new) id = false)
  ∧ (N.testbit (m_comBitSet ent) (getComTypeID_T T (statics w)).1 = true
     ↔ ∃ c, vec_to_list (m_comArray ent) !! N.to_nat (getComTypeID_T T (statics w)).1
            = Some (Some c))
  ∧ (∃ b w1, hasComponent T e w = Done (b, w1, []))
  ∧ (∀ w1, hasComponent T e w = Done (true, w1, []) →
       ∃ c, vec_to_list (m_comArray ent) !! N.to_nat (getComTypeID_T T (statics w)).1
            = Some (Some c)
            ∧ c ∈ m_components ent
            ∧ getComponent T e w = Done (c, w1, [])
            ∧ getComponent T e w1 = Done (c, w1, []))
  ∧ (∀ w1, hasComponent T e w = Done (false, w1, []) →
       vec_to_list (m_comArray ent) !! N.to_nat (getComTypeID_T T (statics w)).1
       = Some None
       ∧ getComponent T e w = Undefined NullDereference
       ∧ getComponent T e w1 = Undefined NullDereference)
  ∧ (∀ args, ∃ c w',
       addComponent body T args e w = Done (c, w', [HookCall Init c])
       ∧ world_consistent w').
Proof.
  intros Hw He Hlt Hhook.
  destruct (Hw e ent He _ Hlt) as [Hset Hclear].
  set (id := (getComTypeID_T T (statics w)).1) in *.
  set (w1 := set_statics (getComTypeID_T T (statics w)).2 w).
  assert (ents w1 !! e = Some ent) as He1 by done.
  assert (getComTypeID_T T (statics w1) = (id, statics w1)) as Hagain
    by apply getComTypeID_T_again.
  assert (set_statics (getComTypeID_T T (statics w1)).2 w1 = w1) as Hw1
    by (by rewrite Hagain).
  pose proof (hasComponent_run w T e ent He Hlt) as Hhas. fold id w1 in Hhas.
  pose proof (getComponent_run w T e ent He) as Hget. fold id w1 in Hget.
  pose proof (getComponent_run w1 T e ent He1) as Hget1.
  rewrite Hw1, Hagain in Hget1. simpl in Hget1.
  refine (conj _ (conj _ (conj _ (conj _ (conj _ _))))).
  - split; [apply consistent_new|]. intros id' Hlt'. by apply Entity_new_slots.
  - split.
    + intros Hb. destruct (Hset Hb) as (c & Hs & _). by exists c.
    + intros (c & Hs). destruct (N.testbit (m_comBitSet ent) id) eqn:Hb; [done|].
      rewrite (Hclear eq_refl) in Hs. done.
  - by eexists _, _.
  - intros w1' Heq. rewrite Hhas in Heq. injection Heq as Hb <-.
    destruct (Hset Hb) as (c & Hs & Hin). exists c.
    rewrite Hs in Hget, Hget1. done.
  - intros w1' Heq. rewrite Hhas in Heq. injection Heq as Hb <-.
    rewrite (Hclear Hb) in Hget, Hget1. by rewrite (Hclear Hb).
  - intros args. destruct (slot_index_Some _ Hlt) as (i & Hi & Hfin).
    eexists _, _. split; [by apply addComponent_run|].
    apply Hhook. intros e' ent'. simpl.
    destruct (decide (e' = e)) as [->|Hne].
    + rewrite lookup_insert_eq. intros [= <-].
      by apply consistent_attach; [|eapply Hw].
    + rewrite lookup_insert_ne by done. apply Hw.
Qed.

(** *** Properties of the manager *)

Lemma still_valid_entities (orig : list (option nat)) w :
  m_entities (manager w) = orig →
  still_valid entities orig w = Done (tt, w, []).
Proof.
  intros Hm. unfold still_valid, entities, bind, ret. by rewrite decide_True.
Qed.

(** The loop of the manager, for either hook. *)
Lemma range_for_loop_through h (f : nat → M Args unit) (orig : list (option nat)) :
  (∀ c w, same_structure w (body h c w)) →
  (∀ e w ent, ents w !! e = Some ent →
     f e w = Done (tt, foldl (λ w c, body h c w) w (m_components ent),
                   HookCall h <$> m_components ent)) →
  ∀ (es : list nat) w0 w,
    same_structure w0 w →
    m_entities (manager w0) = orig →
    (∀ e, e ∈ es → is_Some (ents w0 !! e)) →
    ∃ w', range_for_loop entities orig (Some <$> es) (through h f) w
          = Done (tt, w', fan_out h w0 es)
          ∧ same_structure w0 w'.
Proof.
  intros Hh Hf. induction es as [|e es IH]; intros w0 w Hs Hm Hlive.
  - simpl. by exists w.
  - destruct (same_structure_components w0 w e Hs) as [Hc [ent He]].
    { apply Hlive. by left. }
    assert (same_structure w0 (foldl (λ w c, body h c w) w (m_components ent))) as Hs2.
    { eapply same_structure_trans; [done|]. by apply same_structure_foldl. }
    destruct (IH w0 (foldl (λ w c, body h c w) w (m_components ent))) as (w' & Hrun & Hs').
    { done. }
    { done. }
    { intros e' He'. apply Hlive. by right. }
    assert (through h f (Some e) w
            = Done (tt, foldl (λ w c, body h c w) w (m_components ent),
                    EntityCall h e :: (HookCall h <$> m_components ent))) as Hthis.
    { unfold through, bind, log. by rewrite (Hf _ _ _ He). }
    rewrite fmap_cons.
    change (range_for_loop entities orig (Some e :: (Some <$> es)) (through h f) w)
      with (bind (through h f (Some e))
              (λ _, bind (still_valid entities orig)
                      (λ _, range_for_loop entities orig (Some <$> es) (through h f))) w).
    unfold bind at 1. rewrite Hthis. unfold bind at 1.
    rewrite still_valid_entities by (rewrite <- Hm; apply Hs2).
    rewrite Hrun. exists w'. split; [|done].
    unfold fan_out. rewrite fmap_cons. simpl concat.
    unfold components_of in Hc at 1. rewrite He in Hc.
    by rewrite Hc.
Qed.

Lemma addEntity_run w :
  addEntity w
  = Done (fresh (dom (ents w)),
          set_manager {| m_entities := m_entities (manager w) ++ [Some (fresh (dom (ents w)))] |}
            (set_ents (<[fresh (dom (ents w)) := Entity_new]> (ents w)) w),
          []).
Proof. done. Qed.

Lemma fresh_entity w : ents w !! fresh (dom (ents w)) = None.
Proof. apply not_elem_of_dom, is_fresh. Qed.

(** **** Dispatch, for hooks that keep the iterators valid *)

(** A hook keeps the iterator of the loop over the components of [e]
    valid: when it runs for a component of [e], the entity [e] stays alive
    and its vector stays as it is.  (It may do anything to other
    entities.) *)
Definition keeps_vector (h : Hook) e : Prop :=
  ∀ c w ent, ents w !! e = Some ent → c ∈ m_components ent →
    ∃ ent', ents (body h c w) !! e = Some ent'
            ∧ m_components ent' = m_components ent.

(** A hook keeps the iterator of the loop of the manager over the entities
    [es] valid: it leaves [m_entities] as it is and deletes none of [es]. *)
Definition keeps_manager (h : Hook) (es : list nat) : Prop :=
  ∀ c w, m_entities (manager (body h c w)) = m_entities (manager w)
         ∧ ∀ e, e ∈ es → is_Some (ents w !! e) → is_Some (ents (body h c w) !! e).

(** The world after the hooks [h] of the components [cs] ran, one after
    the other. *)
Definition run_hooks (h : Hook) (cs : list nat) w : World Args :=
  foldl (λ w c, body h c w) w cs.

(** The world and the calls of a dispatch over the entities [es]: each
    entity in turn, followed by the hooks of the components it owns when
    its turn comes. *)
Fixpoint dispatch (h : Hook) (es : list nat) w : World Args * list Event :=
  match es with
  | [] => (w, [])
  | e :: es' =>
    let r := dispatch h es' (run_hooks h (components_of w e) w) in
    (r.1, EntityCall h e :: (HookCall h <$> components_of w e) ++ r.2)
  end.

(** The entities called, in order. *)
Definition called_entities (t : list Event) : list nat :=
  omap (λ ev, match ev with EntityCall _ e => Some e | HookCall _ _ => None end) t.

Lemma range_for_loop_hooks h e (orig : list nat) :
  keeps_vector h e →
  ∀ (rest : list nat) w ent,
    ents w !! e = Some ent → m_components ent = orig →
    (∀ c, c ∈ rest → c ∈ orig) →
    range_for_loop (components e) orig rest (call body h) w
    = Done (tt, run_hooks h rest w, HookCall h <$> rest).
Proof.
  intros Hh. induction rest as [|c rest IH]; intros w ent He Hc Hsub; [done|].
  destruct (Hh c w ent He) as (ent' & He' & Hc').
  { rewrite Hc. apply Hsub. by left. }
  change (range_for_loop (components e) orig (c :: rest) (call body h) w)
    with (bind (call body h c)
            (λ _, bind (still_valid (components e) orig)
                    (λ _, range_for_loop (components e) orig rest (call body h))) w).
  unfold bind at 1. unfold call at 1. unfold bind at 1.
  rewrite (still_valid_components e orig _ ent' He') by congruence.
  rewrite (IH _ ent' He'); [done|congruence|].
  intros c' Hc''. apply Hsub. by right.
Qed.

Lemma Entity_update_hooks w e ent :
  keeps_vector Update e →
  ents w !! e = Some ent →
  Entity_update body e w
  = Done (tt, run_hooks Update (m_components ent) w,
          HookCall Update <$> m_components ent).
Proof.
  intros Hh He. unfold Entity_update, range_for. unfold bind at 1.
  unfold components at 1. unfold bind, this, ret. rewrite He.
  by rewrite (range_for_loop_hooks Update e _ Hh _ w ent He eq_refl).
Qed.

Lemma Entity_draw_hooks w e ent :
  keeps_vector Draw e →
  ents w !! e = Some ent →
  Entity_draw body e w
  = Done (tt, run_hooks Draw (m_components ent) w,
          HookCall Draw <$> m_components ent).
Proof.
  intros Hh He. unfold Entity_draw, range_for. unfold bind at 1.
  unfold components at 1. unfold bind, this, ret. rewrite He.
  by rewrite (range_for_loop_hooks Draw e _ Hh _ w ent He eq_refl).
Qed.

Lemma run_hooks_keeps_manager h (es : list nat) (cs : list nat) :
  keeps_manager h es →
  ∀ w, m_entities (manager (run_hooks h cs w)) = m_entities (manager w)
       ∧ ∀ e, e ∈ es → is_Some (ents w !! e) →
           is_Some (ents (run_hooks h cs w) !! e).
Proof.
  intros Hh. induction cs as [|c cs IH]; intros w; [done|].
  destruct (Hh c w) as [Hm Hlive]. destruct (IH (body h c w)) as [Hm' Hlive'].
  split; [by rewrite <- Hm|]. intros e He Hl. apply Hlive'; [done|]. by apply Hlive.
Qed.

(** The loop of the manager, for either hook. *)
Lemma range_for_loop_dispatch h (f : nat → M Args unit) (all : list nat)
    (orig : list (option nat)) :
  keeps_manager h all →
  (∀ e w ent, e ∈ all → ents w !! e = Some ent →
     f e w = Done (tt, run_hooks h (m_components ent) w,
                   HookCall h <$> m_components ent)) →
  ∀ (es : list nat) w,
    (∀ e, e ∈ es → e ∈ all) →
    m_entities (manager w) = orig →
    (∀ e, e ∈ all → is_Some (ents w !! e)) →
    range_for_loop entities orig (Some <$> es) (through h f) w
    = Done (tt, (dispatch h es w).1, (dispatch h es w).2).
Proof.
  intros Hh Hf. induction es as [|e es IH]; intros w Hsub Hm Hlive; [done|].
  destruct (Hlive e) as [ent He]; [apply Hsub; by left|].
  assert (components_of w e = m_components ent) as Hc
    by (unfold components_of; by rewrite He).
  destruct (run_hooks_keeps_manager h all (m_components ent) Hh w) as [Hm' Hlive'].
  assert (through h f (Some e) w
          = Done (tt, run_hooks h (m_components ent) w,
                  EntityCall h e :: (HookCall h <$> m_components ent))) as Hthis.
  { unfold through, bind, log. rewrite (Hf e w ent); [done| |done].
    apply Hsub. by left. }
  rewrite fmap_cons.
  change (range_for_loop entities orig (Some e :: (Some <$> es)) (through h f) w)
    with (bind (through h f (Some e))
            (λ _, bind (still_valid entities orig)
                    (λ _, range_for_loop entities orig (Some <$> es) (through h f))) w).
  unfold bind at 1. rewrite Hthis. unfold bind at 1.
  rewrite still_valid_entities by congruence.
  rewrite IH; [|intros e' He'; apply Hsub; by right|congruence|by auto].
  cbn [dispatch]. by rewrite Hc.
Qed.

Lemma Manager_update_dispatch w (es : list nat) :
  m_entities (manager w) = Some <$> es →
  (∀ e, e ∈ es → is_Some (ents w !! e)) →
  (∀ e, e ∈ es → keeps_vector Update e) →
  keeps_manager Update es →
  Manager_update body w
  = Done (tt, (dispatch Update es w).1, (dispatch Update es w).2).
Proof.
  intros Hes Hlive Hv Hm.
  unfold Manager_update, range_for. unfold bind at 1. unfold entities at 1.
  rewrite Hes.
  by rewrite (range_for_loop_dispatch Update (Entity_update body) es (Some <$> es) Hm
                (λ e w0 ent He Hent, Entity_update_hooks w0 e ent (Hv e He) Hent)
                es w (λ e He, He) Hes Hlive).
Qed.

Lemma Manager_draw_dispatch w (es : list nat) :
  m_entities (manager w) = Some <$> es →
  (∀ e, e ∈ es → is_Some (ents w !! e)) →
  (∀ e, e ∈ es → keeps_vector Draw e) →
  keeps_manager Draw es →
  Manager_draw body w
  = Done (tt, (dispatch Draw es w).1, (dispatch Draw es w).2).
Proof.
  intros Hes Hlive Hv Hm.
  unfold Manager_draw, range_for. unfold bind at 1. unfold entities at 1.
  rewrite Hes.
  by rewrite (range_for_loop_dispatch Draw (Entity_draw body) es (Some <$> es) Hm
                (λ e w0 ent He Hent, Entity_draw_hooks w0 e ent (Hv e He) Hent)
                es w (λ e He, He) Hes Hlive).
Qed.

Lemma called_entities_hooks h (cs : list nat) t :
  called_entities ((HookCall h <$> cs) ++ t) = called_entities t.
Proof. induction cs as [|c cs IH]; [done|]. by rewrite fmap_cons. Qed.

Lemma called_entities_dispatch h (es : list nat) : ∀ w,
  called_entities (dispatch h es w).2 = es.
Proof.
  induction es as [|e es IH]; intros w; [done|].
  cbn [dispatch snd]. unfold called_entities at 1. cbn [omap list_omap].
  fold (called_entities ((HookCall h <$> components_of w e)
                         ++ (dispatch h es (run_hooks h (components_of w e) w)).2)).
  by rewrite called_entities_hooks, IH.
Qed.

(** Hooks that leave every vector alone keep the iterators valid, and the
    dispatch then calls the components the entities had at the start. *)
Lemma same_structure_keeps_vector h e :
  (∀ c w0, same_structure w0 (body h c w0)) → keeps_vector h e.
Proof. intros Hh c w ent He _. exact (proj2 (Hh c w) e ent He). Qed.

Lemma same_structure_keeps_manager h (es : list nat) :
  (∀ c w0, same_structure w0 (body h c w0)) → keeps_manager h es.
Proof.
  intros Hh c w. destruct (Hh c w) as [Hm Hs]. split; [done|].
  intros e _ [ent He]. destruct (Hs e ent He) as (ent' & He' & _). eauto.
Qed.

Lemma dispatch_fan_out h w (es : list nat) :
  (∀ c w0, same_structure w0 (body h c w0)) →
  (∀ e, e ∈ es → is_Some (ents w !! e)) →
  ∀ w1, same_structure w w1 → (dispatch h es w1).2 = fan_out h w es.
Proof.
  intros Hh. induction es as [|e es IH]; intros Hlive w1 Hs; [done|].
  destruct (same_structure_components w w1 e Hs) as [Hc _].
  { apply Hlive. by left. }
  cbn [dispatch snd]. unfold fan_out. rewrite fmap_cons. simpl concat.
  rewrite Hc. do 2 f_equal. apply IH.
  - intros e' He'. apply Hlive. by right.
  - eapply same_structure_trans; [done|]. by apply same_structure_foldl.
Qed.

(** C4.  [update()] of an entity calls [update()] on every component of its
    owned sequence, front to back, and nothing else, and leaves the world
    these calls produce; [draw()] likewise; the active flag is not
    consulted, so an entity whose flag is false dispatches the same calls.
    [update()] and [draw()] of the manager call the corresponding function
    of every entity of [m_entities], front to back, whatever its active
    flag, and each entity dispatches to the components it owns when its
    turn comes; the world afterwards is the one all these hooks produce in
    that order.  When the hooks leave the vectors alone, the components
    called are those the entities owned at the start.  The sequences are in
    order of addition: [addComponent] appends the new component at the end
    of the owned sequence before it calls [init()], and [addEntity] appends
    the new entity at the end of [m_entities].  (The hooks called by a
    dispatch are assumed to keep the iterators of the running loops valid:
    a hook of a component leaves the vector of its own entity and
    [m_entities] as they are and deletes no entity of the manager.) *)
Theorem C4_dispatch_order w (es : list nat) :
  m_entities (manager w) = Some <$> es →
  (∀ e, e ∈ es → is_Some (ents w !! e)) →
  (∀ e, e ∈ es → keeps_vector Update e ∧ keeps_vector Draw e) →
  keeps_manager Update es →
  keeps_manager Draw es →
  (∀ e ent, ents w !! e = Some ent →
     keeps_vector Update e → keeps_vector Draw e →
     Entity_update body e w
     = Done (tt, run_hooks Update (m_components ent) w,
             HookCall Update <$> m_components ent)
     ∧ Entity_draw body e w
       = Done (tt, run_hooks Draw (m_components ent) w,
               HookCall Draw <$> m_components ent)
     ∧ ∃ w1, destroy e w = Done (tt, w1, [])
             ∧ isActive e w1 = Done (false, w1, [])
             ∧ Entity_update body e w1
               = Done (tt, run_hooks Update (m_components ent) w1,
                       HookCall Update <$> m_components ent)
             ∧ Entity_draw body e w1
               = Done (tt, run_hooks Draw (m_components ent) w1,
                       HookCall Draw <$> m_components ent))
  ∧ Manager_update body w
    = Done (tt, (dispatch Update es w).1, (dispatch Update es w).2)
  ∧ Manager_draw body w
    = Done (tt, (dispatch Draw es w).1, (dispatch Draw es w).2)
  ∧ (∀ h w0, called_entities (dispatch h es w0).2 = es)
  ∧ (∀ h, (∀ c w0, same_structure w0 (body h c w0)) →
          (dispatch h es w).2 = fan_out h w es)
  ∧ (∃ e w1, addEntity w = Done (e, w1, [])
             ∧ ents w !! e = None
             ∧ ents w1 !! e = Some Entity_new
             ∧ m_entities (manager w1) = Some <$> (es ++ [e]))
  ∧ (∀ T args e ent,
       ents w !! e = Some ent →
       (getComTypeID_T T (statics w)).1 < FDS_MAX_COM →
       ∃ c w0 ent0,
         addComponent body T args e w = Done (c, body Init c w0, [HookCall Init c])
         ∧ ents w0 !! e = Some ent0
         ∧ m_components ent0 = m_components ent ++ [c]).
Proof.
  intros Hes Hlive Hvec Hup Hdr.
  refine (conj _ (conj _ (conj _ (conj _ (conj _ (conj _ _)))))).
  - intros e ent He Hvu Hvd.
    pose proof (destroy_run w e ent He) as Hd.
    set (w1 := set_ents _ w) in Hd.
    assert (ents w1 !! e = Some {| m_isActive := false;
                                   m_components := m_components ent;
                                   m_comArray := m_comArray ent;
                                   m_comBitSet := m_comBitSet ent |}) as He1
      by apply lookup_insert_eq.
    split_and!.
    + by apply Entity_update_hooks.
    + by apply Entity_draw_hooks.
    + exists w1. split_and!; [done| | |].
      * by rewrite (isActive_run _ _ _ He1).
      * by rewrite (Entity_update_hooks _ _ _ Hvu He1).
      * by rewrite (Entity_draw_hooks _ _ _ Hvd He1).
  - apply Manager_update_dispatch; [done|done| |done].
    intros e He. by destruct (Hvec e He).
  - apply Manager_draw_dispatch; [done|done| |done].
    intros e He. by destruct (Hvec e He).
  - intros h w0. apply called_entities_dispatch.
  - intros h Hh. apply dispatch_fan_out; [done|done|apply same_structure_refl].
  - eexists _, _. split; [apply addEntity_run|]. split_and!.
    + apply fresh_entity.
    + simpl. apply lookup_insert_eq.
    + simpl. by rewrite Hes, fmap_app.
  - intros T args e ent He Hlt.
    destruct (slot_index_Some _ Hlt) as (i & Hi & Hfin).
    eexists _, (before_init T args e ent i w), _. split_and!.
    + by apply addComponent_run.
    + simpl. apply lookup_insert_eq.
    + done.
Qed.

(** **** [refresh] *)

(** The active flag of the entity at [e] in state [w]. *)
Definition active w e : bool :=
  match ents w !! e with
  | Some ent => m_isActive ent
  | None => false
  end.

(** What [refresh] reads of an entity: its active flag and, when the flag
    is false, the vector of its components, which its destructor destroys.
    [alike o' o] says that the entity [o'] is there when [o] is and agrees
    with it on that much. *)
Definition alike (o' o : option FDS_Entity) : Prop :=
  match o', o with
  | Some ent', Some ent =>
    m_isActive ent' = m_isActive ent
    ∧ (m_isActive ent = false → m_components ent' = m_components ent)
  | None, None => True
  | _, _ => False
  end.

Lemma alike_refl o : alike o o.
Proof. by destruct o. Qed.

Lemma alike_trans o1 o2 o3 : alike o1 o2 → alike o2 o3 → alike o1 o3.
Proof.
  destruct o1 as [e1|], o2 as [e2|], o3 as [e3|]; simpl; try done.
  intros [H12 Hc12] [H23 Hc23]. split; [congruence|].
  intros Hf. rewrite Hc12, Hc23; [done|done|congruence].
Qed.

(** A destructor that leaves the manager's vector as it is and, of the
    entities [es], creates or deletes none, sets no active flag and leaves
    the components of the inactive ones in their vectors. *)
Definition keeps_flags (es : list nat) (f : World Args → World Args) : Prop :=
  ∀ w, manager (f w) = manager w
       ∧ ∀ e, e ∈ es → alike (ents (f w) !! e) (ents w !! e).

(** A destructor that leaves the entities, the manager and the registry as
    they are: it deletes no entity, adds or removes no component of an
    entity, sets no flag, and registers no type. *)
Definition keeps_entities (f : World Args → World Args) : Prop :=
  ∀ w, statics (f w) = statics w ∧ ents (f w) = ents w ∧ manager (f w) = manager w.

Lemma keeps_entities_flags es f : keeps_entities f → keeps_flags es f.
Proof.
  intros Hf w. destruct (Hf w) as (_ & Hen & Hmg). split; [done|].
  intros e _. rewrite Hen. apply alike_refl.
Qed.

(** The components whose destructors [refresh] runs: [c] is a component of
    an entity of [es] whose active flag is false in [w]. *)
Definition doomed w (es : list nat) c : Prop :=
  ∃ e ent, e ∈ es ∧ ents w !! e = Some ent ∧ m_isActive ent = false
           ∧ c ∈ m_components ent.

(** The calls [t] are the destructors of the components that the entities
    [D] have in [w], each of them and nothing else. *)
Definition destructors w (D : gset nat) (t : list Event) : Prop :=
  ∀ ev, ev ∈ t ↔ ∃ e ent c, e ∈ D ∧ ents w !! e = Some ent
                            ∧ c ∈ m_components ent ∧ ev = HookCall Dtor c.

Lemma delete_component_run c w :
  delete_component body c w
  = Done (tt, set_coms (delete c (coms (body Dtor c w))) (body Dtor c w),
          [HookCall Dtor c]).
Proof. done. Qed.

Lemma foldr_delete_subseteq (m : gmap nat (FDS_Component Args)) (l : list nat) :
  foldr delete m l ⊆ m.
Proof.
  induction l as [|c l IH]; simpl; [done|].
  etrans; [apply delete_subseteq|done].
Qed.

(** The entities of [l] whose active flag is true in [w], in order. *)
Definition survivors w (l : list nat) : list nat :=
  filter (λ e, active w e = true) l.

(** The entities of [l] whose active flag is false in [w]. *)
Definition dead w (l : list nat) : gset nat :=
  list_to_set (filter (λ e, active w e = false) l).

Lemma elem_of_dead w l e : e ∈ dead w l ↔ e ∈ l ∧ active w e = false.
Proof. unfold dead. rewrite elem_of_list_to_set, list_elem_of_filter. tauto. Qed.

Lemma survivors_snoc_active w l e :
  active w e = true → survivors w (l ++ [e]) = survivors w l ++ [e].
Proof.
  intros Ha. unfold survivors. rewrite filter_app. f_equal.
  by rewrite filter_cons_True.
Qed.

Lemma survivors_snoc_inactive w l e :
  active w e = false → survivors w (l ++ [e]) = survivors w l.
Proof.
  intros Ha. unfold survivors. rewrite filter_app.
  rewrite filter_cons_False by (rewrite Ha; done). simpl. apply app_nil_r.
Qed.

Lemma survivors_all w l :
  Forall (λ e, active w e = true) l → survivors w l = l.
Proof.
  induction 1 as [|e l He Hl IH]; [done|].
  unfold survivors. rewrite filter_cons_True by done. f_equal. apply IH.
Qed.

Lemma survivors_sublist w l : survivors w l `sublist_of` l.
Proof. apply sublist_filter. Qed.

(** One compaction step on the vector: the element at the read position
    moves to the write position and leaves a moved-from value behind. *)
Lemma compact_step {A} (K gap0 R : list A) (g x y : A) :
  <[length K := x]>
    (<[(length K + S (length gap0))%nat := y]> (K ++ (g :: gap0) ++ x :: R))
  = (K ++ [x]) ++ (gap0 ++ [y]) ++ R.
Proof.
  rewrite insert_app_r. simpl.
  rewrite <- (Nat.add_0_r (length gap0)), insert_app_r. simpl.
  rewrite <- (Nat.add_0_r (length K)), insert_app_r. simpl.
  by rewrite <- !app_assoc.
Qed.

Lemma remove_if_loop_S n i first (v : list (option nat)) u (wc : World Args) :
  v !! i = Some u →
  remove_if_loop body order (S n) i first v wc
  = bind (is_inactive u)
      (λ b, if b then remove_if_loop body order n (S i) first v
            else bind (move_assign body order first i v)
                   (λ v', remove_if_loop body order n (S i) (S first) v')) wc.
Proof. intros Hu. simpl. by rewrite Hu. Qed.

Lemma bind_Done {A B} (m : M Args A) (k : A → M Args B) w b w' t :
  bind m k w = Done (b, w', t) →
  ∃ a w1 t1 t2, m w = Done (a, w1, t1) ∧ k a w1 = Done (b, w', t2) ∧ t = t1 ++ t2.
Proof.
  unfold bind. destruct (m w) as [[[a w1] t1]|]; [|done].
  destruct (k a w1) as [[[b' w2] t2]|] eqn:Hk; [|done].
  intros [= <- <- <-]. by exists a, w1, t1, t2.
Qed.

Lemma is_inactive_same w u b w' t :
  is_inactive u w = Done (b, w', t) → w' = w ∧ t = [].
Proof.
  destruct u as [e|]; [|done]. unfold is_inactive, bind, isActive, bind, this, ret.
  destruct (ents w !! e); [|done]. by intros [= _ <- <-].
Qed.

Lemma find_if_same (v : list (option nat)) : ∀ i w k w' t,
  find_if v i w = Done (k, w', t) → w' = w ∧ t = [].
Proof.
  induction v as [|u v IH]; intros i w k w' t; simpl.
  - by intros [= _ <- <-].
  - intros (b & w1 & t1 & t2 & Hb & Hk & ->)%bind_Done.
    apply is_inactive_same in Hb as [-> ->]. destruct b.
    + by injection Hk as _ <- <-.
    + by eapply IH.
Qed.

(** [erase] of an empty tail destroys nothing. *)
Lemma erase_to_end_nothing (kept : list nat) w :
  erase_to_end body order (length kept) (Some <$> kept) w
  = Done (Some <$> kept, w, []).
Proof.
  unfold erase_to_end, bind.
  rewrite drop_ge by (by rewrite length_fmap).
  assert (order (option nat) [] = []) as ->
    by (apply Permutation_nil_r, order_permutation).
  simpl. unfold ret. by rewrite take_ge by (by rewrite length_fmap).
Qed.

Section Sweep.

(** The state in which [refresh] is called, and the entities of the
    manager.  The destructors that [refresh] runs are those of the
    components of the inactive entities; they are assumed to leave the
    manager's vector and the flags of its entities alone. *)
Variable w : World Args.
Variable es : list nat.
Hypothesis dtor_keeps_flags : ∀ c, doomed w es c → keeps_flags es (body Dtor c).

(** State [wc] is [w] after the entities [D] of [es] were deleted, with the
    calls [t] made so far: the manager's record is as in [w], the entities
    [D] are gone, the other entities of [es] have the flag they had, and
    [t] holds the destructors of the components of [D].  When the
    destructors leave all entities and the registry alone, the registry and
    every other entity are as in [w]. *)
Definition swept (D : gset nat) (wc : World Args) (t : list Event) : Prop :=
  manager wc = manager w
  ∧ (∀ e, e ∈ es →
       if decide (e ∈ D) then ents wc !! e = None
       else alike (ents wc !! e) (ents w !! e))
  ∧ destructors w D t
  ∧ ((∀ c, doomed w es c → keeps_entities (body Dtor c)) →
     statics wc = statics w
     ∧ ∀ e, ents wc !! e = if decide (e ∈ D) then None else ents w !! e).

Lemma swept_refl : swept ∅ w [].
Proof.
  split_and!.
  - done.
  - intros e _. rewrite decide_False by set_solver. apply alike_refl.
  - intros ev. split; [by intros ?%elem_of_nil|].
    intros (e & _ & _ & He & _). set_solver.
  - intros _. split; [done|]. intros e. by rewrite decide_False by set_solver.
Qed.

Lemma swept_proper D D' wc t t' :
  D = D' → t = t' → swept D wc t → swept D' wc t'.
Proof. by intros -> ->. Qed.

(** A destructor that [refresh] runs keeps the invariant. *)
Lemma swept_dtor c D wc t :
  doomed w es c → swept D wc t → swept D (body Dtor c wc) t.
Proof.
  intros Hc (Hmg & Hents & Ht & Hstrong).
  destruct (dtor_keeps_flags c Hc wc) as [Hmg' Hal].
  split_and!.
  - congruence.
  - intros e He. specialize (Hents e He). specialize (Hal e He).
    case_decide.
    + rewrite Hents in Hal. by destruct (ents (body Dtor c wc) !! e).
    + by eapply alike_trans.
  - done.
  - intros Hkeep. destruct (Hstrong Hkeep) as [Hst Hen].
    destruct (Hkeep c Hc wc) as (Hst' & Hen' & _). split; [congruence|].
    intros e. by rewrite Hen'.
Qed.

Lemma swept_coms m D wc t : swept D wc t → swept D (set_coms m wc) t.
Proof. by destruct wc. Qed.

(** The destructors of the components run one after the other. *)
Lemma delete_components_run (cs : list nat) D t :
  (∀ c, c ∈ cs → doomed w es c) →
  ∀ wc, swept D wc t →
    ∃ w', for_each cs (delete_component body) wc = Done (tt, w', HookCall Dtor <$> cs)
          ∧ swept D w' t.
Proof.
  induction cs as [|c cs IH]; intros Hcs wc Hsw; [by exists wc|].
  destruct (IH (λ c' Hc', Hcs c' ltac:(by right))
              (set_coms (delete c (coms (body Dtor c wc))) (body Dtor c wc)))
    as (w' & Hrun & Hsw').
  { apply swept_coms, swept_dtor; [|done]. apply Hcs. by left. }
  exists w'. split; [|done].
  change (for_each (c :: cs) (delete_component body) wc)
    with (bind (delete_component body c)
            (λ _, for_each cs (delete_component body)) wc).
  unfold bind. by rewrite delete_component_run, Hrun.
Qed.

Lemma is_inactive_run D wc t e :
  swept D wc t → e ∈ es → e ∉ D → is_Some (ents w !! e) →
  is_inactive (Some e) wc = Done (negb (active w e), wc, []).
Proof.
  intros (_ & Hents & _) He HD [ent Hent].
  specialize (Hents e He). rewrite decide_False, Hent in Hents by done.
  unfold is_inactive, bind, isActive, bind, this, ret, active. rewrite Hent.
  destruct (ents wc !! e) as [ent'|]; [|done]. destruct Hents as [-> _]. done.
Qed.

(** Deleting an inactive entity of [es]: the destructors of its components
    run, then it is gone. *)
Lemma release_run D wc t e :
  swept D wc t → e ∈ es → e ∉ D → is_Some (ents w !! e) → active w e = false →
  ∃ wc' t', release body order (Some e) wc = Done (tt, wc', t')
            ∧ swept ({[e]} ∪ D) wc' (t ++ t').
Proof.
  intros Hsw He HD [ent Hent] Ha.
  assert (m_isActive ent = false) as Hflag.
  { unfold active in Ha. by rewrite Hent in Ha. }
  pose proof Hsw as (_ & Hents & _).
  specialize (Hents e He). rewrite decide_False, Hent in Hents by done.
  destruct (ents wc !! e) as [ent'|] eqn:Hc; [|done].
  destruct Hents as [_ Hcs]. specialize (Hcs Hflag).
  pose proof (order_permutation nat (m_components ent')) as Hperm.
  destruct (delete_components_run (order nat (m_components ent')) D t) with (wc := wc)
    as (w1 & Hrun & (Hmg1 & Hents1 & Ht1 & Hstrong1)).
  { intros c Hin. exists e, ent. split_and!; [done|done|done|].
    rewrite <- Hcs. by rewrite <- Hperm. }
  { done. }
  exists (set_ents (delete e (ents w1)) w1), (HookCall Dtor <$> order nat (m_components ent')).
  split.
  { unfold release, delete_entity. unfold bind at 1. unfold this. rewrite Hc.
    unfold bind. rewrite Hrun. by rewrite app_nil_l, app_nil_r. }
  split_and!.
  - done.
  - intros e' He'. simpl. destruct (decide (e' = e)) as [->|Hne].
    + rewrite decide_True by set_solver. apply lookup_delete_eq.
    + rewrite lookup_delete_ne by done. specialize (Hents1 e' He').
      destruct (decide (e' ∈ D)).
      * by rewrite decide_True by set_solver.
      * by rewrite decide_False by set_solver.
  - intros ev. rewrite elem_of_app, (Ht1 ev), list_elem_of_fmap. split.
    + intros [(e0 & ent0 & c & He0 & Hent0 & Hc0 & ->)|(c & -> & Hin)].
      * exists e0, ent0, c. split_and!; [set_solver|done|done|done].
      * exists e, ent, c. split_and!; [set_solver|done| |done].
        rewrite <- Hcs. by rewrite <- Hperm.
    + intros (e0 & ent0 & c & He0 & Hent0 & Hc0 & ->).
      destruct (decide (e0 = e)) as [->|Hne].
      * right. exists c. split; [done|].
        rewrite Hent in Hent0. injection Hent0 as <-.
        rewrite Hperm, Hcs. done.
      * left. exists e0, ent0, c. split_and!; [set_solver|done|done|done].
  - intros Hkeep. destruct (Hstrong1 Hkeep) as [Hst Hen]. split; [done|].
    intros e'. simpl. destruct (decide (e' = e)) as [->|Hne].
    + rewrite decide_True by set_solver. apply lookup_delete_eq.
    + rewrite lookup_delete_ne by done. rewrite Hen.
      destruct (decide (e' ∈ D)).
      * by rewrite decide_True by set_solver.
      * by rewrite decide_False by set_solver.
Qed.

(** Destroying a run of [unique_ptr]s (the tail [erase] drops). *)
Lemma release_all (gap : list (option nat)) : ∀ D wc t,
  swept D wc t →
  NoDup (omap id gap) →
  (∀ d, d ∈ omap id gap →
        d ∈ es ∧ (d ∉ D) ∧ is_Some (ents w !! d) ∧ active w d = false) →
  ∃ wc' t', for_each gap (release body order) wc = Done (tt, wc', t')
            ∧ swept (list_to_set (omap id gap) ∪ D) wc' (t ++ t').
Proof.
  induction gap as [|[d|] gap IH]; intros D wc t Hsw Hnd Hall.
  - exists wc, []. split; [done|].
    eapply swept_proper; [| |done]; [set_solver|by rewrite app_nil_r].
  - simpl in Hnd, Hall. apply NoDup_cons in Hnd as [Hd Hnd].
    destruct (Hall d) as (Hdes & HdD & Hlive & Hdact); [by left|].
    destruct (release_run D wc t d Hsw Hdes HdD Hlive Hdact)
      as (wc1 & t1 & Hrel & Hsw1).
    destruct (IH ({[d]} ∪ D) wc1 (t ++ t1) Hsw1 Hnd) as (wc' & t2 & Hrun & Hsw').
    { intros d' Hd'. destruct (Hall d') as (? & ? & ? & ?); [by right|].
      split_and!; [done| |done|done]. set_solver. }
    exists wc', (t1 ++ t2). split.
    + change (for_each (Some d :: gap) (release body order) wc)
        with (bind (release body order (Some d))
                (λ _, for_each gap (release body order)) wc).
      unfold bind. by rewrite Hrel, Hrun.
    + eapply swept_proper; [| |done]; [simpl; set_solver|by rewrite app_assoc].
  - simpl in Hnd, Hall. destruct (IH D wc t Hsw Hnd Hall) as (wc' & t' & Hrun & Hsw').
    exists wc', t'. split; [|done].
    change (for_each (None :: gap) (release body order) wc)
      with (bind (release body order None)
              (λ _, for_each gap (release body order)) wc).
    unfold bind, release at 1, ret. by rewrite Hrun.
Qed.

(** [std::find_if] stops at the first inactive entity, or at the end. *)
Lemma find_if_run D wc t (rest : list nat) : ∀ i,
  swept D wc t →
  (∀ e, e ∈ rest → e ∈ es ∧ (e ∉ D) ∧ is_Some (ents w !! e)) →
  (Forall (λ e, active w e = true) rest
   ∧ find_if (Some <$> rest) i wc = Done ((i + length rest)%nat, wc, []))
  ∨ (∃ pre0 d rest0,
       rest = pre0 ++ d :: rest0
       ∧ Forall (λ e, active w e = true) pre0
       ∧ active w d = false
       ∧ find_if (Some <$> rest) i wc = Done ((i + length pre0)%nat, wc, [])).
Proof.
  intros i Hsw. revert i. induction rest as [|e rest IH]; intros i Hall.
  - left. split; [done|]. simpl. unfold ret. do 3 f_equal. lia.
  - destruct (Hall e) as (Hees & HeD & Hlive); [by left|].
    pose proof (is_inactive_run D wc t e Hsw Hees HeD Hlive) as Hin.
    assert (find_if (Some <$> e :: rest) i wc
            = if active w e then find_if (Some <$> rest) (S i) wc
              else Done (i, wc, [])) as Hstep.
    { rewrite fmap_cons.
      change (find_if (Some e :: (Some <$> rest)) i wc)
        with (bind (is_inactive (Some e))
                   (λ b, if b then ret i else find_if (Some <$> rest) (S i)) wc).
      unfold bind at 1. rewrite Hin. destruct (active w e); simpl; [|done].
      by destruct (find_if (Some <$> rest) (S i) wc) as [[[? ?] ?]|];
        rewrite ?app_nil_l. }
    destruct (active w e) eqn:Ha; cbv iota in Hstep.
    + destruct (IH (S i)) as [[Hact Hrun]|(pre0 & d & rest0 & Heq & Hact & Hd & Hrun)].
      { intros e' He'. apply Hall. by right. }
      * left. split; [by constructor|]. rewrite Hstep, Hrun. simpl.
        do 3 f_equal. lia.
      * right. exists (e :: pre0), d, rest0.
        split_and!; [by rewrite Heq|by constructor|done|].
        rewrite Hstep, Hrun. simpl. do 3 f_equal. lia.
    + right. exists [], e, rest. split_and!; [done|done|done|].
      rewrite Hstep. simpl. do 3 f_equal. lia.
Qed.

(** The compaction loop of [std::remove_if].  The vector is the survivors
    found so far, then a gap of inactive or moved-from pointers, then the
    part not yet visited; the entities deleted so far are the inactive ones
    visited that are no longer in the gap. *)
Lemma remove_if_loop_run :
  NoDup es →
  (∀ e, e ∈ es → is_Some (ents w !! e)) →
  ∀ (rest pre : list nat) (gap : list (option nat)) n i first wc t,
    es = pre ++ rest →
    gap ≠ [] →
    n = length rest →
    first = length (survivors w pre) →
    i = (length (survivors w pre) + length gap)%nat →
    NoDup (omap id gap) →
    (∀ d, d ∈ omap id gap → d ∈ pre ∧ active w d = false) →
    swept (dead w pre ∖ list_to_set (omap id gap)) wc t →
    ∃ wc' gap' t',
      remove_if_loop body order n i first
        ((Some <$> survivors w pre) ++ gap ++ (Some <$> rest)) wc
      = Done ((length (survivors w es), (Some <$> survivors w es) ++ gap'), wc', t')
      ∧ NoDup (omap id gap')
      ∧ (∀ d, d ∈ omap id gap' → d ∈ es ∧ active w d = false)
      ∧ swept (dead w es ∖ list_to_set (omap id gap')) wc' (t ++ t').
Proof.
  intros Hnd Hlive. induction rest as [|u rest IH];
    intros pre gap n i first wc t Hes Hgap -> -> -> Hgnd Hgs Hsw.
  - rewrite app_nil_r in Hes. subst pre. exists wc, gap, [].
    simpl. rewrite !app_nil_r. done.
  - assert (u ∉ pre) as Hupre.
    { rewrite Hes in Hnd. apply NoDup_app in Hnd as (_ & Hdisj & _).
      intros Hin. apply (Hdisj u Hin). by left. }
    assert (u ∈ es) as Hues.
    { rewrite Hes. apply elem_of_app. right. by left. }
    assert (is_Some (ents w !! u)) as Hulive by (by apply Hlive).
    assert (u ∉ dead w pre ∖ list_to_set (omap id gap)) as HuD.
    { rewrite elem_of_difference, elem_of_dead. tauto. }
    pose proof (is_inactive_run _ wc t u Hsw Hues HuD Hulive) as Hin.
    assert (((Some <$> survivors w pre) ++ gap ++ (Some <$> u :: rest))
              !! (length (survivors w pre) + length gap)%nat = Some (Some u)) as Hlook.
    { rewrite app_assoc, fmap_cons. apply list_lookup_middle.
      by rewrite length_app, length_fmap. }
    simpl length. rewrite (remove_if_loop_S _ _ _ _ _ _ Hlook).
    unfold bind at 1. rewrite Hin.
    destruct (active w u) eqn:Ha;
      [change (negb true) with false|change (negb false) with true];
      cbv beta iota.
    + (* an active entity: it moves to the front of the gap *)
      destruct gap as [|g gap0]; [done|].
      assert (((Some <$> survivors w pre) ++ (g :: gap0) ++ (Some <$> u :: rest))
                !! length (survivors w pre) = Some g) as Hfirst.
      { apply list_lookup_middle. by rewrite length_fmap. }
      assert (<[length (survivors w pre) := Some u]>
                (<[(length (survivors w pre) + length (g :: gap0))%nat := None]>
                   ((Some <$> survivors w pre) ++ (g :: gap0) ++ (Some <$> u :: rest)))
              = (Some <$> survivors w (pre ++ [u])) ++ (gap0 ++ [None]) ++ (Some <$> rest))
        as Hvec.
      { rewrite (survivors_snoc_active _ _ _ Ha), fmap_app, fmap_cons.
        rewrite <- (length_fmap Some (survivors w pre)).
        apply (compact_step (Some <$> survivors w pre) gap0 (Some <$> rest) g (Some u) None). }
      assert (∃ wc1 t1,
                release body order g wc = Done (tt, wc1, t1)
                ∧ swept (dead w (pre ++ [u]) ∖ list_to_set (omap id (gap0 ++ [None])))
                    wc1 (t ++ t1))
        as (wc1 & t1 & Hrel & Hsw1).
      { assert (dead w (pre ++ [u]) = dead w pre) as Hdead.
        { apply set_eq. intros x. rewrite !elem_of_dead, elem_of_app, list_elem_of_singleton.
          split; [|tauto]. intros [[?| ->] ?]; [done|congruence]. }
        rewrite Hdead, omap_app. simpl. rewrite app_nil_r.
        destruct g as [d|].
        - simpl in Hgnd, Hgs, Hsw. apply NoDup_cons in Hgnd as [Hd Hgnd].
          destruct (Hgs d) as [Hdpre Hdact]; [by left|].
          assert (d ∈ es) as Hdes by (rewrite Hes; apply elem_of_app; by left).
          destruct (release_run _ wc t d Hsw Hdes) as (wc1 & t1 & Hrel & Hsw1).
          { set_solver. }
          { by apply Hlive. }
          { done. }
          exists wc1, t1. split; [done|]. eapply swept_proper; [|done|done].
          apply set_eq. intros x.
          rewrite elem_of_union, !elem_of_difference, elem_of_singleton,
            elem_of_union, elem_of_singleton, !elem_of_list_to_set, elem_of_dead.
          split.
          + intros [->|[? Hn]]; [by split; [split|]|]. split; [done|]. tauto.
          + intros [? Hn]. destruct (decide (x = d)); [by left|]. right.
            split; [done|]. tauto.
        - exists wc, []. split; [done|]. by rewrite app_nil_r. }
      unfold move_assign. rewrite Hfirst, Hlook. unfold bind, ret.
      rewrite Hrel. cbv beta iota. rewrite Hvec.
      destruct (IH (pre ++ [u]) (gap0 ++ [None])
                  (length rest) (S (length (survivors w pre) + length (g :: gap0)))
                  (S (length (survivors w pre))) wc1 (t ++ t1))
        as (wc' & gap' & t2 & Hrun & Hnd' & Hgs' & Hsw').
      * by rewrite <- app_assoc.
      * by destruct gap0.
      * done.
      * rewrite (survivors_snoc_active _ _ _ Ha), length_app. simpl. lia.
      * rewrite (survivors_snoc_active _ _ _ Ha), !length_app. simpl. lia.
      * rewrite omap_app. simpl. rewrite app_nil_r.
        destruct g; simpl in Hgnd; [by apply NoDup_cons in Hgnd as [_ ?]|done].
      * intros d. rewrite omap_app. simpl. rewrite app_nil_r. intros Hd.
        destruct (Hgs d) as [? ?].
        { destruct g; simpl; [by right|done]. }
        split; [|done]. apply elem_of_app. by left.
      * done.
      * rewrite Hrun. eexists wc', gap', _. split; [done|].
        split_and!; [done|done|].
        eapply swept_proper; [done| |done].
        by rewrite !app_nil_r, !app_nil_l, app_assoc.
    + (* an inactive entity: the gap grows *)
      destruct (IH (pre ++ [u]) (gap ++ [Some u])
                  (length rest) (S (length (survivors w pre) + length gap))
                  (length (survivors w pre)) wc t)
        as (wc' & gap' & t2 & Hrun & Hnd' & Hgs' & Hsw').
      * by rewrite <- app_assoc.
      * by destruct gap.
      * done.
      * by rewrite (survivors_snoc_inactive _ _ _ Ha).
      * rewrite (survivors_snoc_inactive _ _ _ Ha), !length_app. simpl. lia.
      * rewrite omap_app. simpl. apply NoDup_app. split_and!; [done| |apply NoDup_singleton].
        intros d Hd ->%list_elem_of_singleton. by destruct (Hgs _ Hd).
      * intros d. rewrite omap_app. simpl.
        rewrite !elem_of_app, !list_elem_of_singleton.
        intros [Hd| ->]; [|by split; [right|]].
        destruct (Hgs _ Hd). by split; [left|].
      * eapply swept_proper; [|done|done]. apply set_eq. intros x.
        rewrite omap_app. simpl.
        rewrite !elem_of_difference, !elem_of_dead, !elem_of_list_to_set,
          !elem_of_app, !list_elem_of_singleton.
        split.
        -- intros [[? ?] Hn]. split; [by split; [left|]|].
           intros [?| ->]; [tauto|done].
        -- intros [[[?| ->] ?] Hn]; [split; [done|tauto]|]. destruct Hn. by right.
      * rewrite (survivors_snoc_inactive _ _ _ Ha) in Hrun.
        rewrite <- app_assoc in Hrun. simpl app in Hrun.
        rewrite fmap_cons, Hrun. eexists wc', gap', _. split; [done|].
        split_and!; [done|done|].
        eapply swept_proper; [done| |done]. by rewrite ?app_nil_l.
Qed.

Lemma erase_to_end_run (kept : list nat) (gap : list (option nat)) D wc t :
  swept D wc t →
  NoDup (omap id gap) →
  (∀ d, d ∈ omap id gap →
        d ∈ es ∧ (d ∉ D) ∧ is_Some (ents w !! d) ∧ active w d = false) →
  ∃ wc' t', erase_to_end body order (length kept) ((Some <$> kept) ++ gap) wc
            = Done (Some <$> kept, wc', t')
            ∧ swept (list_to_set (omap id gap) ∪ D) wc' (t ++ t').
Proof.
  intros Hsw Hnd Hall.
  pose proof (order_permutation _ gap) as Hperm.
  destruct (release_all (order _ gap) D wc t Hsw) as (wc' & t' & Hrun & Hsw').
  { by rewrite Hperm. }
  { intros d Hd. apply Hall. by rewrite <- Hperm. }
  exists wc', (t' ++ []). split.
  - unfold erase_to_end, bind.
    rewrite drop_app_length' by (by rewrite length_fmap).
    rewrite Hrun. unfold ret.
    by rewrite take_app_length' by (by rewrite length_fmap).
  - eapply swept_proper; [| |done]; [|by rewrite app_nil_r].
    f_equal. apply list_to_set_perm_L. by rewrite Hperm.
Qed.

(** [refresh] on a manager that owns the live, pairwise distinct entities
    [es]: the manager's vector, the entities and the calls afterwards. *)
Lemma refresh_flags :
  m_entities (manager w) = Some <$> es →
  NoDup es →
  (∀ e, e ∈ es → is_Some (ents w !! e)) →
  ∃ w' t, refresh body order w = Done (tt, w', t)
          ∧ m_entities (manager w') = Some <$> survivors w es
          ∧ (∀ e, e ∈ es →
               if decide (e ∈ dead w es) then ents w' !! e = None
               else alike (ents w' !! e) (ents w !! e))
          ∧ destructors w (dead w es) t
          ∧ (Forall (λ e, active w e = true) es → w' = w ∧ t = [])
          ∧ ((∀ c, doomed w es c → keeps_entities (body Dtor c)) →
             statics w' = statics w
             ∧ ∀ e, ents w' !! e = if decide (e ∈ dead w es) then None else ents w !! e).
Proof.
  intros Hes Hnd Hlive. unfold refresh. rewrite Hes. unfold bind at 1.
  unfold remove_if. unfold bind at 1.
  destruct (find_if_run ∅ w [] es 0 swept_refl)
    as [[Hact Hfind]|(pre0 & d & rest0 & Heq & Hact & Hd & Hfind)].
  { intros e He. split_and!; [done|set_solver|by apply Hlive]. }
  - (* no inactive entity *)
    rewrite Hfind. simpl.
    rewrite decide_True by (by rewrite length_fmap).
    unfold ret at 1. simpl.
    unfold bind. rewrite erase_to_end_nothing.
    assert (set_manager {| m_entities := Some <$> es |} w = w) as Hsame.
    { destruct w as [s c e [m]]. simpl in *. by subst. }
    eexists _, _. split; [done|]. rewrite Hsame.
    assert (dead w es = ∅) as Hnone.
    { apply set_eq. intros e. rewrite elem_of_dead. split; [|set_solver].
      intros [Hin Hf]. rewrite Forall_forall in Hact.
      rewrite (Hact e Hin) in Hf. done. }
    rewrite Hnone. destruct swept_refl as (_ & Hents & Ht & Hstrong).
    split_and!; [by rewrite survivors_all|done|done|done|done].
  - (* the first inactive entity is [d] *)
    rewrite Hfind. simpl.
    assert (survivors w (pre0 ++ [d]) = pre0) as Hsurv.
    { by rewrite (survivors_snoc_inactive _ _ _ Hd), survivors_all. }
    rewrite decide_False
      by (rewrite length_fmap, Heq, length_app; simpl; lia).
    destruct (remove_if_loop_run Hnd Hlive rest0 (pre0 ++ [d]) [Some d]
                (length (Some <$> es) - S (length pre0))%nat
                (S (length pre0)) (length pre0) w [])
      as (wc1 & gap' & t1 & Hloop & Hgnd & Hgs & Hsw1).
    { by rewrite <- app_assoc. }
    { done. }
    { rewrite length_fmap, Heq, length_app. simpl. lia. }
    { by rewrite Hsurv. }
    { rewrite Hsurv. simpl. lia. }
    { simpl. apply NoDup_singleton. }
    { simpl. intros d' ->%list_elem_of_singleton. split; [|done].
      apply elem_of_app. right. by left. }
    { eapply swept_proper; [|done|apply swept_refl]. apply set_eq. intros x. simpl.
      rewrite elem_of_difference, elem_of_dead, elem_of_app, !list_elem_of_singleton.
      split; [set_solver|]. intros [[[Hin| ->] Hf] Hn]; [|set_solver].
      rewrite Forall_forall in Hact. rewrite (Hact x Hin) in Hf. done. }
    rewrite Hsurv in Hloop.
    assert ((Some <$> pre0) ++ [Some d] ++ (Some <$> rest0) = Some <$> es) as Hv.
    { by rewrite Heq, fmap_app, fmap_cons. }
    rewrite Hv in Hloop. rewrite Hloop. simpl.
    destruct (erase_to_end_run (survivors w es) gap' _ wc1 _ Hsw1 Hgnd)
      as (wc' & t2 & Hrun & Hsw).
    { intros d' Hd'. destruct (Hgs d' Hd') as [Hin Hf]. split_and!.
      - done.
      - rewrite elem_of_difference, elem_of_list_to_set. tauto.
      - by apply Hlive.
      - done. }
    unfold bind. rewrite Hrun.
    assert (list_to_set (omap id gap') ∪ dead w es ∖ list_to_set (omap id gap')
            = dead w es) as HD.
    { apply set_eq. intros x.
      rewrite elem_of_union, elem_of_difference, elem_of_list_to_set, elem_of_dead.
      split; [|destruct (decide (x ∈ omap id gap')); tauto].
      intros [Hg|[? _]]; [|done]. by apply Hgs. }
    rewrite HD in Hsw. destruct Hsw as (Hmg & Hents & Ht & Hstrong).
    eexists _, _. split; [done|]. simpl. split_and!; [done|done| | |done].
    + revert Ht. by rewrite ?app_nil_l, ?app_nil_r.
    + intros Hall. rewrite Forall_forall in Hall.
      rewrite (Hall d) in Hd; [done|]. rewrite Heq. apply elem_of_app. right. by left.
Qed.

End Sweep.

(** [refresh] with destructors that leave the entities, the manager and
    the registry alone. *)
Lemma refresh_run (Hdtor : ∀ c, keeps_entities (body Dtor c)) w (es : list nat) :
  m_entities (manager w) = Some <$> es →
  NoDup es →
  (∀ e, e ∈ es → is_Some (ents w !! e)) →
  ∃ w' t, refresh body order w = Done (tt, w', t)
          ∧ m_entities (manager w') = Some <$> survivors w es
          ∧ statics w' = statics w
          ∧ (∀ e, ents w' !! e = if decide (e ∈ dead w es) then None else ents w !! e)
          ∧ (∀ ev, ev ∈ t ↔
               ∃ e ent c, e ∈ es ∧ active w e = false ∧ ents w !! e = Some ent
                          ∧ c ∈ m_components ent ∧ ev = HookCall Dtor c)
          ∧ (Forall (λ e, active w e = true) es → w' = w ∧ t = []).
Proof.
  intros Hes Hnd Hlive.
  destruct (refresh_flags w es (λ c _, keeps_entities_flags es _ (Hdtor c)) Hes Hnd Hlive)
    as (w' & t & Hr & Hm & _ & Ht & Hnone & Hstrong).
  destruct (Hstrong (λ c _, Hdtor c)) as [Hst Hents].
  exists w', t. split_and!; [done|done|done|done| |done].
  intros ev. rewrite (Ht ev). split.
  - intros (e & ent & c & [He Ha]%elem_of_dead & Hent & Hc & ->).
    exists e, ent, c. by split_and!.
  - intros (e & ent & c & He & Ha & Hent & Hc & ->).
    exists e, ent, c. split_and!; [by apply elem_of_dead|done|done|done].
Qed.

(** The scenario: a manager with no entities; [addEntity()] three times,
    [destroy()] on the second entity, then [refresh()].  No destructor
    runs, the entities having no components. *)
Lemma refresh_scenario w0 :
  m_entities (manager w0) = [] →
  ∃ e1 e2 e3 w1 w2 w3 w4 w5,
    addEntity w0 = Done (e1, w1, [])
    ∧ addEntity w1 = Done (e2, w2, [])
    ∧ addEntity w2 = Done (e3, w3, [])
    ∧ destroy e2 w3 = Done (tt, w4, [])
    ∧ refresh body order w4 = Done (tt, w5, [])
    ∧ m_entities (manager w4) = [Some e1; Some e2; Some e3]
    ∧ m_entities (manager w5) = [Some e1; Some e3]
    ∧ ents w5 !! e2 = None
    ∧ is_Some (ents w5 !! e1) ∧ is_Some (ents w5 !! e3).
Proof.
  intros Hm0.
  set (e1 := fresh (dom (ents w0))).
  set (w1 := set_manager {| m_entities := m_entities (manager w0) ++ [Some e1] |}
               (set_ents (<[e1 := Entity_new]> (ents w0)) w0)).
  set (e2 := fresh (dom (ents w1))).
  set (w2 := set_manager {| m_entities := m_entities (manager w1) ++ [Some e2] |}
               (set_ents (<[e2 := Entity_new]> (ents w1)) w1)).
  set (e3 := fresh (dom (ents w2))).
  set (w3 := set_manager {| m_entities := m_entities (manager w2) ++ [Some e3] |}
               (set_ents (<[e3 := Entity_new]> (ents w2)) w2)).
  assert (e2 ≠ e1) as H21.
  { intros Heq. pose proof (fresh_entity w1) as Hf. fold e2 in Hf.
    rewrite Heq in Hf. simpl in Hf. by rewrite lookup_insert_eq in Hf. }
  assert (e3 ≠ e2) as H32.
  { intros Heq. pose proof (fresh_entity w2) as Hf. fold e3 in Hf.
    rewrite Heq in Hf. simpl in Hf. by rewrite lookup_insert_eq in Hf. }
  assert (e3 ≠ e1) as H31.
  { intros Heq. pose proof (fresh_entity w2) as Hf. fold e3 in Hf.
    rewrite Heq in Hf. simpl in Hf.
    rewrite lookup_insert_ne in Hf by done. by rewrite lookup_insert_eq in Hf. }
  assert (ents w3 !! e2 = Some Entity_new) as He2.
  { simpl. rewrite lookup_insert_ne by done. apply lookup_insert_eq. }
  pose proof (destroy_run w3 e2 Entity_new He2) as Hd.
  set (w4 := set_ents _ w3) in Hd.
  assert (m_entities (manager w4) = Some <$> [e1; e2; e3]) as Hm4.
  { simpl. by rewrite Hm0. }
  assert (ents w4 !! e1 = Some Entity_new) as H41.
  { simpl. rewrite !lookup_insert_ne by done. apply lookup_insert_eq. }
  assert (ents w4 !! e3 = Some Entity_new) as H43.
  { simpl. rewrite lookup_insert_ne by done. apply lookup_insert_eq. }
  assert (active w4 e1 = true) as Ha1 by (unfold active; by rewrite H41).
  assert (active w4 e3 = true) as Ha3 by (unfold active; by rewrite H43).
  assert (active w4 e2 = false) as Ha2.
  { unfold active. simpl. by rewrite lookup_insert_eq. }
  assert (∀ c, ¬ doomed w4 [e1; e2; e3] c) as Hnone.
  { intros c (e & ent & He & Hent & _ & Hc). revert He Hent Hc.
    rewrite !elem_of_cons, elem_of_nil.
    intros [->|[->|[->|[]]]].
    - rewrite H41. intros [= <-]. by intros ?%elem_of_nil.
    - simpl. rewrite lookup_insert_eq. intros [= <-]. by intros ?%elem_of_nil.
    - rewrite H43. intros [= <-]. by intros ?%elem_of_nil. }
  destruct (refresh_flags w4 [e1; e2; e3] (λ c Hc, False_ind _ (Hnone c Hc)) Hm4)
    as (w5 & t & Hr & Hm5 & _ & Ht & _ & Hstrong).
  { repeat constructor; set_solver. }
  { intros e. rewrite !elem_of_cons, elem_of_nil.
    intros [->|[->|[->|[]]]]; [by rewrite H41| |by rewrite H43].
    simpl. by rewrite lookup_insert_eq. }
  destruct (Hstrong (λ c Hc, False_ind _ (Hnone c Hc))) as [_ Hents].
  assert (t = []) as ->.
  { destruct t as [|ev t]; [done|].
    destruct (proj1 (Ht ev) ltac:(by left)) as (e & ent & c & He & Hent & Hc & _).
    apply elem_of_dead in He as [He Ha].
    destruct (Hnone c). exists e, ent. split_and!; [done|done| |done].
    unfold active in Ha. by rewrite Hent in Ha. }
  assert (survivors w4 [e1; e2; e3] = [e1; e3]) as Hs.
  { unfold survivors. rewrite filter_cons_True by done.
    rewrite filter_cons_False by (by rewrite Ha2).
    by rewrite filter_cons_True by done. }
  rewrite Hs in Hm5.
  exists e1, e2, e3, w1, w2, w3, w4, w5.
  split_and!; try done.
  - rewrite Hents. rewrite decide_True; [done|].
    apply elem_of_dead. split; [|done]. set_solver.
  - rewrite Hents, decide_False, H41; [done|].
    rewrite elem_of_dead. intros [_ ?]. congruence.
  - rewrite Hents, decide_False, H43; [done|].
    rewrite elem_of_dead. intros [_ ?]. congruence.
Qed.

(** C5.  On a manager that owns the live, distinct entities [es],
    [refresh()] returns without error; afterwards [m_entities] holds
    exactly the entities of [es] whose active flag was true, in their
    previous relative order, and these are alive and active; the entities
    of [es] whose flag was false are destroyed.  The calls it makes are the
    destructors of the components of the destroyed entities, each of them
    and nothing else.  With no entities, or with all of them active,
    nothing changes at all and nothing is called.  These destructors are
    client code that runs in the middle of the pass: they are assumed to
    leave the manager's vector and the flags of its entities alone; when
    they leave the entities and the registry alone altogether, every entity
    that is not destroyed and the registry are untouched.  In the scenario
    (three [addEntity()], [destroy()] on the second, [refresh()]) the first
    and the third entity remain, in that order. *)
Theorem C5_refresh w (es : list nat) :
  m_entities (manager w) = Some <$> es →
  NoDup es →
  (∀ e, e ∈ es → is_Some (ents w !! e)) →
  (∀ c, doomed w es c → keeps_flags es (body Dtor c)) →
  (∃ w' t,
     refresh body order w = Done (tt, w', t)
     ∧ m_entities (manager w') = Some <$> survivors w es
     ∧ (∀ e, e ∈ survivors w es ↔ e ∈ es ∧ active w e = true)
     ∧ survivors w es `sublist_of` es
     ∧ (∀ e, e ∈ es → active w e = false → ents w' !! e = None)
     ∧ (∀ e, e ∈ es → active w e = true →
          is_Some (ents w' !! e) ∧ active w' e = true)
     ∧ (∀ ev, ev ∈ t ↔
          ∃ e ent c, e ∈ es ∧ active w e = false ∧ ents w !! e = Some ent
                     ∧ c ∈ m_components ent ∧ ev = HookCall Dtor c)
     ∧ (es = [] → w' = w ∧ t = [])
     ∧ (Forall (λ e, active w e = true) es → w' = w ∧ t = [])
     ∧ ((∀ c, doomed w es c → keeps_entities (body Dtor c)) →
        statics w' = statics w
        ∧ ∀ e, ¬ (e ∈ es ∧ active w e = false) → ents w' !! e = ents w !! e))
  ∧ (∀ w0 : World Args,
       m_entities (manager w0) = [] →
       ∃ e1 e2 e3 w1 w2 w3 w4 w5,
         addEntity w0 = Done (e1, w1, [])
         ∧ addEntity w1 = Done (e2, w2, [])
         ∧ addEntity w2 = Done (e3, w3, [])
         ∧ destroy e2 w3 = Done (tt, w4, [])
         ∧ refresh body order w4 = Done (tt, w5, [])
         ∧ m_entities (manager w4) = [Some e1; Some e2; Some e3]
         ∧ m_entities (manager w5) = [Some e1; Some e3]
         ∧ ents w5 !! e2 = None
         ∧ is_Some (ents w5 !! e1) ∧ is_Some (ents w5 !! e3)).
Proof.
  intros Hes Hnd Hlive Hdtor. split; [|by apply refresh_scenario].
  destruct (refresh_flags w es Hdtor Hes Hnd Hlive)
    as (w' & t & Hr & Hm & Hents & Ht & Hnone & Hstrong).
  exists w', t. split_and!.
  - done.
  - done.
  - intros e. unfold survivors. rewrite list_elem_of_filter. tauto.
  - apply survivors_sublist.
  - intros e Hin Hf. specialize (Hents e Hin).
    by rewrite decide_True in Hents by (by apply elem_of_dead).
  - intros e Hin Ha. specialize (Hents e Hin).
    rewrite decide_False in Hents by (rewrite elem_of_dead; intros [_ ?]; congruence).
    unfold active in *. destruct (ents w !! e) as [ent|]; [|done].
    destruct (ents w' !! e) as [ent'|]; [|done].
    destruct Hents as [-> _]. by split.
  - intros ev. rewrite (Ht ev). split.
    + intros (e & ent & c & [He Ha]%elem_of_dead & Hent & Hc & ->).
      exists e, ent, c. by split_and!.
    + intros (e & ent & c & He & Ha & Hent & Hc & ->).
      exists e, ent, c. split_and!; [by apply elem_of_dead|done|done|done].
  - intros ->. by apply Hnone.
  - done.
  - intros Hkeep. destruct (Hstrong Hkeep) as [Hst Hen]. split; [done|].
    intros e Hn. rewrite Hen, decide_False; [done|]. by rewrite elem_of_dead.
Qed.

(** The manager owns the entities [es]: they are the elements of
    [m_entities], no pointer is null, no entity is owned twice, and all are
    alive.  The manager of a new world owns nothing, and [addEntity] and
    [refresh] keep the property. *)
Definition owns w (es : list nat) : Prop :=
  m_entities (manager w) = Some <$> es
  ∧ NoDup es
  ∧ ∀ e, e ∈ es → is_Some (ents w !! e).

Lemma owns_init : owns (@world_init Args) [].
Proof.
  split_and!; [done|constructor|]. intros e He. by apply elem_of_nil in He.
Qed.

Lemma owns_addEntity w es :
  owns w es →
  ∃ e w', addEntity w = Done (e, w', []) ∧ owns w' (es ++ [e]).
Proof.
  intros (Hm & Hnd & Hlive). eexists _, _. split; [apply addEntity_run|].
  split_and!.
  - simpl. by rewrite Hm, fmap_app.
  - apply NoDup_app. split_and!; [done| |apply NoDup_singleton].
    intros e He ->%list_elem_of_singleton.
    destruct (Hlive _ He) as [ent Hent]. by rewrite fresh_entity in Hent.
  - intros e. rewrite elem_of_app, list_elem_of_singleton. simpl.
    intros [He| ->]; [|by rewrite lookup_insert_eq].
    destruct (decide (e = fresh (dom (ents w)))) as [->|Hne].
    + by rewrite lookup_insert_eq.
    + rewrite lookup_insert_ne by done. by apply Hlive.
Qed.

Lemma owns_refresh w es :
  (∀ c, keeps_entities (body Dtor c)) →
  owns w es →
  ∃ w' t, refresh body order w = Done (tt, w', t) ∧ owns w' (survivors w es).
Proof.
  intros Hdtor (Hm & Hnd & Hlive).
  destruct (refresh_run Hdtor w es Hm Hnd Hlive) as (w' & t & Hr & Hm' & _ & Hents & _).
  exists w', t. split; [done|]. split_and!; [done|by apply NoDup_filter|].
  intros e [Ha He]%list_elem_of_filter.
  rewrite Hents, decide_False; [by apply Hlive|].
  rewrite elem_of_dead. intros [_ Hf]. congruence.
Qed.

(** The other operations keep the tables and bitsets consistent too. *)
Lemma world_consistent_init : world_consistent (@world_init Args).
Proof. intros e ent He. simpl in He. by rewrite lookup_empty in He. Qed.

Lemma world_consistent_addEntity w e w' :
  world_consistent w → addEntity w = Done (e, w', []) → world_consistent w'.
Proof.
  intros Hw. rewrite addEntity_run. intros [= <- <-] e' ent'. simpl.
  destruct (decide (e' = fresh (dom (ents w)))) as [->|Hne].
  - rewrite lookup_insert_eq. intros [= <-]. apply consistent_new.
  - rewrite lookup_insert_ne by done. apply Hw.
Qed.

Lemma world_consistent_destroy w e w' :
  world_consistent w → destroy e w = Done (tt, w', []) → world_consistent w'.
Proof.
  intros Hw. destruct (ents w !! e) as [ent|] eqn:He.
  - rewrite (destroy_run _ _ _ He). intros [= <-] e' ent'. simpl.
    destruct (decide (e' = e)) as [->|Hne].
    + rewrite lookup_insert_eq. intros [= <-]. exact (Hw e ent He).
    + rewrite lookup_insert_ne by done. apply Hw.
  - unfold destroy, bind, this. by rewrite He.
Qed.

Lemma world_consistent_refresh w es w' t :
  (∀ c, keeps_entities (body Dtor c)) →
  owns w es → world_consistent w →
  refresh body order w = Done (tt, w', t) → world_consistent w'.
Proof.
  intros Hdtor (Hm & Hnd & Hlive) Hw Hr.
  destruct (refresh_run Hdtor w es Hm Hnd Hlive) as (w'' & t' & Hr' & _ & _ & Hents & _).
  rewrite Hr' in Hr. injection Hr as <- <-. intros e ent. rewrite Hents.
  case_decide; [done|]. apply Hw.
Qed.

(** *** The capacity of 32 component types *)

(** A reading of "registration beyond the capacity fails": no call
    [getComTypeID<T>()] returns an identifier outside the 32 slots. *)
Definition registration_checks_capacity : Prop :=
  ∀ (ts : list nat) (id : N), id ∈ (calls ts registry_init).1 → id < FDS_MAX_COM.

(** The first call for a type returns the number of types registered before. *)
Lemma first_call_id (ts : list nat) i T :
  N.of_nat (size (list_to_set ts : gset nat)) ≤ SIZE_MOD →
  ts !! i = Some T → T ∉ take i ts →
  (calls ts registry_init).1 !! i
  = Some (N.of_nat (size (list_to_set (take i ts) : gset nat))).
Proof.
  intros Hbound Hi Hfresh.
  destruct (calls_spec ts [] registry_init reg_inv_init) as (_ & _ & Hall).
  destruct (Hall i T Hi) as (k & Hk & Hid & Hnew).
  destruct (Hnew (not_elem_of_nil T) Hfresh) as [Hkl _].
  rewrite Hid, nth_id_small, Hkl, first_uses_length; [done|].
  apply lookup_lt_Some in Hk. rewrite first_uses_length in Hk. lia.
Qed.

Lemma addComponent_out_of_bounds w T args e ent :
  ents w !! e = Some ent →
  ¬ (getComTypeID_T T (statics w)).1 < FDS_MAX_COM →
  addComponent body T args e w = Undefined OutOfBounds.
Proof.
  intros He Hge.
  unfold addComponent, bind, new_component, set_owner, emplace_back_component,
    comArray_store, typeId, this, store, bind.
  simpl. rewrite lookup_insert_eq. simpl. rewrite He. simpl.
  rewrite lookup_insert_eq. by rewrite (slot_index_None _ Hge).
Qed.

Lemma hasComponent_out_of_bounds w T e ent :
  ents w !! e = Some ent →
  ¬ (getComTypeID_T T (statics w)).1 < FDS_MAX_COM →
  hasComponent T e w = Undefined OutOfBounds.
Proof.
  intros He Hge. unfold hasComponent, bind, typeId, this. simpl.
  rewrite He. by rewrite (decide_False _ _ Hge).
Qed.

Lemma getComponent_out_of_bounds w T e ent :
  ents w !! e = Some ent →
  ¬ (getComTypeID_T T (statics w)).1 < FDS_MAX_COM →
  getComponent T e w = Undefined OutOfBounds.
Proof.
  intros He Hge. rewrite (getComponent_run _ _ _ _ He).
  rewrite lookup_ge_None_2; [done|]. rewrite length_vec_to_list.
  unfold FDS_MAX_COM in *. lia.
Qed.

(** C8, as the code has it.  [getComTypeID<T>()] checks no capacity: along
    any sequence of calls every call returns, and the first call for a type
    returns the number of types registered before it, so the 33rd distinct
    type receives the identifier 32, which is [FDS_MAX_COM], without any
    failure.  The capacity is a precondition of the operations of an entity:
    for a type whose identifier is below 32, [hasComponent] and
    [addComponent] are defined; for a type whose identifier is 32 or
    beyond, [addComponent], [hasComponent] and [getComponent] index the 32
    slots out of bounds, which is undefined behaviour and not a reported
    failure. *)
Theorem C8_capacity_unchecked (ts : list nat) :
  N.of_nat (size (list_to_set ts : gset nat)) ≤ SIZE_MOD →
  length (calls ts registry_init).1 = length ts
  ∧ (∀ i T, ts !! i = Some T → T ∉ take i ts →
       (calls ts registry_init).1 !! i
       = Some (N.of_nat (size (list_to_set (take i ts) : gset nat))))
  ∧ (∀ i T, ts !! i = Some T → T ∉ take i ts →
       size (list_to_set (take i ts) : gset nat) = 32%nat →
       (calls ts registry_init).1 !! i = Some FDS_MAX_COM)
  ∧ (∀ w T e ent,
       ents w !! e = Some ent →
       (getComTypeID_T T (statics w)).1 < FDS_MAX_COM →
       (∃ b w1, hasComponent T e w = Done (b, w1, []))
       ∧ (∀ args, ∃ c w1, addComponent body T args e w = Done (c, w1, [HookCall Init c])))
  ∧ (∀ w T e ent,
       ents w !! e = Some ent →
       ¬ (getComTypeID_T T (statics w)).1 < FDS_MAX_COM →
       (∀ args, addComponent body T args e w = Undefined OutOfBounds)
       ∧ hasComponent T e w = Undefined OutOfBounds
       ∧ getComponent T e w = Undefined OutOfBounds).
Proof.
  intros Hbound.
  destruct (calls_spec ts [] registry_init reg_inv_init) as (_ & Hlen & _).
  refine (conj Hlen (conj _ (conj _ (conj _ _)))).
  - intros i T Hi Hfresh. by apply (first_call_id ts i T).
  - intros i T Hi Hfresh Hsz.
    rewrite (first_call_id ts i T Hbound Hi Hfresh), Hsz. done.
  - intros w T e ent He Hlt. split.
    + eexists _, _. by apply hasComponent_run.
    + intros args. destruct (slot_index_Some _ Hlt) as (i & Hi & _).
      eexists _, _. by apply addComponent_run.
  - intros w T e ent He Hge. split_and!.
    + intros args. by eapply addComponent_out_of_bounds.
    + by eapply hasComponent_out_of_bounds.
    + by eapply getComponent_out_of_bounds.
Qed.

End Entities.

(** Registering 33 distinct types: the calls return 0, 1, ..., 32. *)
Lemma C8_registration_unchecked :
  (calls (seq 0 33) registry_init).1 = N.of_nat <$> seq 0 33
  ∧ (calls (seq 0 33) registry_init).1 !! 32%nat = Some FDS_MAX_COM
  ∧ ¬ registration_checks_capacity.
Proof.
  assert ((calls (seq 0 33) registry_init).1 = N.of_nat <$> seq 0 33) as Hids
    by (vm_compute; reflexivity).
  split; [done|]. split; [by rewrite Hids|].
  intros Hcheck. pose proof (Hcheck (seq 0 33) 32) as H.
  rewrite Hids in H. unfold FDS_MAX_COM in H.
  assert (32 < 32) as Habs; [|lia].
  apply H. apply list_elem_of_fmap. exists 32%nat. split; [done|].
  apply elem_of_seq. lia.
Qed.

(** *** A concrete run *)

(** Components without data, with the empty hooks of [FDS_Component]. *)
Definition demo_setup : M unit unit :=
  bind addEntity (λ e0,
  bind addEntity (λ e1,
  bind addEntity (λ e2,
  bind (addComponent default_body 5%nat tt e0) (λ _,
  bind (addComponent default_body 6%nat tt e0) (λ _,
  bind (addComponent default_body 5%nat tt e1) (λ _,
  destroy e1)))))).

(** Three entities at addresses 0, 1, 2; entity 0 owns components 0 and 1
    (of the types 5 and 6), entity 1 owns component 2 (of type 5) and is
    marked inactive, entity 2 owns nothing. *)
Definition demo : World unit :=
  match demo_setup world_init with
  | Done (_, w, _) => w
  | Undefined _ => world_init
  end.

Definition demo_e0 : FDS_Entity :=
  {| m_isActive := true;
     m_components := [0; 1]%nat;
     m_comArray :=
       vinsert 1%fin (Some 1%nat) (vinsert 0%fin (Some 0%nat) (vreplicate capacity None));
     m_comBitSet := 3 |}.

Example demo_entity_0 : ents demo !! 0%nat = Some demo_e0.
Proof. vm_compute. reflexivity. Qed.

Example demo_manager : m_entities (manager demo) = Some <$> [0; 1; 2]%nat.
Proof. vm_compute. reflexivity. Qed.

(** A hook that adds a component to entity 0 whenever it is updated. *)
Definition spawner (h : Hook) (c : nat) (w : World unit) : World unit :=
  match h with
  | Update =>
    match addComponent default_body 9%nat tt 0%nat w with
    | Done (_, w', _) => w'
    | Undefined _ => w
    end
  | _ => w
  end.

(** Growing the vector of components while [update()] traverses it. *)
Example demo_invalid_iterator :
  Entity_update spawner 0%nat demo = Undefined InvalidIterator.
Proof. vm_compute. reflexivity. Qed.

Example demo_update :
  calls_of (Manager_update default_body demo)
  = Some [EntityCall Update 0; HookCall Update 0; HookCall Update 1;
          EntityCall Update 1; HookCall Update 2; EntityCall Update 2].
Proof. vm_compute. reflexivity. Qed.

(** A check of [consistent] by evaluation. *)
Definition consistentb (ent : FDS_Entity) : bool :=
  forallb (λ i : nat,
    match N.testbit (m_comBitSet ent) (N.of_nat i), vec_to_list (m_comArray ent) !! i with
    | true, Some (Some c) => bool_decide (c ∈ m_components ent)
    | false, Some None => true
    | _, _ => false
    end) (seq 0 capacity).

Lemma consistentb_sound ent : consistentb ent = true → consistent ent.
Proof.
  unfold consistentb. rewrite forallb_forall. intros Hall id Hlt.
  specialize (Hall (N.to_nat id)). rewrite N2Nat.id in Hall.
  assert (In (N.to_nat id) (seq 0 capacity)) as Hin.
  { apply in_seq. unfold FDS_MAX_COM in *. lia. }
  specialize (Hall Hin).
  destruct (N.testbit (m_comBitSet ent) id),
    (vec_to_list (m_comArray ent) !! N.to_nat id) as [[c|]|]; try done.
  split; [|done]. intros _. exists c. split; [done|].
  by apply bool_decide_eq_true in Hall.
Qed.

Lemma world_consistentb_sound {Args} (w : World Args) :
  forallb (λ p, consistentb p.2) (map_to_list (ents w)) = true →
  world_consistent w.
Proof.
  rewrite forallb_forall. intros Hall e ent He.
  apply consistentb_sound.
  apply (Hall (e, ent)), list_elem_of_In, elem_of_map_to_list, He.
Qed.

Lemma demo_consistent : world_consistent demo.
Proof. apply world_consistentb_sound. vm_compute. reflexivity. Qed.

Lemma demo_live e : e ∈ [0; 1; 2]%nat → is_Some (ents demo !! e).
Proof.
  rewrite !elem_of_cons, elem_of_nil.
  intros [->|[->|[->|[]]]]; eexists; vm_compute; reflexivity.
Qed.

Lemma demo_attached : attached 5%nat 0%nat 0%nat demo.
Proof.
  exists 0, demo_e0, {| owner := Some 0%nat; dyn_type := 5%nat; state := tt |}.
  split_and!; try (vm_compute; reflexivity).
  simpl. set_solver.
Qed.

(** The concrete run: a component of a new type 7 for entity 2. *)
Lemma C2_addComponent_witness :
  ents demo !! 2%nat = Some Entity_new
  ∧ (getComTypeID_T 7%nat (statics demo)).1 < FDS_MAX_COM
  ∧ ∃ c w', addComponent default_body 7%nat tt 2%nat demo
            = Done (c, w', [HookCall Init c])
            ∧ hasComponent 7%nat 2%nat w' = Done (true, w', [])
            ∧ getComponent 7%nat 2%nat w' = Done (c, w', []).
Proof.
  assert (ents demo !! 2%nat = Some Entity_new) as He by (vm_compute; reflexivity).
  assert ((getComTypeID_T 7%nat (statics demo)).1 < FDS_MAX_COM) as Hlt
    by (vm_compute; reflexivity).
  split; [exact He|]. split; [exact Hlt|].
  destruct (C2_addComponent default_body demo 7%nat tt 2%nat Entity_new He Hlt
              (λ c w0 H, H))
    as (c & w0 & ent0 & _ & Hrun & _ & _ & _ & _ & _ & _ & Hhas & Hget & _).
  exists c, (default_body Init c w0). split; [exact Hrun|]. split; [exact Hhas|exact Hget].
Defined.

Lemma default_keeps_components {Args} h c : keeps_components (@default_body Args h c).
Proof. intros w. split; [by eauto|]. intros e ent He. by exists ent. Qed.


Lemma default_keeps_vector {Args} h e : keeps_vector (@default_body Args) h e.
Proof. intros c w ent He Hc. by exists ent. Qed.

Lemma default_keeps_manager {Args} h (es : list nat) :
  keeps_manager (@default_body Args) h es.
Proof. intros c w. split; [done|]. by intros e _ He. Qed.

Lemma default_keeps_entities {Args} h c : keeps_entities (@default_body Args h c).
Proof. by intros w. Qed.

Lemma default_keeps_flags {Args} (es : list nat) h c :
  keeps_flags es (@default_body Args h c).
Proof. apply keeps_entities_flags, default_keeps_entities. Qed.

(** The elements of a vector destroyed from the first to the last. *)
Definition forward (A : Type) (l : list A) : list A := l.

Lemma forward_permutation (A : Type) (l : list A) : forward A l ≡ₚ l.
Proof. done. Qed.

(** The concrete run: the manager dispatches to all three entities, the
    inactive entity 1 included, and the empty hooks leave the world as it
    was. *)
Lemma C4_dispatch_order_witness :
  m_entities (manager demo) = Some <$> [0; 1; 2]%nat
  ∧ (∀ e, e ∈ [0; 1; 2]%nat → is_Some (ents demo !! e))
  ∧ keeps_manager (Args := unit) default_body Update [0; 1; 2]%nat
  ∧ keeps_manager (Args := unit) default_body Draw [0; 1; 2]%nat
  ∧ Manager_update default_body demo
    = Done (tt, demo,
            [EntityCall Update 0; HookCall Update 0; HookCall Update 1;
             EntityCall Update 1; HookCall Update 2; EntityCall Update 2]).
Proof.
  split; [exact demo_manager|]. split; [exact demo_live|].
  split; [apply default_keeps_manager|]. split; [apply default_keeps_manager|].
  refine (eq_trans
    (proj1 (proj2 (C4_dispatch_order default_body demo [0; 1; 2]%nat
                     demo_manager demo_live
                     (λ e _, conj (default_keeps_vector Update e)
                                  (default_keeps_vector Draw e))
                     (default_keeps_manager Update _)
                     (default_keeps_manager Draw _)))) _).
  vm_compute. reflexivity.
Defined.

Lemma demo_NoDup : NoDup [0; 1; 2]%nat.
Proof. repeat (apply NoDup_cons; split; [set_solver|]). apply NoDup_nil_2. Qed.

Example demo_refresh :
  calls_of (refresh default_body forward demo) = Some [HookCall Dtor 2].
Proof. vm_compute. reflexivity. Qed.

(** A destructor that calls [destroy()] on entity 3. *)
Definition vengeful (h : Hook) (c : nat) (w : World unit) : World unit :=
  match h with
  | Dtor =>
    match destroy 3%nat w with
    | Done (_, w', _) => w'
    | Undefined _ => w
    end
  | _ => w
  end.

(** The concrete world with a fourth entity. *)
Definition demo4 : World unit :=
  match addEntity demo with
  | Done (_, w, _) => w
  | Undefined _ => demo
  end.

(** With such a destructor, [refresh()] erases entity 3 although it was
    active when [refresh()] was called: the destructor of the component of
    entity 1 runs in the middle of the pass, before entity 3 is tested. *)
Example demo_destructor_destroys :
  m_entities (manager demo4) = Some <$> [0; 1; 2; 3]%nat
  ∧ active demo4 3%nat = true
  ∧ ∃ w', refresh vengeful forward demo4 = Done (tt, w', [HookCall Dtor 2])
          ∧ m_entities (manager w') = Some <$> [0; 2]%nat
          ∧ ents w' !! 3%nat = None.
Proof.
  split; [vm_compute; reflexivity|]. split; [vm_compute; reflexivity|].
  eexists. split; [vm_compute; reflexivity|]. split; vm_compute; reflexivity.
Qed.

(** The concrete run: [refresh()] erases entity 1 and runs the destructor
    of its component. *)
Lemma C5_refresh_witness :
  m_entities (manager demo) = Some <$> [0; 1; 2]%nat
  ∧ NoDup [0; 1; 2]%nat
  ∧ (∀ e, e ∈ [0; 1; 2]%nat → is_Some (ents demo !! e))
  ∧ (∀ c, doomed demo [0; 1; 2]%nat c
          → keeps_flags [0; 1; 2]%nat (default_body (Args := unit) Dtor c))
  ∧ ∃ w' t, refresh default_body forward demo = Done (tt, w', t)
            ∧ m_entities (manager w') = Some <$> survivors demo [0; 1; 2]%nat
            ∧ ents w' !! 1%nat = None.
Proof.
  split; [exact demo_manager|]. split; [exact demo_NoDup|].
  split; [exact demo_live|].
  split; [exact (λ c _, default_keeps_flags _ Dtor c)|].
  destruct (C5_refresh default_body forward forward_permutation demo [0; 1; 2]%nat
              demo_manager demo_NoDup demo_live (λ c _, default_keeps_flags _ Dtor c))
    as [(w' & t & Hrun & Hm & _ & _ & Hdead & _) _].
  exists w', t. split; [exact Hrun|]. split; [exact Hm|].
  apply (Hdead 1%nat); [rewrite !elem_of_cons; tauto|vm_compute; reflexivity].
Defined.

(** The concrete run: [destroy()] on entity 0. *)
Lemma C6_destroy_witness :
  ents demo !! 0%nat = Some demo_e0
  ∧ ∃ w', destroy 0%nat demo = Done (tt, w', [])
          ∧ isActive 0%nat w' = Done (false, w', []).
Proof.
  split; [exact demo_entity_0|].
  destruct (C6_destroy demo 0%nat demo_e0 demo_entity_0)
    as (w' & ent' & Hrun & Hact & _).
  exists w'. split; [exact Hrun|exact Hact].
Defined.

(** The concrete run: entity 0 and the type 5. *)
Lemma C7_table_bitset_consistent_witness :
  world_consistent demo
  ∧ ents demo !! 0%nat = Some demo_e0
  ∧ (getComTypeID_T 5%nat (statics demo)).1 < FDS_MAX_COM
  ∧ ∃ b w1, hasComponent 5%nat 0%nat demo = Done (b, w1, []).
Proof.
  assert ((getComTypeID_T 5%nat (statics demo)).1 < FDS_MAX_COM) as Hlt
    by (vm_compute; reflexivity).
  split; [exact demo_consistent|]. split; [exact demo_entity_0|]. split; [exact Hlt|].
  exact (proj1 (proj2 (proj2
    (C7_table_bitset_consistent default_body demo 5%nat 0%nat demo_e0
       demo_consistent demo_entity_0 Hlt (λ c w0 H, H))))).
Defined.

(** Thirty-three registrations within the range of [std::size_t]. *)
Lemma C8_capacity_unchecked_witness :
  N.of_nat (size (list_to_set (seq 0 33) : gset nat)) ≤ SIZE_MOD
  ∧ length (calls (seq 0 33) registry_init).1 = 33%nat.
Proof.
  assert (N.of_nat (size (list_to_set (seq 0 33) : gset nat)) ≤ SIZE_MOD) as H
    by (vm_compute; discriminate).
  split; [exact H|].
  exact (proj1 (C8_capacity_unchecked (Args := unit) default_body (seq 0 33) H)).
Defined.

(** *** Ownership and the life of components *)

Section Lifecycle.

Context {Args : Type}.
Variable body : Hook → nat → World Args → World Args.
Variable order : ∀ A : Type, list A → list A.
Hypothesis order_permutation : ∀ (A : Type) (l : list A), order A l ≡ₚ l.

Implicit Types (w : World Args) (ent : FDS_Entity) (e c T : nat).

(** Every entity owns its components exclusively: the addresses in its
    vector are distinct, each is a live component, and the back-reference of
    that component names this entity (so no component is in two vectors). *)
Definition well_owned w : Prop :=
  ∀ e ent, ents w !! e = Some ent →
    NoDup (m_components ent)
    ∧ ∀ c, c ∈ m_components ent →
        ∃ com, coms w !! c = Some com ∧ owner com = Some e.

(** From [w] to [w'] entities were only deleted, and the components that
    disappeared are those of the deleted entities. *)
Definition frees w w' : Prop :=
  ents w' ⊆ ents w
  ∧ coms w' ⊆ coms w
  ∧ statics w' = statics w
  ∧ ∀ c, is_Some (coms w !! c) →
      (coms w' !! c = None
       ↔ ∃ e ent, ents w !! e = Some ent ∧ ents w' !! e = None ∧ c ∈ m_components ent).

Lemma frees_refl w : frees w w.
Proof.
  split_and!; [done|done|done|]. intros c [com Hc]. rewrite Hc. split; [done|].
  intros (e & ent & He & Hn & _). congruence.
Qed.

Lemma frees_trans w1 w2 w3 : frees w1 w2 → frees w2 w3 → frees w1 w3.
Proof.
  intros (He12 & Hc12 & Hs12 & H12) (He23 & Hc23 & Hs23 & H23).
  split_and!; [by etrans|by etrans|congruence|].
  intros c Hc1. split.
  - intros Hc3. destruct (coms w2 !! c) as [com|] eqn:Hc2.
    + destruct (proj1 (H23 c ltac:(by rewrite Hc2)) Hc3) as (e & ent & He2 & He3 & Hin).
      exists e, ent. split_and!; [|done|done].
      by eapply lookup_weaken.
    + destruct (proj1 (H12 c Hc1) Hc2) as (e & ent & He1 & He2 & Hin).
      exists e, ent. split_and!; [done| |done].
      by eapply lookup_weaken_None.
  - intros (e & ent & He1 & He3 & Hin).
    destruct (coms w2 !! c) as [com|] eqn:Hc2; [|by eapply lookup_weaken_None].
    apply (H23 c); [by rewrite Hc2|].
    destruct (ents w2 !! e) as [ent2|] eqn:He2.
    + exists e, ent2. split_and!; [done|done|].
      pose proof (lookup_weaken _ _ _ _ He2 He12) as He1'. congruence.
    + assert (coms w2 !! c = None) as Habs by (apply (H12 c Hc1); eauto).
      congruence.
Qed.

(** A destructor that touches nothing but its own component: the
    entities, the manager, the registry and every other component are as
    before. *)
Definition local_dtor c (f : World Args → World Args) : Prop :=
  ∀ w, statics (f w) = statics w ∧ ents (f w) = ents w ∧ manager (f w) = manager w
       ∧ ∀ c', c' ≠ c → coms (f w) !! c' = coms w !! c'.

Lemma local_dtor_keeps_entities c f : local_dtor c f → keeps_entities f.
Proof. intros Hf w. destruct (Hf w) as (? & ? & ? & _). done. Qed.

Section Local.

Hypothesis dtor_local : ∀ c, local_dtor c (body Dtor c).

(** Deleting a component whose destructor is local leaves the world
    without that component, whatever the destructor did to it. *)
Lemma delete_component_local c w :
  delete_component body c w
  = Done (tt, set_coms (delete c (coms w)) w, [HookCall Dtor c]).
Proof.
  rewrite delete_component_run. do 3 f_equal.
  destruct (dtor_local c w) as (Hst & Hen & Hmg & Hco).
  destruct (body Dtor c w) as [s' c' e' m'], w as [s0 c0 e0 m0].
  unfold set_coms. simpl in *. subst. f_equal. apply map_eq. intros x.
  destruct (decide (x = c)) as [->|Hne].
  - by rewrite !lookup_delete_eq.
  - rewrite !lookup_delete_ne by done. by apply Hco.
Qed.

Lemma delete_components_local (cs : list nat) : ∀ w,
  for_each cs (delete_component body) w
  = Done (tt, set_coms (foldl (λ m c, delete c m) (coms w) cs) w, HookCall Dtor <$> cs).
Proof.
  induction cs as [|c cs IH]; intros w; [by destruct w|].
  change (for_each (c :: cs) (delete_component body) w)
    with (bind (delete_component body c)
            (λ _, for_each cs (delete_component body)) w).
  unfold bind. by rewrite delete_component_local, IH.
Qed.

Lemma lookup_foldl_delete (cs : list nat) : ∀ (m : gmap nat (FDS_Component Args)) c,
  foldl (λ m c, delete c m) m cs !! c = if decide (c ∈ cs) then None else m !! c.
Proof.
  induction cs as [|x cs IH]; intros m c; cbn [foldl].
  - by rewrite decide_False by apply not_elem_of_nil.
  - rewrite IH. destruct (decide (c ∈ cs)) as [Hin|Hnin].
    + by rewrite decide_True by (by right).
    + destruct (decide (c = x)) as [->|Hne].
      * rewrite lookup_delete_eq. by rewrite decide_True by (by left).
      * rewrite lookup_delete_ne by done.
        rewrite decide_False; [done|]. by intros [?|?]%elem_of_cons.
Qed.

Lemma delete_entity_frees w e w' t :
  delete_entity body order e w = Done (tt, w', t) → frees w w'.
Proof.
  unfold delete_entity.
  intros (ent0 & w0 & t0 & t1 & Hthis & Hk & _)%bind_Done.
  unfold this in Hthis. destruct (ents w !! e) as [ent|] eqn:He; [|done].
  injection Hthis as <- <- <-.
  apply bind_Done in Hk as ([] & w1 & t2 & t3 & Hcs & Hdel & _).
  rewrite delete_components_local in Hcs. injection Hcs as <- <-.
  injection Hdel as <- <-.
  assert (∀ c, c ∈ order nat (m_components ent) ↔ c ∈ m_components ent) as Hperm.
  { intros c. by rewrite (order_permutation nat (m_components ent)). }
  split_and!; simpl.
  - apply delete_subseteq.
  - apply map_subseteq_spec. intros c com. rewrite lookup_foldl_delete.
    by case_decide.
  - done.
  - intros c [com Hc]. rewrite lookup_foldl_delete, Hc. split.
    + case_decide as Hin; [|done]. intros _. exists e, ent.
      split_and!; [done|apply lookup_delete_eq|by apply Hperm].
    + intros (e' & ent' & He' & Hn & Hin).
      destruct (decide (e' = e)) as [->|Hne].
      * rewrite He in He'. injection He' as <-.
        by rewrite decide_True by (by apply Hperm).
      * rewrite lookup_delete_ne in Hn by done. congruence.
Qed.

Lemma release_frees w u w' t :
  release body order u w = Done (tt, w', t) → frees w w'.
Proof.
  destruct u as [e|]; simpl.
  - apply delete_entity_frees.
  - intros [= <- <-]. apply frees_refl.
Qed.

Lemma move_assign_frees first i (v : list (option nat)) w v' w' t :
  move_assign body order first i v w = Done (v', w', t) → frees w w'.
Proof.
  unfold move_assign. destruct (v !! first) as [old|]; [|done].
  destruct (v !! i) as [src|]; [|done].
  intros (a & w1 & t1 & t2 & Hrel & Hret & _)%bind_Done.
  injection Hret as _ <- _. destruct a. by eapply release_frees.
Qed.

Lemma remove_if_loop_frees n : ∀ i first (v : list (option nat)) w r w' t,
  remove_if_loop body order n i first v w = Done (r, w', t) → frees w w'.
Proof.
  induction n as [|n IH]; intros i first v w r w' t; simpl.
  - intros [= _ <- _]. apply frees_refl.
  - destruct (v !! i) as [u|]; [|done].
    intros (b & w1 & t1 & t2 & Hb & Hk & _)%bind_Done.
    apply is_inactive_same in Hb as [-> _]. destruct b.
    + by eapply IH.
    + apply bind_Done in Hk as (v' & w2 & t3 & t4 & Hmv & Hloop & _).
      eapply frees_trans; [by eapply move_assign_frees|by eapply IH].
Qed.

Lemma for_each_release_frees (l : list (option nat)) : ∀ w w' t,
  for_each l (release body order) w = Done (tt, w', t) → frees w w'.
Proof.
  induction l as [|u l IH]; intros w w' t; simpl.
  - intros [= <- _]. apply frees_refl.
  - intros ([] & w1 & t1 & t2 & Hrel & Hrest & _)%bind_Done.
    eapply frees_trans; [by eapply release_frees|by eapply IH].
Qed.

(** Whatever [refresh] deletes, it deletes entity by entity, each with its
    components. *)
Lemma refresh_frees w w' t : refresh body order w = Done (tt, w', t) → frees w w'.
Proof.
  unfold refresh.
  intros (r & w1 & t1 & t2 & Hrem & Hk & _)%bind_Done.
  apply bind_Done in Hk as (v & w2 & t3 & t4 & Her & Hset & _).
  injection Hset as <- _.
  assert (frees w w1) as H1.
  { unfold remove_if in Hrem.
    apply bind_Done in Hrem as (first & w0 & t5 & t6 & Hfind & Hloop & _).
    apply find_if_same in Hfind as [-> _]. case_decide.
    - injection Hloop as _ <- _. apply frees_refl.
    - by eapply remove_if_loop_frees. }
  assert (frees w1 w2) as H2.
  { unfold erase_to_end in Her.
    apply bind_Done in Her as ([] & w3 & t5 & t6 & Hfor & Hret & _).
    injection Hret as _ <- _. by eapply for_each_release_frees. }
  destruct (frees_trans _ _ _ H1 H2) as (? & ? & ? & ?).
  by split_and!.
Qed.

End Local.

Lemma frees_well_owned w w' : frees w w' → well_owned w → well_owned w'.
Proof.
  intros (He & Hc & _ & Hfree) Hw e ent Hent.
  pose proof (lookup_weaken _ _ _ _ Hent He) as Hent0.
  destruct (Hw e ent Hent0) as [Hnd Hown]. split; [done|].
  intros c Hin. destruct (Hown c Hin) as (com & Hcom & Ho).
  exists com. split; [|done].
  destruct (coms w' !! c) as [com'|] eqn:Hc'.
  - pose proof (lookup_weaken _ _ _ _ Hc' Hc). congruence.
  - destruct (proj1 (Hfree c ltac:(by rewrite Hcom)) Hc')
      as (e' & ent' & He' & Hn & Hin').
    destruct (Hw e' ent' He') as [_ Hown'].
    destruct (Hown' c Hin') as (com2 & Hcom2 & Ho2).
    assert (e' = e) by congruence. subst. congruence.
Qed.

Lemma well_owned_init : well_owned (@world_init Args).
Proof. intros e ent He. simpl in He. by rewrite lookup_empty in He. Qed.

Lemma well_owned_addEntity w e w' t :
  well_owned w → addEntity w = Done (e, w', t) → well_owned w'.
Proof.
  intros Hw. rewrite addEntity_run. intros [= <- <- <-] e' ent'. simpl.
  destruct (decide (e' = fresh (dom (ents w)))) as [->|Hne].
  - rewrite lookup_insert_eq. intros [= <-]. simpl. split; [constructor|].
    intros c Hc. by apply elem_of_nil in Hc.
  - rewrite lookup_insert_ne by done. apply Hw.
Qed.

Lemma well_owned_destroy w e ent w' t :
  well_owned w → ents w !! e = Some ent → destroy e w = Done (tt, w', t) →
  well_owned w'.
Proof.
  intros Hw He. rewrite (destroy_run _ _ _ He). intros [= <- <-] e' ent'. simpl.
  destruct (decide (e' = e)) as [->|Hne].
  - rewrite lookup_insert_eq. intros [= <-]. simpl. exact (Hw e ent He).
  - rewrite lookup_insert_ne by done. apply Hw.
Qed.

(** In a well-owned world the address of a new component is in no vector. *)
Lemma fresh_component_unowned w e ent :
  well_owned w → ents w !! e = Some ent → fresh (dom (coms w)) ∉ m_components ent.
Proof.
  intros Hw He Hin. destruct (Hw _ _ He) as [_ Hown].
  destruct (Hown _ Hin) as (com & Hcom & _). by rewrite fresh_component in Hcom.
Qed.

Lemma well_owned_before_init w T args e ent i :
  well_owned w → ents w !! e = Some ent →
  well_owned (before_init T args e ent i w).
Proof.
  intros Hw He e' ent'. simpl.
  destruct (decide (e' = e)) as [->|Hne].
  - rewrite lookup_insert_eq. intros [= <-]. simpl.
    destruct (Hw _ _ He) as [Hnd Hown]. split.
    + apply NoDup_app. split_and!; [done| |apply NoDup_singleton].
      intros x Hx ->%list_elem_of_singleton.
      by eapply fresh_component_unowned.
    + intros x [Hx| ->%list_elem_of_singleton]%elem_of_app.
      * destruct (Hown x Hx) as (com & Hcom & Ho). exists com. split; [|done].
        rewrite lookup_insert_ne; [done|]. intros <-.
        by eapply fresh_component_unowned.
      * eexists. split; [apply lookup_insert_eq|done].
  - rewrite lookup_insert_ne by done. intros He'.
    destruct (Hw _ _ He') as [Hnd Hown]. split; [done|].
    intros x Hx. destruct (Hown x Hx) as (com & Hcom & Ho). exists com.
    split; [|done]. rewrite lookup_insert_ne; [done|]. intros <-.
    by eapply fresh_component_unowned.
Qed.


(** X9.  Exclusive ownership of components is an invariant of the entity
    API.  The world at program start has it; [addEntity()] and [destroy()]
    keep it; [addComponent<T>()] allocates an address that was not in use,
    and at the call of [init()] the new component points back to its
    entity, is owned by that entity alone, and every entity still owns its
    components exclusively. *)
Theorem X9_exclusive_ownership w :
  well_owned w →
  well_owned (@world_init Args)
  ∧ (∃ e w', addEntity w = Done (e, w', []) ∧ well_owned w')
  ∧ (∀ e ent, ents w !! e = Some ent →
       ∃ w', destroy e w = Done (tt, w', []) ∧ well_owned w')
  ∧ (∀ T args e ent,
       ents w !! e = Some ent →
       (getComTypeID_T T (statics w)).1 < FDS_MAX_COM →
       ∃ c w0,
         addComponent body T args e w = Done (c, body Init c w0, [HookCall Init c])
         ∧ coms w !! c = None
         ∧ coms w0 !! c = Some {| owner := Some e; dyn_type := T; state := args |}
         ∧ (∀ e' ent', ents w0 !! e' = Some ent' → c ∈ m_components ent' → e' = e)
         ∧ well_owned w0).
Proof.
  intros Hw. split_and!.
  - apply well_owned_init.
  - eexists _, _. split; [apply addEntity_run|].
    eapply well_owned_addEntity; [done|apply addEntity_run].
  - intros e ent He. eexists. split; [by apply destroy_run|].
    eapply well_owned_destroy; [done|done|by apply destroy_run].
  - intros T args e ent He Hlt.
    destruct (slot_index_Some _ Hlt) as (i & Hi & Hfin).
    pose proof (well_owned_before_init w T args e ent i Hw He) as Hw0.
    exists (fresh (dom (coms w))), (before_init T args e ent i w).
    split_and!.
    + by apply addComponent_run.
    + apply fresh_component.
    + simpl. apply lookup_insert_eq.
    + intros e' ent' He' Hin.
      destruct (Hw0 e' ent' He') as [_ Hown].
      destruct (Hown _ Hin) as (com & Hcom & Ho).
      simpl in Hcom. rewrite lookup_insert_eq in Hcom.
      injection Hcom as <-. simpl in Ho. congruence.
    + done.
Qed.

(** **** Dispatch after [refresh] *)

Lemma fan_out_ext h w w' (es : list nat) :
  (∀ e, e ∈ es → components_of w' e = components_of w e) →
  fan_out h w' es = fan_out h w es.
Proof.
  induction es as [|e es IH]; intros Hsame; [done|].
  unfold fan_out. rewrite !fmap_cons. simpl concat.
  rewrite (Hsame e) by (by left). do 2 f_equal. apply IH.
  intros e' He'. apply Hsame. by right.
Qed.

Lemma elem_of_fan_out h w (es : list nat) ev :
  ev ∈ fan_out h w es
  ↔ ∃ e, e ∈ es ∧ (ev = EntityCall h e
                   ∨ ∃ c, c ∈ components_of w e ∧ ev = HookCall h c).
Proof.
  induction es as [|e es IH].
  - split; [by intros ?%elem_of_nil|]. by intros (e & ?%elem_of_nil & _).
  - unfold fan_out. rewrite fmap_cons. simpl concat.
    rewrite elem_of_cons, elem_of_app, list_elem_of_fmap.
    change (concat _) with (fan_out h w es). rewrite IH. split.
    + intros [->|[(c & -> & Hc)|(e' & He' & Hev)]].
      * exists e. split; [by left|by left].
      * exists e. split; [by left|]. right. by exists c.
      * exists e'. split; [by right|done].
    + intros (e' & [->|He']%elem_of_cons & Hev).
      * destruct Hev as [->|(c & Hc & ->)]; [by left|]. right. left. by exists c.
      * right. right. by exists e'.
Qed.

(** The entities the manager still holds once [e] was destroyed and the
    manager refreshed. *)
Definition others w (es : list nat) e : list nat :=
  filter (λ x, x ≠ e) (survivors w es).

Lemma destroy_refresh w (es : list nat) e :
  (∀ c, keeps_entities (body Dtor c)) →
  owns w es → e ∈ es →
  ∃ w1 w2 t,
    destroy e w = Done (tt, w1, [])
    ∧ refresh body order w1 = Done (tt, w2, t)
    ∧ owns w2 (others w es e)
    ∧ ents w2 !! e = None
    ∧ (∀ x, x ∈ others w es e → ents w2 !! x = ents w !! x)
    ∧ (∀ ev, ev ∈ t ↔
         ∃ x ent c, x ∈ es ∧ (x = e ∨ active w x = false) ∧ ents w !! x = Some ent
                    ∧ c ∈ m_components ent ∧ ev = HookCall Dtor c).
Proof.
  intros Hdtor (Hm & Hnd & Hlive) He. destruct (Hlive e He) as [ent Hent].
  pose proof (destroy_run w e ent Hent) as Hd.
  set (w1 := set_ents _ w) in Hd.
  assert (∀ x, active w1 x = if decide (x = e) then false else active w x) as Hact.
  { intros x. unfold active, w1. simpl. case_decide as Hx.
    - subst x. by rewrite lookup_insert_eq.
    - by rewrite lookup_insert_ne. }
  assert (∀ x, x ≠ e → ents w1 !! x = ents w !! x) as Hother.
  { intros x Hx. unfold w1. simpl. by rewrite lookup_insert_ne. }
  assert (survivors w1 es = others w es e) as Hsurv.
  { unfold others, survivors. rewrite list_filter_filter. apply list_filter_iff.
    intros x. rewrite Hact. case_decide; [|tauto]. split; [done|tauto]. }
  destruct (refresh_run body order order_permutation Hdtor w1 es)
    as (w2 & t & Hr & Hm2 & _ & Hents & Ht & _).
  { done. }
  { done. }
  { intros x Hx. destruct (decide (x = e)) as [->|Hne].
    - unfold w1. simpl. rewrite lookup_insert_eq. eauto.
    - rewrite Hother by done. by apply Hlive. }
  assert (∀ x, x ∈ others w es e → ents w2 !! x = ents w !! x) as Hkept.
  { intros x [Hne [Ha Hx]%list_elem_of_filter]%list_elem_of_filter.
    rewrite Hents, decide_False, Hother; [done|done|].
    rewrite elem_of_dead, Hact, decide_False by done. intros [_ Hf]. congruence. }
  exists w1, w2, t. split_and!; [done|done| | |done|].
  - split_and!.
    + by rewrite Hm2, Hsurv.
    + unfold others, survivors. by do 2 apply NoDup_filter.
    + intros x Hx. rewrite (Hkept x Hx).
      apply list_elem_of_filter in Hx as [_ [_ Hx]%list_elem_of_filter].
      by apply Hlive.
  - rewrite Hents, decide_True; [done|]. apply elem_of_dead. split; [done|].
    by rewrite Hact, decide_True.
  - intros ev. rewrite Ht. split.
    + intros (x & entx & c & Hx & Ha & Hentx & Hc & ->).
      rewrite Hact in Ha. destruct (decide (x = e)) as [->|Hne].
      * exists e, ent, c. split_and!; [done|by left|done| |done].
        unfold w1 in Hentx. simpl in Hentx. rewrite lookup_insert_eq in Hentx.
        by injection Hentx as <-.
      * exists x, entx, c. rewrite Hother in Hentx by done.
        split_and!; [done|by right|done|done|done].
    + intros (x & entx & c & Hx & Ha & Hentx & Hc & ->).
      destruct (decide (x = e)) as [->|Hne].
      * eexists e, _, c. split_and!; [done| |apply lookup_insert_eq| |done].
        -- by rewrite Hact, decide_True.
        -- simpl. congruence.
      * exists x, entx, c. rewrite Hother by done.
        split_and!; [done| |done|done|done].
        rewrite Hact, decide_False by done. by destruct Ha.
Qed.



(** **** What [addComponent] and the queries leave alone *)

(** The result of a computation, without the world and the calls. *)
Definition value_of {A} (o : outcome (A * World Args * list Event)) : outcome A :=
  match o with
  | Done (a, _, _) => Done a
  | Undefined f => Undefined f
  end.

Lemma registered_ids_distinct (seen : list nat) r T U idU :
  reg_inv seen r → N.of_nat (length seen) < SIZE_MOD →
  typeID r !! U = Some idU → U ≠ T →
  (getComTypeID_T T r).1 ≠ idU
  ∧ typeID (getComTypeID_T T r).2 !! U = Some idU.
Proof.
  intros (Hnd & Hlast & Hmap) Hlen HU Hne.
  destruct (proj1 (Hmap U idU) HU) as (kU & HkU & ->).
  pose proof (lookup_lt_Some _ _ _ HkU) as HltU.
  assert (nth_id kU = N.of_nat kU) as HidU by (apply nth_id_small; lia).
  destruct (typeID r !! T) as [idT|] eqn:HT.
  - rewrite (getComTypeID_T_known _ _ _ HT). simpl. split; [|by apply Hmap; eauto].
    destruct (proj1 (Hmap T idT) HT) as (kT & HkT & ->).
    pose proof (lookup_lt_Some _ _ _ HkT) as HltT.
    rewrite HidU, (nth_id_small kT) by lia. intros Heq.
    assert (kT = kU) as -> by lia. congruence.
  - unfold getComTypeID_T, getComTypeID. rewrite HT. simpl. split.
    + rewrite Hlast, HidU, (nth_id_small (length seen)) by lia. lia.
    + rewrite lookup_insert_ne by done. apply Hmap. eauto.
Qed.

(** X12.  [addComponent<T>()] on entity [e], up to its call of [init()],
    touches nothing but the new component, the entity [e] and the identifier
    of [T]: every other component and entity is as before, the manager is
    as before, the active flag of [e] is as before, and for every other
    registered type [U] the identifier is unchanged and [hasComponent<U>()]
    and [getComponent<U>()] on [e] give the result they gave before.  (The
    statics hold the identifiers of the types [seen], fewer than [2^64].) *)
Theorem X12_addComponent_frame w (seen : list nat) T args e ent :
  reg_inv seen (statics w) → N.of_nat (length seen) < SIZE_MOD →
  ents w !! e = Some ent →
  (getComTypeID_T T (statics w)).1 < FDS_MAX_COM →
  ∃ c w0,
    addComponent body T args e w = Done (c, body Init c w0, [HookCall Init c])
    ∧ coms w !! c = None
    ∧ (∀ c', c' ≠ c → coms w0 !! c' = coms w !! c')
    ∧ (∀ e', e' ≠ e → ents w0 !! e' = ents w !! e')
    ∧ manager w0 = manager w
    ∧ active w0 e = active w e
    ∧ (∀ U id, U ≠ T → typeID (statics w) !! U = Some id →
         typeID (statics w0) !! U = Some id
         ∧ value_of (hasComponent U e w0) = value_of (hasComponent U e w)
         ∧ value_of (getComponent U e w0) = value_of (getComponent U e w)).
Proof.
  intros Hreg Hlen He Hlt.
  destruct (slot_index_Some _ Hlt) as (i & Hi & Hfin).
  exists (fresh (dom (coms w))), (before_init T args e ent i w). split_and!.
  - by apply addComponent_run.
  - apply fresh_component.
  - intros c' Hc'. simpl. by rewrite lookup_insert_ne.
  - intros e' He'. simpl. by rewrite lookup_insert_ne.
  - done.
  - unfold active. simpl. by rewrite lookup_insert_eq, He.
  - intros U id HU Hid.
    destruct (registered_ids_distinct seen _ T U id Hreg Hlen Hid HU) as [Hne Hid0].
    split; [exact Hid0|].
    unfold hasComponent, getComponent, bind.
    rewrite (typeId_known U w id Hid).
    rewrite (typeId_known U (before_init T args e ent i w) id Hid0).
    unfold this. simpl ents. rewrite lookup_insert_eq, He. split.
    + case_decide; [|done]. unfold ret. simpl.
      by rewrite N.setbit_neq.
    + cbn [m_comArray]. rewrite vec_to_list_insert.
      rewrite list_lookup_insert_ne by (rewrite Hfin; intros Heq; apply Hne; lia).
      by destruct (vec_to_list (m_comArray ent) !! N.to_nat id) as [[c'|]|].
Qed.

(** X13.  [hasComponent<T>()] and [getComponent<T>()] are [const] members
    but not pure: the first query of a type never used before registers it,
    taking the next identifier of the counter.  They change nothing else:
    entities, components and the manager are as before, a type already
    registered leaves the whole world as it was, and asking again gives the
    same answer and changes nothing. *)
Theorem X13_queries_register_types w T e ent :
  ents w !! e = Some ent →
  (getComTypeID_T T (statics w)).1 < FDS_MAX_COM →
  ∃ b w1,
    hasComponent T e w = Done (b, w1, [])
    ∧ hasComponent T e w1 = Done (b, w1, [])
    ∧ value_of (getComponent T e w1) = value_of (getComponent T e w)
    ∧ world_of (getComponent T e w1) = world_of (getComponent T e w)
    ∧ ents w1 = ents w ∧ coms w1 = coms w ∧ manager w1 = manager w
    ∧ (is_Some (typeID (statics w) !! T) → w1 = w)
    ∧ (typeID (statics w) !! T = None →
         typeID (statics w1) = <[T := lastID (statics w)]> (typeID (statics w))
         ∧ lastID (statics w1) = (lastID (statics w) + 1) mod SIZE_MOD).
Proof.
  intros He Hlt.
  exists (N.testbit (m_comBitSet ent) (getComTypeID_T T (statics w)).1),
    (set_statics (getComTypeID_T T (statics w)).2 w).
  set (w1 := set_statics _ w).
  assert (ents w1 !! e = Some ent) as He1 by done.
  assert (getComTypeID_T T (statics w1)
          = ((getComTypeID_T T (statics w)).1, (getComTypeID_T T (statics w)).2)) as Hagain
    by apply getComTypeID_T_again.
  assert (set_statics (getComTypeID_T T (statics w)).2 w1 = w1) as Hsame
    by (by destruct w).
  split_and!.
  - by apply hasComponent_run.
  - rewrite (hasComponent_run w1 T e ent He1) by (by rewrite Hagain).
    rewrite Hagain. cbn [fst snd]. by rewrite Hsame.
  - rewrite (getComponent_run w1 T e ent He1), (getComponent_run w T e ent He), Hagain.
    cbn [fst snd]. by destruct (vec_to_list (m_comArray ent) !! _) as [[c'|]|].
  - rewrite (getComponent_run w1 T e ent He1), (getComponent_run w T e ent He), Hagain.
    cbn [fst snd]. destruct (vec_to_list (m_comArray ent) !! _) as [[c'|]|]; [|done|done].
    cbn [world_of]. by rewrite Hsame.
  - done.
  - done.
  - done.
  - intros [id Hid]. unfold w1. rewrite (getComTypeID_T_known _ _ _ Hid). simpl.
    apply set_statics_same.
  - intros Hnone. unfold w1, getComTypeID_T, getComTypeID. rewrite Hnone. done.
Qed.

End Lifecycle.

(** A check of [well_owned] by evaluation. *)
Definition well_ownedb {Args} (w : World Args) : bool :=
  forallb (λ p : nat * FDS_Entity,
    bool_decide (NoDup (m_components p.2))
    && forallb (λ c, match coms w !! c with
                     | Some com => bool_decide (owner com = Some p.1)
                     | None => false
                     end) (m_components p.2))
    (map_to_list (ents w)).

Lemma well_ownedb_sound {Args} (w : World Args) :
  well_ownedb w = true → well_owned w.
Proof.
  unfold well_ownedb. rewrite forallb_forall. intros Hall e ent He.
  specialize (Hall (e, ent)). simpl in Hall.
  destruct (andb_prop _ _ (Hall (proj1 (list_elem_of_In _ _)
                                   (proj2 (elem_of_map_to_list _ _ _) He))))
    as [Hnd Hown].
  split; [by apply bool_decide_eq_true in Hnd|].
  rewrite forallb_forall in Hown. intros c Hc.
  specialize (Hown c (proj1 (list_elem_of_In _ _) Hc)).
  destruct (coms w !! c) as [com|]; [|done].
  exists com. split; [done|]. by apply bool_decide_eq_true in Hown.
Qed.

Lemma demo_well_owned : well_owned demo.
Proof. apply well_ownedb_sound. vm_compute. reflexivity. Qed.

Lemma demo_owns : owns demo [0; 1; 2]%nat.
Proof. split; [exact demo_manager|]. split; [exact demo_NoDup|exact demo_live]. Qed.

(** The statics of the concrete run hold the types 5 and 6. *)
Lemma demo_registry : reg_inv [5; 6]%nat (statics demo).
Proof.
  change (statics demo) with (calls [5; 6]%nat registry_init).2.
  exact (proj1 (calls_spec [5; 6]%nat [] registry_init reg_inv_init)).
Qed.

Lemma default_local_dtor {Args} h c : local_dtor c (@default_body Args h c).
Proof. by intros w. Qed.


(** The concrete run: one more entity. *)
Lemma X9_exclusive_ownership_witness :
  well_owned demo
  ∧ ∃ e w', addEntity demo = Done (e, w', []) ∧ well_owned w'.
Proof.
  split; [exact demo_well_owned|].
  exact (proj1 (proj2 (X9_exclusive_ownership default_body demo demo_well_owned))).
Defined.



(** The concrete run: a component of the new type 7 for entity 0, which
    has components of the types 5 and 6. *)
Lemma X12_addComponent_frame_witness :
  reg_inv [5; 6]%nat (statics demo)
  ∧ N.of_nat (length [5; 6]%nat) < SIZE_MOD
  ∧ ents demo !! 0%nat = Some demo_e0
  ∧ (getComTypeID_T 7%nat (statics demo)).1 < FDS_MAX_COM
  ∧ ∃ c w0,
      addComponent default_body 7%nat tt 0%nat demo
      = Done (c, default_body Init c w0, [HookCall Init c])
      ∧ value_of (getComponent 5%nat 0%nat w0) = value_of (getComponent 5%nat 0%nat demo).
Proof.
  assert (N.of_nat (length [5; 6]%nat) < SIZE_MOD) as Hlen by (vm_compute; reflexivity).
  assert ((getComTypeID_T 7%nat (statics demo)).1 < FDS_MAX_COM) as Hlt
    by (vm_compute; reflexivity).
  assert (typeID (statics demo) !! 5%nat = Some 0) as H5 by (vm_compute; reflexivity).
  split; [exact demo_registry|]. split; [exact Hlen|].
  split; [exact demo_entity_0|]. split; [exact Hlt|].
  destruct (X12_addComponent_frame default_body demo [5; 6]%nat 7%nat tt 0%nat demo_e0
              demo_registry Hlen demo_entity_0 Hlt)
    as (c & w0 & Hrun & _ & _ & _ & _ & _ & Hframe).
  exists c, w0. split; [exact Hrun|].
  exact (proj2 (proj2 (Hframe 5%nat 0 ltac:(lia) H5))).
Defined.

(** The concrete run: entity 2 is asked for the type 7, never used before. *)
Lemma X13_queries_register_types_witness :
  ents demo !! 2%nat = Some Entity_new
  ∧ (getComTypeID_T 7%nat (statics demo)).1 < FDS_MAX_COM
  ∧ ∃ b w1, hasComponent 7%nat 2%nat demo = Done (b, w1, [])
            ∧ hasComponent 7%nat 2%nat w1 = Done (b, w1, [])
            ∧ ents w1 = ents demo.
Proof.
  assert (ents demo !! 2%nat = Some Entity_new) as He by (vm_compute; reflexivity).
  assert ((getComTypeID_T 7%nat (statics demo)).1 < FDS_MAX_COM) as Hlt
    by (vm_compute; reflexivity).
  split; [exact He|]. split; [exact Hlt|].
  destruct (X13_queries_register_types demo 7%nat 2%nat Entity_new He Hlt)
    as (b & w1 & H1 & H2 & _ & _ & H3 & _).
  exists b, w1. split; [exact H1|]. split; [exact H2|exact H3].
Defined.

End ECS.

(** ** The signal utility, [fds::Signal] *)

Module Signal.

(** [std::size_t] arithmetic wraps at [2^64]. *)
Definition SIZE_MOD : N := 2 ^ 64.

(** [class Signal]: [slots_] is a [std::unordered_map<std::size_t, SlotData>],
    kept here as the list of its entries in the container's iteration order
    (keys are unique); a slot is named by a tag, its code is a parameter
    below.  [next_id_] is the last identifier handed out. *)
Record Signal : Type := mkSignal {
  slots_ : list (N * nat);
  next_id_ : N
}.

(** [Signal() = default]. *)
Definition Signal_new : Signal := {| slots_ := []; next_id_ := 0 |}.

(** [class Connection]: whether [sig_] is non-null, and [id_]. *)
Record Connection : Type := mkConnection {
  sig_ : bool;
  id_ : N
}.

(** A call of a slot made by [emit]: the identifier looked up, the code
    found under it and the arguments handed to it. *)
Inductive Event (Args : Type) : Type :=
  | Invoke (id : N) (slot : nat) (args : Args).
Arguments Invoke {Args} id slot args.

Definition event_id {Args} (ev : Event Args) : N :=
  match ev with Invoke id _ _ => id end.

(** The entry of the container that a call went to. *)
Definition callee {Args} (ev : Event Args) : N * nat :=
  match ev with Invoke id slot _ => (id, slot) end.

(** [slots_.find(id)]. *)
Fixpoint find (id : N) (l : list (N * nat)) : option nat :=
  match l with
  | [] => None
  | (k, slot) :: l' => if decide (k = id) then Some slot else find id l'
  end.

(** [slots_.erase(id)]: the other entries keep their relative order. *)
Definition erase (id : N) (l : list (N * nat)) : list (N * nat) :=
  filter (λ p, p.1 ≠ id) l.

Section Signals.

(** The arguments of an emission. *)
Context {Args : Type}.

(** Where [std::unordered_map::emplace] puts a new entry in the iteration
    order, which the standard leaves unspecified: [place l x] is the order
    after [x] joined the entries [l]. *)
Variable place : list (N * nat) → N * nat → list (N * nat).
Hypothesis place_permutation : ∀ l x, place l x ≡ₚ x :: l.

(** The code of a slot: [run slot args s] is the signal after the callback
    ran on signal [s] with the arguments [args], and what the call left of
    the parameters of [emit].  The call is
    [it->second.slot(std::forward<Args>(args)...)]: a parameter of object
    type is handed over as an rvalue and moved from, a parameter of
    reference type is handed over as it is, and a callback can write through
    it when it is not a reference to const. *)
Variable run : nat → Args → Signal → Signal * Args.

(** [slots_.emplace(id, SlotData{slot})]: nothing happens when the key is
    taken. *)
Definition emplace (id : N) (slot : nat) (l : list (N * nat)) : list (N * nat) :=
  match find id l with
  | Some _ => l
  | None => place l (id, slot)
  end.

(** [Connection connect(Slot slot)]:
    [const std::size_t id = ++next_id_; slots_.emplace(id, ...); return Connection(this, id);] *)
Definition connect (slot : nat) (s : Signal) : Connection * Signal :=
  let id := (next_id_ s + 1) mod SIZE_MOD in
  ({| sig_ := true; id_ := id |},
   {| slots_ := emplace id slot (slots_ s); next_id_ := id |}).

(** [void disconnect(std::size_t id) { slots_.erase(id); }] *)
Definition disconnect (id : N) (s : Signal) : Signal :=
  {| slots_ := erase id (slots_ s); next_id_ := next_id_ s |}.

(** [void disconnect_all() { slots_.clear(); }] *)
Definition disconnect_all (s : Signal) : Signal :=
  {| slots_ := []; next_id_ := next_id_ s |}.

(** [Connection::connected()]. *)
Definition connected (c : Connection) (s : Signal) : bool :=
  sig_ c && bool_decide (is_Some (find (id_ c) (slots_ s))).

(** [Connection::disconnect()]. *)
Definition Connection_disconnect (c : Connection) (s : Signal) : Connection * Signal :=
  if sig_ c then ({| sig_ := false; id_ := 0 |}, disconnect (id_ c) s)
  else (c, s).

(** The second loop of [emit]:
    [for (auto id : ids) { auto it = slots_.find(id); if (it != slots_.end()) it->second.slot(std::forward<Args>(args)...); }]
    An identifier that is not found is passed over and the loop goes on
    with the next one; after a call, the loop goes on with the signal and
    the arguments as the call left them.  The result is the signal, the
    arguments and the calls made. *)
Fixpoint emit_loop (ids : list N) (args : Args) (s : Signal)
    : Signal * Args * list (Event Args) :=
  match ids with
  | [] => (s, args, [])
  | id :: ids' =>
    match find id (slots_ s) with
    | Some slot =>
      let '(s1, args1) := run slot args s in
      let '(s', args', t) := emit_loop ids' args1 s1 in
      (s', args', Invoke id slot args :: t)
    | None => emit_loop ids' args s
    end
  end.

(** [void emit(Args... args)]: first [ids] collects the keys of [slots_] in
    iteration order, then the loop above runs over [ids]; the parameters
    end with the call. *)
Definition emit (args : Args) (s : Signal) : Signal * list (Event Args) :=
  let '(s', _, t) := emit_loop (slots_ s).*1 args s in (s', t).

(** Connecting the slots [ts] one after the other. *)
Fixpoint connect_all (ts : list nat) (s : Signal) : Signal :=
  match ts with
  | [] => s
  | slot :: ts' => connect_all ts' (connect slot s).2
  end.

(** The entries in registration order for the slots [ts] connected to a new
    signal: identifiers 1, 2, ... *)
Definition in_registration_order (ts : list nat) : list (N * nat) :=
  imap (λ i slot, (N.of_nat (S i), slot)) ts.

(** The signal after the calls [t] were made one after the other. *)
Definition replay (t : list (Event Args)) (s : Signal) : Signal :=
  foldl (λ s0 ev, match ev with Invoke _ slot a => (run slot a s0).1 end) s t.

(** Every call of [t] runs the code found under its identifier in the
    signal as the calls before it left it, and is given the arguments as
    the calls before it left them; the first one is given [a] on [s]. *)
Fixpoint chained (a : Args) (s : Signal) (t : list (Event Args)) : Prop :=
  match t with
  | [] => True
  | Invoke id slot a' :: t' =>
    a' = a ∧ find id (slots_ s) = Some slot
    ∧ chained (run slot a s).2 (run slot a s).1 t'
  end.

(** The values that the parameters of an emission started with [args] can
    take: [args], and what a call leaves of such a value. *)
Inductive passed (args : Args) : Args → Prop :=
  | passed_first : passed args args
  | passed_next a slot s : passed args a → passed args (run slot a s).2.

(** Callbacks that disconnect nothing: every connected slot is still
    connected, with the same code, after a callback ran. *)
Definition keeps_connections (args : Args) : Prop :=
  ∀ slot a s id sl,
    passed args a →
    find id (slots_ s) = Some sl → find id (slots_ (run slot a s).1) = Some sl.

(** *** Properties of [emit] *)

Lemma find_Some_elem id l slot : find id l = Some slot → (id, slot) ∈ l.
Proof.
  induction l as [|[k sl] l IH]; simpl; [done|].
  case_decide as Hk.
  - intros [= ->]. subst k. by left.
  - intros Hf. right. by apply IH.
Qed.

Lemma find_None_notin id l : find id l = None → id ∉ l.*1.
Proof.
  induction l as [|[k sl] l IH]; simpl; [intros _; apply not_elem_of_nil|].
  case_decide as Hk; [done|]. intros Hf.
  apply not_elem_of_cons. split; [done|by apply IH].
Qed.

Lemma find_head id slot l : find id ((id, slot) :: l) = Some slot.
Proof. simpl. by rewrite decide_True. Qed.

Lemma find_app_l id l1 l2 slot :
  find id l1 = Some slot → find id (l1 ++ l2) = Some slot.
Proof.
  induction l1 as [|[k sl] l1 IH]; simpl; [done|].
  case_decide; [done|]. apply IH.
Qed.

(** The entries after [connect] are the new entry and the previous ones, in
    some order, when the identifier was free. *)
Lemma connect_entries slot s :
  find ((next_id_ s + 1) mod SIZE_MOD) (slots_ s) = None →
  slots_ (connect slot s).2 ≡ₚ ((next_id_ s + 1) mod SIZE_MOD, slot) :: slots_ s.
Proof.
  intros Hfree. unfold connect, emplace. simpl. rewrite Hfree.
  apply place_permutation.
Qed.

(** One turn of the loop, for an identifier that is found. *)
Lemma emit_loop_found id (ids : list N) a s slot :
  find id (slots_ s) = Some slot →
  emit_loop (id :: ids) a s
  = ((emit_loop ids (run slot a s).2 (run slot a s).1).1,
     Invoke id slot a :: (emit_loop ids (run slot a s).2 (run slot a s).1).2).
Proof.
  intros Hf. simpl. rewrite Hf. destruct (run slot a s) as [s1 a1]. simpl.
  by destruct (emit_loop ids a1 s1) as [[s' a'] t].
Qed.

(** One turn of the loop, for an identifier that is gone. *)
Lemma emit_loop_gone id (ids : list N) a s :
  find id (slots_ s) = None → emit_loop (id :: ids) a s = emit_loop ids a s.
Proof. intros Hf. simpl. by rewrite Hf. Qed.

Lemma emit_eq args s :
  emit args s
  = ((emit_loop (slots_ s).*1 args s).1.1, (emit_loop (slots_ s).*1 args s).2).
Proof. unfold emit. by destruct (emit_loop (slots_ s).*1 args s) as [[s' a'] t]. Qed.

(** The loop over two lists of identifiers, one after the other. *)
Lemma emit_loop_app (pre post : list N) : ∀ a s,
  emit_loop (pre ++ post) a s
  = ((emit_loop post (emit_loop pre a s).1.2 (emit_loop pre a s).1.1).1,
     (emit_loop pre a s).2
     ++ (emit_loop post (emit_loop pre a s).1.2 (emit_loop pre a s).1.1).2).
Proof.
  induction pre as [|id pre IH]; intros a s.
  - simpl. by destruct (emit_loop post a s) as [[s' a'] t].
  - rewrite <- app_comm_cons. destruct (find id (slots_ s)) as [slot|] eqn:Hf.
    + rewrite !(emit_loop_found _ _ _ _ _ Hf), IH. done.
    + rewrite !(emit_loop_gone _ _ _ _ Hf). apply IH.
Qed.

(** The loop calls only identifiers of its list, in the order of the list. *)
Lemma emit_loop_sublist (ids : list N) : ∀ a s,
  (event_id <$> (emit_loop ids a s).2) `sublist_of` ids.
Proof.
  induction ids as [|id ids IH]; intros a s; [done|].
  destruct (find id (slots_ s)) as [slot|] eqn:Hf.
  - rewrite (emit_loop_found _ _ _ _ _ Hf). cbn [snd]. rewrite fmap_cons.
    apply sublist_skip, IH.
  - rewrite (emit_loop_gone _ _ _ _ Hf). apply sublist_cons, IH.
Qed.

Lemma emit_loop_chained (ids : list N) : ∀ a s, chained a s (emit_loop ids a s).2.
Proof.
  induction ids as [|id ids IH]; intros a s; [done|].
  destruct (find id (slots_ s)) as [slot|] eqn:Hf.
  - rewrite (emit_loop_found _ _ _ _ _ Hf). cbn [snd chained].
    split; [done|]. split; [done|]. apply IH.
  - rewrite (emit_loop_gone _ _ _ _ Hf). apply IH.
Qed.

Lemma emit_loop_replay (ids : list N) : ∀ a s,
  (emit_loop ids a s).1.1 = replay (emit_loop ids a s).2 s.
Proof.
  induction ids as [|id ids IH]; intros a s; [done|].
  destruct (find id (slots_ s)) as [slot|] eqn:Hf.
  - rewrite (emit_loop_found _ _ _ _ _ Hf). cbn [fst snd]. apply IH.
  - rewrite (emit_loop_gone _ _ _ _ Hf). apply IH.
Qed.

(** When callbacks disconnect nothing, the loop calls every identifier of
    its list that is connected at the start, with the code it has then. *)
Lemma emit_loop_all args (l : list (N * nat)) :
  keeps_connections args →
  ∀ a s, passed args a →
         (∀ p, p ∈ l → find p.1 (slots_ s) = Some p.2) →
         callee <$> (emit_loop l.*1 a s).2 = l.
Proof.
  intros Hkeep. induction l as [|[id slot] l IH]; intros a s Ha Hall; [done|].
  pose proof (Hall (id, slot) ltac:(by left)) as Hf. simpl in Hf.
  rewrite fmap_cons. cbn [fst].
  rewrite (emit_loop_found _ _ _ _ _ Hf). cbn [snd]. rewrite fmap_cons.
  cbn [callee]. f_equal. apply IH; [by apply passed_next|].
  intros p Hp. apply Hkeep; [done|]. apply Hall. by right.
Qed.

(** The same, for calls that leave the arguments as they are. *)
Lemma emit_loop_all_same args (l : list (N * nat)) :
  keeps_connections args →
  (∀ slot a s0, (run slot a s0).2 = a) →
  ∀ s, (∀ p, p ∈ l → find p.1 (slots_ s) = Some p.2) →
       (emit_loop l.*1 args s).2 = (λ p, Invoke p.1 p.2 args) <$> l.
Proof.
  intros Hkeep Hsame. induction l as [|[id slot] l IH]; intros s Hall; [done|].
  pose proof (Hall (id, slot) ltac:(by left)) as Hf. simpl in Hf.
  rewrite !fmap_cons. cbn [fst snd].
  rewrite (emit_loop_found _ _ _ _ _ Hf). cbn [snd]. rewrite Hsame.
  f_equal. apply IH.
  intros p Hp. apply Hkeep; [apply passed_first|]. apply Hall. by right.
Qed.

Lemma find_NoDup (l : list (N * nat)) p :
  NoDup l.*1 → p ∈ l → find p.1 l = Some p.2.
Proof.
  induction l as [|[k sl] l IH]; intros Hnd Hp; [by apply elem_of_nil in Hp|].
  rewrite fmap_cons in Hnd. apply NoDup_cons in Hnd as [Hk Hnd]. simpl.
  apply elem_of_cons in Hp as [->|Hp].
  - simpl. by rewrite decide_True.
  - case_decide as Heq; [|by apply IH].
    destruct Hk. simpl. rewrite Heq. apply list_elem_of_fmap. by exists p.
Qed.

(** The emission, turn by turn: the identifier [id] of the snapshot, after
    the identifiers [pre] and before [post]. *)
Lemma emit_turn args s (pre post : list N) id :
  (slots_ s).*1 = pre ++ id :: post →
  match find id (slots_ (emit_loop pre args s).1.1) with
  | Some slot =>
    emit args s
    = ((emit_loop post
          (run slot (emit_loop pre args s).1.2 (emit_loop pre args s).1.1).2
          (run slot (emit_loop pre args s).1.2 (emit_loop pre args s).1.1).1).1.1,
       (emit_loop pre args s).2
       ++ Invoke id slot (emit_loop pre args s).1.2
          :: (emit_loop post
                (run slot (emit_loop pre args s).1.2 (emit_loop pre args s).1.1).2
                (run slot (emit_loop pre args s).1.2 (emit_loop pre args s).1.1).1).2)
  | None =>
    emit args s
    = ((emit_loop post (emit_loop pre args s).1.2 (emit_loop pre args s).1.1).1.1,
       (emit_loop pre args s).2
       ++ (emit_loop post (emit_loop pre args s).1.2 (emit_loop pre args s).1.1).2)
  end.
Proof.
  intros Hids. rewrite emit_eq, Hids, emit_loop_app.
  destruct (find id (slots_ (emit_loop pre args s).1.1)) as [slot|] eqn:Hf.
  - by rewrite (emit_loop_found _ _ _ _ _ Hf).
  - by rewrite (emit_loop_gone _ _ _ _ Hf).
Qed.

(** C9, as the code has it.  [emit] first takes the identifiers of the
    callbacks connected when it starts, in the iteration order of the
    container (which is not tied to registration order), and then goes
    through them in that order.  At its turn, an identifier that is still
    connected is called, with the code found under it then and with the
    arguments as the earlier calls left them, and one that is not is passed
    over, after which the emission goes on with the next identifier.  So the
    calls are a subsequence of the snapshot; a callback connected during the
    emission is not called by it; an identifier of the snapshot is called
    exactly when it is connected at its turn; the first callback of the
    snapshot is always called, with the arguments of [emit]; a callback that
    the first one disconnects is skipped, and the one after it is called
    all the same; the signal after the emission is the one that the calls
    made leave, one after the other; and when callbacks disconnect nothing,
    the calls are exactly the entries of the snapshot, each once, with the
    code it had at the start. *)
Theorem C9_emit_snapshot (args : Args) (s : Signal) :
  NoDup (slots_ s).*1 →
  (event_id <$> (emit args s).2) `sublist_of` (slots_ s).*1
  ∧ (∀ id, id ∉ (slots_ s).*1 → id ∉ event_id <$> (emit args s).2)
  ∧ (∀ pre id post,
       (slots_ s).*1 = pre ++ id :: post →
       (id ∈ event_id <$> (emit args s).2
        ↔ is_Some (find id (slots_ (emit_loop pre args s).1.1)))
       ∧ match find id (slots_ (emit_loop pre args s).1.1) with
         | Some slot =>
           emit args s
           = ((emit_loop post
                 (run slot (emit_loop pre args s).1.2 (emit_loop pre args s).1.1).2
                 (run slot (emit_loop pre args s).1.2 (emit_loop pre args s).1.1).1).1.1,
              (emit_loop pre args s).2
              ++ Invoke id slot (emit_loop pre args s).1.2
                 :: (emit_loop post
                       (run slot (emit_loop pre args s).1.2 (emit_loop pre args s).1.1).2
                       (run slot (emit_loop pre args s).1.2 (emit_loop pre args s).1.1).1).2)
         | None =>
           emit args s
           = ((emit_loop post (emit_loop pre args s).1.2 (emit_loop pre args s).1.1).1.1,
              (emit_loop pre args s).2
              ++ (emit_loop post (emit_loop pre args s).1.2 (emit_loop pre args s).1.1).2)
         end)
  ∧ chained args s (emit args s).2
  ∧ (emit args s).1 = replay (emit args s).2 s
  ∧ (keeps_connections args → callee <$> (emit args s).2 = slots_ s)
  ∧ (keeps_connections args →
     (∀ slot a s0, (run slot a s0).2 = a) →
     (emit args s).2 = (λ p, Invoke p.1 p.2 args) <$> slots_ s)
  ∧ (∀ id1 slot1 rest,
       slots_ s = (id1, slot1) :: rest →
       (emit args s).2
       = Invoke id1 slot1 args
         :: (emit_loop rest.*1 (run slot1 args s).2 (run slot1 args s).1).2)
  ∧ (∀ id1 slot1 id2 slot2 rest,
       slots_ s = (id1, slot1) :: (id2, slot2) :: rest →
       find id2 (slots_ (run slot1 args s).1) = None →
       (id2 ∉ event_id <$> (emit args s).2)
       ∧ (emit args s).2
         = Invoke id1 slot1 args
           :: (emit_loop rest.*1 (run slot1 args s).2 (run slot1 args s).1).2)
  ∧ (∀ id1 slot1 id2 slot2 id3 slot3 slot3' rest,
       slots_ s = (id1, slot1) :: (id2, slot2) :: (id3, slot3) :: rest →
       find id2 (slots_ (run slot1 args s).1) = None →
       find id3 (slots_ (run slot1 args s).1) = Some slot3' →
       ∃ t, (emit args s).2
            = Invoke id1 slot1 args :: Invoke id3 slot3' (run slot1 args s).2 :: t).
Proof.
  intros Hnd.
  pose proof (emit_loop_sublist (slots_ s).*1 args s) as Hsub.
  assert ((emit args s).2 = (emit_loop (slots_ s).*1 args s).2) as Ht
    by (by rewrite emit_eq).
  assert (∀ id1 slot1 rest,
            slots_ s = (id1, slot1) :: rest →
            (emit args s).2
            = Invoke id1 slot1 args
              :: (emit_loop rest.*1 (run slot1 args s).2 (run slot1 args s).1).2)
    as Hfirst.
  { intros id1 slot1 rest Hs. rewrite Ht, Hs, fmap_cons. cbn [fst].
    rewrite (emit_loop_found id1 _ args s slot1); [done|].
    rewrite Hs. apply find_head. }
  assert (∀ id1 slot1 id2 slot2 rest,
            slots_ s = (id1, slot1) :: (id2, slot2) :: rest →
            find id2 (slots_ (run slot1 args s).1) = None →
            (emit args s).2
            = Invoke id1 slot1 args
              :: (emit_loop rest.*1 (run slot1 args s).2 (run slot1 args s).1).2)
    as Hskip.
  { intros id1 slot1 id2 slot2 rest Hs Hgone.
    rewrite (Hfirst _ _ _ Hs), fmap_cons. cbn [fst].
    by rewrite (emit_loop_gone _ _ _ _ Hgone). }
  split_and!.
  - by rewrite Ht.
  - intros id Hid Hin. apply Hid. rewrite Ht in Hin. by eapply elem_of_sublist.
  - intros pre id post Hids. split; [|by apply emit_turn].
    rewrite Hids in Hnd. apply NoDup_app in Hnd as (_ & Hpre & Hnd).
    apply NoDup_cons in Hnd as [Hpost _].
    assert (id ∉ event_id <$> (emit_loop pre args s).2) as Hbefore.
    { intros Hin. apply (Hpre id); [|by left].
      eapply elem_of_sublist; [done|apply emit_loop_sublist]. }
    pose proof (emit_turn args s pre post id Hids) as Hturn.
    destruct (find id (slots_ (emit_loop pre args s).1.1)) as [slot|];
      rewrite Hturn; cbn [snd]; rewrite fmap_app.
    + split; [by eauto|]. intros _. rewrite elem_of_app, fmap_cons. right. by left.
    + split; [|by intros [? ?]]. rewrite elem_of_app. intros [Hin|Hin]; [done|].
      destruct Hpost. eapply elem_of_sublist; [done|apply emit_loop_sublist].
  - rewrite Ht. apply emit_loop_chained.
  - rewrite emit_eq. cbn [fst snd]. apply emit_loop_replay.
  - intros Hkeep. rewrite Ht. apply (emit_loop_all args); [done|apply passed_first|].
    intros p Hp. by apply find_NoDup.
  - intros Hkeep Hsame. rewrite Ht. apply emit_loop_all_same; [done|done|].
    intros p Hp. by apply find_NoDup.
  - done.
  - intros id1 slot1 id2 slot2 rest Hs Hgone.
    rewrite (Hskip _ _ _ _ _ Hs Hgone). split; [|done].
    rewrite Hs in Hnd. rewrite !fmap_cons in Hnd. cbn [fst] in Hnd.
    apply NoDup_cons in Hnd as [Hid1 Hnd]. apply NoDup_cons in Hnd as [Hid2 _].
    rewrite fmap_cons. apply not_elem_of_cons. split.
    + intros ->. apply Hid1. by left.
    + intros Hin. apply Hid2.
      eapply elem_of_sublist; [done|apply emit_loop_sublist].
  - intros id1 slot1 id2 slot2 id3 slot3 slot3' rest Hs Hgone Hthere.
    rewrite (Hskip _ _ _ _ _ Hs Hgone), fmap_cons. cbn [fst].
    rewrite (emit_loop_found _ _ _ _ _ Hthere). cbn [snd]. by eexists.
Qed.

End Signals.

(** *** Concrete containers and callbacks *)

(** A container that iterates in insertion order. *)
Definition place_back (l : list (N * nat)) (x : N * nat) : list (N * nat) := l ++ [x].

(** A container that iterates newest first. *)
Definition place_front (l : list (N * nat)) (x : N * nat) : list (N * nat) := x :: l.

Lemma place_back_permutation l x : place_back l x ≡ₚ x :: l.
Proof. unfold place_back. by rewrite Permutation_app_comm. Qed.

Lemma place_front_permutation l x : place_front l x ≡ₚ x :: l.
Proof. done. Qed.

(** Slots whose parameters are objects passed by value: [code] is what the
    callback does to the signal, [moved_from] what a move leaves of the
    arguments. *)
Definition by_value {Args} (moved_from : Args → Args)
    (code : nat → Args → Signal → Signal) (slot : nat) (args : Args) (s : Signal)
    : Signal * Args :=
  (code slot args s, moved_from args).

(** Callbacks that do nothing to the signal. *)
Definition quiet {Args} (slot : nat) (args : Args) (s : Signal) : Signal := s.

(** Two callbacks that disconnect each other: slot 0 disconnects the
    connection 2, every other slot disconnects the connection 1. *)
Definition feud {Args} (slot : nat) (args : Args) (s : Signal) : Signal :=
  match slot with
  | O => disconnect 2 s
  | S _ => disconnect 1 s
  end.

(** Slot 0 disconnects the connection 2; the others do nothing. *)
Definition silencer {Args} (slot : nat) (args : Args) (s : Signal) : Signal :=
  match slot with
  | O => disconnect 2 s
  | S _ => s
  end.

(** Slot 0 connects a further slot 7 to the signal; the others do nothing. *)
Definition recruit {Args} (slot : nat) (args : Args) (s : Signal) : Signal :=
  match slot with
  | O => (connect place_back 7%nat s).2
  | S _ => s
  end.

(** A move that leaves its source empty, as the one of [std::vector]. *)
Definition emptied (args : list nat) : list nat := [].

(** The property that [emit] calls every connected slot, in registration
    order: for slots connected to a new signal one after the other,
    whatever the container's iteration order and whatever the slots do. *)
Definition emit_calls_all_in_registration_order : Prop :=
  ∀ (Args : Type) (place : list (N * nat) → N * nat → list (N * nat))
    (run : nat → Args → Signal → Signal * Args) (args : Args) (ts : list nat),
    (∀ l x, place l x ≡ₚ x :: l) →
    callee <$> (emit run args (connect_all place ts Signal_new)).2
    = in_registration_order ts.

(** Two slots are connected.  When each disconnects the other, [emit] calls
    only one of them, the one the container iterates first, be it a
    container that iterates in registration order or one that iterates
    newest first; and in a container that iterates newest first, [emit]
    calls two quiet slots in the reverse of registration order. *)
Lemma C9_emit_counterexample :
  in_registration_order [0; 1]%nat = [(1, 0%nat); (2, 1%nat)]
  ∧ (emit (by_value id feud) tt (connect_all place_back [0; 1]%nat Signal_new)).2
    = [Invoke 1 0 tt]
  ∧ (emit (by_value id feud) tt (connect_all place_front [0; 1]%nat Signal_new)).2
    = [Invoke 2 1 tt]
  ∧ (emit (by_value id quiet) tt (connect_all place_front [0; 1]%nat Signal_new)).2
    = [Invoke 2 1 tt; Invoke 1 0 tt]
  ∧ ¬ emit_calls_all_in_registration_order.
Proof.
  split; [reflexivity|]. split; [vm_compute; reflexivity|].
  split; [vm_compute; reflexivity|]. split; [vm_compute; reflexivity|].
  intros Hall.
  specialize (Hall unit place_back (by_value id feud) tt [0; 1]%nat
                place_back_permutation).
  vm_compute in Hall. discriminate Hall.
Qed.

Lemma recruit_keeps_connections {Args} (moved_from : Args → Args) args :
  keeps_connections (by_value moved_from recruit) args.
Proof.
  intros [|slot] a s id sl _ Hf; [|exact Hf].
  unfold by_value, recruit, connect, emplace. cbn [fst snd slots_].
  destruct (find ((next_id_ s + 1) mod SIZE_MOD) (slots_ s)); [exact Hf|].
  by apply find_app_l.
Qed.

(** Three slots in a container that iterates in insertion order. *)
Definition three_slots : Signal := connect_all place_back [0; 1; 2]%nat Signal_new.

(** Slot 0 connects a new slot while the signal emits: the slots of the
    snapshot are called, the new one is not, and the slots after the first
    are given the moved-from arguments. *)
Example emit_recruit :
  emit (by_value emptied recruit) [4; 2]%nat three_slots
  = ({| slots_ := [(1, 0%nat); (2, 1%nat); (3, 2%nat); (4, 7%nat)]; next_id_ := 4 |},
     [Invoke 1 0 [4; 2]%nat; Invoke 2 1 []; Invoke 3 2 []]).
Proof. vm_compute. reflexivity. Qed.

(** A concrete emission: slot 0 disconnects the second slot while the
    signal emits; the first and the third slot are called, the third one
    with the arguments as the first call left them. *)
Lemma C9_emit_snapshot_witness :
  NoDup (slots_ three_slots).*1
  ∧ (emit (by_value emptied silencer) [4; 2]%nat three_slots).2
    = [Invoke 1 0 [4; 2]%nat; Invoke 3 2 []].
Proof.
  assert (NoDup (slots_ three_slots).*1) as Hnd.
  { change (NoDup [1; 2; 3]). repeat (apply NoDup_cons; split; [set_solver|]).
    apply NoDup_nil_2. }
  split; [exact Hnd|].
  destruct (C9_emit_snapshot (by_value emptied silencer) [4; 2]%nat three_slots Hnd)
    as (_ & _ & _ & _ & _ & _ & _ & _ & Hskip & _).
  exact (proj2 (Hskip 1 0%nat 2 1%nat [(3, 2%nat)] eq_refl eq_refl)).
Defined.

(** *** Connections and their handles *)

(** [Connection() = default]: a null signal pointer and the identifier 0. *)
Definition Connection_default : Connection := {| sig_ := false; id_ := 0 |}.

(** [class ScopedConnection]: its member [c_]. *)
Record ScopedConnection : Type := mkScoped {
  c_ : Connection
}.

(** [explicit ScopedConnection(Connection c)]. *)
Definition Scoped_new (c : Connection) : ScopedConnection := {| c_ := c |}.

(** [void reset() { if (c_.connected()) c_.disconnect(); c_ = {}; }],
    which is also the destructor. *)
Definition Scoped_reset (sc : ScopedConnection) (s : Signal) : ScopedConnection * Signal :=
  ({| c_ := Connection_default |},
   if connected (c_ sc) s then (Connection_disconnect (c_ sc) s).2 else s).

(** [bool connected() const { return c_.connected(); }] *)
Definition Scoped_connected (sc : ScopedConnection) (s : Signal) : bool :=
  connected (c_ sc) s.

(** [Connection release() { Connection tmp = c_; c_ = {}; return tmp; }] *)
Definition Scoped_release (sc : ScopedConnection) : Connection * ScopedConnection :=
  (c_ sc, {| c_ := Connection_default |}).

(** The move assignment [*this = std::move(o)] for two distinct objects:
    [reset(); c_ = std::move(o.c_); o.c_ = {};].  The result is the target,
    the source and the signal. *)
Definition Scoped_move_assign (this o : ScopedConnection) (s : Signal)
    : ScopedConnection * ScopedConnection * Signal :=
  ({| c_ := c_ o |}, {| c_ := Connection_default |}, (Scoped_reset this s).2).

(** The identifiers in use are distinct, were all handed out (they lie
    between 1 and [next_id_]), and the counter has not wrapped. *)
Definition Signal_wf (s : Signal) : Prop :=
  NoDup (slots_ s).*1
  ∧ (∀ id, id ∈ (slots_ s).*1 → 1 ≤ id ∧ id ≤ next_id_ s)
  ∧ next_id_ s < SIZE_MOD.

Lemma find_erase_eq id l : find id (erase id l) = None.
Proof.
  induction l as [|[k sl] l IH]; [done|]. unfold erase in *.
  destruct (decide (k = id)) as [->|Hk].
  - by rewrite filter_cons_False by (simpl; tauto).
  - rewrite filter_cons_True by done. simpl. by rewrite decide_False.
Qed.

Lemma find_erase_ne id id' l : id' ≠ id → find id' (erase id l) = find id' l.
Proof.
  intros Hne. induction l as [|[k sl] l IH]; [done|]. unfold erase in *.
  destruct (decide (k = id)) as [->|Hk].
  - rewrite filter_cons_False by (simpl; tauto). rewrite IH. simpl.
    by rewrite decide_False.
  - rewrite filter_cons_True by done. simpl. by rewrite IH.
Qed.

Lemma erase_absent id l : find id l = None → erase id l = l.
Proof.
  induction l as [|[k sl] l IH]; [done|]. simpl. unfold erase in *.
  case_decide as Hk; [done|]. intros Hf.
  rewrite filter_cons_True by done. f_equal. by apply IH.
Qed.

Lemma erase_keys id l : (erase id l).*1 = filter (λ k, k ≠ id) l.*1.
Proof.
  induction l as [|[k sl] l IH]; [done|]. unfold erase in *.
  rewrite fmap_cons. simpl. destruct (decide (k = id)) as [->|Hk].
  - by rewrite !filter_cons_False by (simpl; tauto).
  - rewrite !filter_cons_True by done. rewrite fmap_cons. simpl. by rewrite IH.
Qed.

Lemma find_Some_iff (l : list (N * nat)) id slot :
  NoDup l.*1 → find id l = Some slot ↔ (id, slot) ∈ l.
Proof.
  intros Hnd. split; [apply find_Some_elem|].
  intros Hin. apply (find_NoDup l (id, slot) Hnd Hin).
Qed.

Lemma find_is_Some id l : is_Some (find id l) ↔ id ∈ l.*1.
Proof.
  split.
  - intros [slot Hf]. apply list_elem_of_fmap. exists (id, slot).
    split; [done|]. by apply find_Some_elem.
  - intros Hin. destruct (find id l) eqn:Hf; [done|].
    by apply find_None_notin in Hf.
Qed.

(** With distinct keys, a lookup does not depend on the iteration order. *)
Lemma find_permutation (l1 l2 : list (N * nat)) id :
  NoDup l1.*1 → l1 ≡ₚ l2 → find id l1 = find id l2.
Proof.
  intros Hnd Hp.
  assert (NoDup l2.*1) as Hnd2 by (by rewrite <- Hp).
  destruct (find id l1) as [slot|] eqn:H1.
  - symmetry. apply find_Some_iff; [done|]. rewrite <- Hp. by apply find_Some_elem.
  - destruct (find id l2) as [slot|] eqn:H2; [|done].
    apply find_Some_elem in H2. rewrite <- Hp in H2.
    apply (find_Some_iff _ _ _ Hnd) in H2. congruence.
Qed.

Section Handles.

Context {Args : Type}.
Variable place : list (N * nat) → N * nat → list (N * nat).
Hypothesis place_permutation : ∀ l x, place l x ≡ₚ x :: l.
Variable run : nat → Args → Signal → Signal * Args.

Lemma connect_fresh_id s id :
  Signal_wf s → next_id_ s + 1 < SIZE_MOD →
  id ∈ (slots_ s).*1 → id ≠ (next_id_ s + 1) mod SIZE_MOD.
Proof.
  intros (_ & Hb & _) Hlt Hin. rewrite N.mod_small by done.
  destruct (Hb id Hin). lia.
Qed.

Lemma connect_slots slot s :
  Signal_wf s → next_id_ s + 1 < SIZE_MOD →
  slots_ (connect place slot s).2 ≡ₚ (next_id_ s + 1, slot) :: slots_ s.
Proof.
  intros Hwf Hlt. unfold connect, emplace. simpl.
  rewrite N.mod_small by done.
  destruct (find (next_id_ s + 1) (slots_ s)) eqn:Hf; [|apply place_permutation].
  assert (next_id_ s + 1 ∈ (slots_ s).*1) as Hin by (apply find_is_Some; eauto).
  destruct (connect_fresh_id s _ Hwf Hlt Hin). by rewrite N.mod_small.
Qed.

Lemma connect_wf slot s :
  Signal_wf s → next_id_ s + 1 < SIZE_MOD → Signal_wf (connect place slot s).2.
Proof.
  intros Hwf Hlt. pose proof (connect_slots slot s Hwf Hlt) as Hp.
  destruct Hwf as (Hnd & Hb & Hn).
  assert (next_id_ (connect place slot s).2 = next_id_ s + 1) as Hnext.
  { simpl. by apply N.mod_small. }
  split_and!.
  - rewrite Hp, fmap_cons. apply NoDup_cons. split; [|done].
    intros Hin. destruct (Hb _ Hin). simpl in *. lia.
  - intros id. rewrite Hp, fmap_cons, elem_of_cons, Hnext. simpl.
    intros [->|Hin]; [lia|]. destruct (Hb _ Hin). lia.
  - by rewrite Hnext.
Qed.

Lemma disconnect_wf id s : Signal_wf s → Signal_wf (disconnect id s).
Proof.
  intros (Hnd & Hb & Hn). split_and!; simpl; [| |done].
  - rewrite erase_keys. by apply NoDup_filter.
  - intros id'. rewrite erase_keys, list_elem_of_filter. intros [_ Hin]. by apply Hb.
Qed.

(** X1.  In a signal whose counter has not wrapped, [connect] hands out the
    identifier after the last one, which no connected slot has; the returned
    handle is connected, the new slot is found under its identifier, every
    other connection is untouched, and the container holds the new entry
    and the previous ones. *)
Theorem X1_connect_registers (slot : nat) (s : Signal) :
  Signal_wf s →
  next_id_ s + 1 < SIZE_MOD →
  id_ (connect place slot s).1 = next_id_ s + 1
  ∧ sig_ (connect place slot s).1 = true
  ∧ next_id_ (connect place slot s).2 = next_id_ s + 1
  ∧ (id_ (connect place slot s).1 ∉ (slots_ s).*1)
  ∧ connected (connect place slot s).1 (connect place slot s).2 = true
  ∧ find (next_id_ s + 1) (slots_ (connect place slot s).2) = Some slot
  ∧ (∀ id, id ≠ next_id_ s + 1 →
       find id (slots_ (connect place slot s).2) = find id (slots_ s))
  ∧ slots_ (connect place slot s).2 ≡ₚ (next_id_ s + 1, slot) :: slots_ s.
Proof.
  intros Hwf Hlt.
  pose proof (connect_slots slot s Hwf Hlt) as Hp.
  pose proof (connect_wf slot s Hwf Hlt) as (Hnd' & _ & _).
  assert ((next_id_ s + 1) mod SIZE_MOD = next_id_ s + 1) as Hmod
    by (by apply N.mod_small).
  assert (find (next_id_ s + 1) (slots_ (connect place slot s).2) = Some slot) as Hnew.
  { rewrite (find_permutation _ _ _ Hnd' Hp). apply find_head. }
  assert (id_ (connect place slot s).1 = next_id_ s + 1) as Hid by exact Hmod.
  split_and!.
  - done.
  - done.
  - exact Hmod.
  - rewrite Hid. intros Hin. destruct Hwf as (_ & Hb & _).
    destruct (Hb _ Hin). lia.
  - unfold connected. rewrite Hid, Hnew. by apply bool_decide_eq_true.
  - done.
  - intros id Hne. rewrite (find_permutation _ _ _ Hnd' Hp). simpl.
    by rewrite decide_False.
  - done.
Qed.

(** X2.  [disconnect(id)] removes the slot under [id] and nothing else:
    afterwards [id] is not found, every other identifier is found as
    before, the remaining entries keep their relative order, and the
    counter is unchanged.  It is idempotent, and it changes nothing when
    [id] is not connected. *)
Theorem X2_disconnect_removes (id : N) (s : Signal) :
  find id (slots_ (disconnect id s)) = None
  ∧ (∀ id', id' ≠ id → find id' (slots_ (disconnect id s)) = find id' (slots_ s))
  ∧ slots_ (disconnect id s) `sublist_of` slots_ s
  ∧ next_id_ (disconnect id s) = next_id_ s
  ∧ disconnect id (disconnect id s) = disconnect id s
  ∧ (find id (slots_ s) = None → disconnect id s = s).
Proof.
  split_and!.
  - apply find_erase_eq.
  - intros id' Hne. by apply find_erase_ne.
  - apply sublist_filter.
  - done.
  - unfold disconnect. simpl. f_equal. apply erase_absent, find_erase_eq.
  - intros Hf. unfold disconnect. rewrite (erase_absent _ _ Hf). by destruct s.
Qed.

(** X3.  Identifiers are not reused: after a slot is disconnected, the next
    [connect] gets an identifier different from the disconnected one, so a
    stale copy of the old handle stays disconnected and never refers to the
    newer slot. *)
Theorem X3_stale_handle (old : Connection) (slot : nat) (s : Signal) :
  Signal_wf s →
  next_id_ s + 1 < SIZE_MOD →
  connected old s = true →
  id_ (connect place slot (disconnect (id_ old) s)).1 ≠ id_ old
  ∧ connected old (disconnect (id_ old) s) = false
  ∧ connected old (connect place slot (disconnect (id_ old) s)).2 = false
  ∧ connected (connect place slot (disconnect (id_ old) s)).1
      (connect place slot (disconnect (id_ old) s)).2 = true.
Proof.
  intros Hwf Hlt Hold.
  pose proof (disconnect_wf (id_ old) s Hwf) as Hwf'.
  assert (next_id_ (disconnect (id_ old) s) + 1 < SIZE_MOD) as Hlt' by done.
  unfold connected in Hold. apply andb_true_iff in Hold as [Hsig Hfound].
  apply bool_decide_eq_true in Hfound. apply find_is_Some in Hfound.
  destruct Hwf as (_ & Hb & _). destruct (Hb _ Hfound) as [_ Hle].
  assert ((next_id_ s + 1) mod SIZE_MOD = next_id_ s + 1) as Hmod
    by (by apply N.mod_small).
  assert (id_ old ≠ next_id_ s + 1) as Hne by lia.
  pose proof (connect_slots slot _ Hwf' Hlt') as Hp.
  pose proof (connect_wf slot _ Hwf' Hlt') as (Hnd' & _ & _).
  assert (find (next_id_ s + 1) (slots_ (connect place slot (disconnect (id_ old) s)).2)
          = Some slot) as Hnew.
  { rewrite (find_permutation _ _ _ Hnd' Hp). apply find_head. }
  assert (id_ (connect place slot (disconnect (id_ old) s)).1 = next_id_ s + 1)
    as Hid by exact Hmod.
  split_and!.
  - rewrite Hid. lia.
  - unfold connected. rewrite Hsig. cbn [andb disconnect slots_].
    rewrite find_erase_eq. apply bool_decide_eq_false. by intros [? ?].
  - unfold connected. rewrite Hsig. cbn [andb].
    rewrite (find_permutation _ _ _ Hnd' Hp).
    cbn [find disconnect slots_ next_id_].
    rewrite decide_False by (intros Heq; apply Hne; by rewrite <- Heq).
    rewrite find_erase_eq. apply bool_decide_eq_false. by intros [? ?].
  - unfold connected. rewrite Hid, Hnew. by apply bool_decide_eq_true.
Qed.

Lemma connected_default s : connected Connection_default s = false.
Proof. done. Qed.

Lemma connected_iff c s :
  connected c s = true ↔ sig_ c = true ∧ id_ c ∈ (slots_ s).*1.
Proof.
  unfold connected. rewrite andb_true_iff, bool_decide_eq_true, find_is_Some. done.
Qed.

(** X4.  A handle is connected exactly when its signal pointer is set and
    its identifier is in the container.  [Connection::disconnect()] on a
    handle with a signal removes the slot and resets the handle, which then
    reports not connected in every state; a copy of the handle made before
    reports not connected as well, and disconnecting through the copy, or a
    second time through the handle, leaves the signal as it is.  A
    default-constructed handle is not connected and its [disconnect()] does
    nothing. *)
Theorem X4_connection_handle (c : Connection) (s : Signal) :
  (connected c s = true ↔ sig_ c = true ∧ id_ c ∈ (slots_ s).*1)
  ∧ (sig_ c = true →
       Connection_disconnect c s = (Connection_default, disconnect (id_ c) s)
       ∧ connected c (Connection_disconnect c s).2 = false
       ∧ (Connection_disconnect c (Connection_disconnect c s).2).2
         = (Connection_disconnect c s).2)
  ∧ (sig_ c = false → Connection_disconnect c s = (c, s))
  ∧ (∀ s', connected (Connection_disconnect c s).1 s' = false)
  ∧ Connection_disconnect (Connection_disconnect c s).1 (Connection_disconnect c s).2
    = Connection_disconnect c s
  ∧ connected Connection_default s = false
  ∧ Connection_disconnect Connection_default s = (Connection_default, s).
Proof.
  split; [apply connected_iff|].
  unfold Connection_disconnect. destruct c as [[|] id]; simpl.
  - split_and!; try done.
    intros _. split_and!; [done| |].
    + unfold connected. simpl. rewrite find_erase_eq.
      apply bool_decide_eq_false. by intros [? ?].
    + unfold disconnect. simpl. f_equal. apply erase_absent, find_erase_eq.
  - split_and!; done.
Qed.

Lemma emit_loop_wf args (ids : list N) :
  (∀ slot a s0, passed run args a → Signal_wf s0 → Signal_wf (run slot a s0).1) →
  ∀ a s, passed run args a → Signal_wf s → Signal_wf (emit_loop run ids a s).1.1.
Proof.
  intros Hrun. induction ids as [|id ids IH]; intros a s Ha Hwf; [done|].
  destruct (find id (slots_ s)) as [slot|] eqn:Hf.
  - rewrite (emit_loop_found run _ _ _ _ _ Hf). cbn [fst].
    apply IH; [by apply passed_next|by apply Hrun].
  - rewrite (emit_loop_gone run _ _ _ _ Hf). by apply IH.
Qed.

(** X5.  After [disconnect(id)], an emission does not call the slot that
    was under [id], whatever the callbacks do.  When the identifiers are
    distinct and callbacks disconnect nothing, the emission calls the
    entries it would have called before, in the same order, without that
    one; and when, moreover, a call leaves the arguments as they are, the
    calls are those it would have made before, arguments included, without
    that one. *)
Theorem X5_emit_after_disconnect (args : Args) (id : N) (s : Signal) :
  (id ∉ event_id <$> (emit run args (disconnect id s)).2)
  ∧ (NoDup (slots_ s).*1 →
     keeps_connections run args →
     callee <$> (emit run args (disconnect id s)).2
     = filter (λ p, p.1 ≠ id) (callee <$> (emit run args s).2))
  ∧ (NoDup (slots_ s).*1 →
     keeps_connections run args →
     (∀ slot a s0, (run slot a s0).2 = a) →
     (emit run args (disconnect id s)).2
     = filter (λ ev, event_id ev ≠ id) (emit run args s).2).
Proof.
  assert (NoDup (slots_ s).*1 → NoDup (slots_ (disconnect id s)).*1) as Hnd'.
  { intros Hnd. simpl. rewrite erase_keys. by apply NoDup_filter. }
  split_and!.
  - intros Hin. rewrite emit_eq in Hin. cbn [snd] in Hin.
    pose proof (elem_of_sublist _ _ _ Hin
      (emit_loop_sublist run (slots_ (disconnect id s)).*1 args (disconnect id s)))
      as Hk.
    simpl in Hk. rewrite erase_keys in Hk.
    apply list_elem_of_filter in Hk as [Hne _]. done.
  - intros Hnd Hkeep. rewrite !emit_eq. cbn [snd].
    rewrite (emit_loop_all run args (slots_ s) Hkeep args s (passed_first run args))
      by (intros p Hp; by apply find_NoDup).
    rewrite (emit_loop_all run args (slots_ (disconnect id s)) Hkeep args
               (disconnect id s) (passed_first run args))
      by (intros p Hp; apply find_NoDup; [by apply Hnd'|done]).
    done.
  - intros Hnd Hkeep Hsame. rewrite !emit_eq. cbn [snd].
    rewrite (emit_loop_all_same run args (slots_ s) Hkeep Hsame s)
      by (intros p Hp; by apply find_NoDup).
    rewrite (emit_loop_all_same run args (slots_ (disconnect id s)) Hkeep Hsame
               (disconnect id s))
      by (intros p Hp; apply find_NoDup; [by apply Hnd'|done]).
    simpl. unfold erase. clear. induction (slots_ s) as [|[k sl] l IH]; [done|].
    rewrite fmap_cons. simpl. destruct (decide (k = id)) as [->|Hk].
    + rewrite !filter_cons_False by (simpl; tauto). apply IH.
    + rewrite !filter_cons_True by done. rewrite fmap_cons. simpl. by rewrite IH.
Qed.

(** X6.  The properties of a well-formed signal (distinct identifiers, all
    between 1 and the counter, counter not wrapped) hold for a new signal
    and are kept by [disconnect], [disconnect_all], [connect] (while the
    counter can still grow) and by [emit] when the callbacks keep them. *)
Theorem X6_signal_invariant (args : Args) (s : Signal) :
  Signal_wf s →
  (∀ slot a s0, passed run args a → Signal_wf s0 → Signal_wf (run slot a s0).1) →
  Signal_wf Signal_new
  ∧ (∀ id, Signal_wf (disconnect id s))
  ∧ Signal_wf (disconnect_all s)
  ∧ (∀ slot, next_id_ s + 1 < SIZE_MOD → Signal_wf (connect place slot s).2)
  ∧ Signal_wf (emit run args s).1.
Proof.
  intros Hwf Hrun. split_and!.
  - split_and!; [constructor| |done]. intros id Hin. by apply elem_of_nil in Hin.
  - intros id. by apply disconnect_wf.
  - destruct Hwf as (_ & _ & Hn). split_and!; [constructor| |done].
    intros id Hin. by apply elem_of_nil in Hin.
  - intros slot Hlt. by apply connect_wf.
  - rewrite emit_eq. cbn [fst]. apply (emit_loop_wf args); [done|apply passed_first|done].
Qed.

(** X7.  [ScopedConnection]: [reset()] (and so the destructor) disconnects
    the held connection when it is connected, leaves the signal alone when
    it is not, and empties the handle, so a second [reset()] does nothing;
    [release()] hands the connection out without disconnecting it, and the
    destructor of the released handle leaves the signal alone; a move
    assignment disconnects what the target held, gives it the connection of
    the source and empties the source. *)
Theorem X7_scoped_connection (sc o : ScopedConnection) (s : Signal) :
  (Scoped_reset sc s).1 = {| c_ := Connection_default |}
  ∧ (∀ s', Scoped_connected (Scoped_reset sc s).1 s' = false)
  ∧ (Scoped_connected sc s = true →
       (Scoped_reset sc s).2 = disconnect (id_ (c_ sc)) s
       ∧ find (id_ (c_ sc)) (slots_ (Scoped_reset sc s).2) = None)
  ∧ (Scoped_connected sc s = false → (Scoped_reset sc s).2 = s)
  ∧ Scoped_reset (Scoped_reset sc s).1 (Scoped_reset sc s).2 = Scoped_reset sc s
  ∧ (Scoped_release sc).1 = c_ sc
  ∧ connected (Scoped_release sc).1 s = Scoped_connected sc s
  ∧ (Scoped_reset (Scoped_release sc).2 s).2 = s
  ∧ c_ (Scoped_move_assign sc o s).1.1 = c_ o
  ∧ (Scoped_move_assign sc o s).2 = (Scoped_reset sc s).2
  ∧ (∀ s', Scoped_connected (Scoped_move_assign sc o s).1.2 s' = false)
  ∧ (id_ (c_ o) ≠ id_ (c_ sc) →
       Scoped_connected (Scoped_move_assign sc o s).1.1 (Scoped_move_assign sc o s).2
       = Scoped_connected o s).
Proof.
  unfold Scoped_move_assign, Scoped_release, Scoped_reset, Scoped_connected.
  cbn [fst snd c_].
  destruct (connected (c_ sc) s) eqn:Hc.
  - apply connected_iff in Hc as [Hsig Hin].
    assert ((Connection_disconnect (c_ sc) s).2 = disconnect (id_ (c_ sc)) s) as Hd.
    { unfold Connection_disconnect. by rewrite Hsig. }
    rewrite Hd. split_and!; try done.
    + intros _. split; [done|]. apply find_erase_eq.
    + intros Hne. unfold connected. cbn [disconnect slots_].
      by rewrite (find_erase_ne _ _ _ Hne).
  - split_and!; done.
Qed.

End Handles.

(** A signal with two slots in a container that iterates in insertion
    order. *)
Definition two_slots : Signal := connect_all place_back [0; 1]%nat Signal_new.

Lemma two_slots_wf : Signal_wf two_slots.
Proof.
  split_and!.
  - change (NoDup [1; 2]). repeat (apply NoDup_cons; split; [set_solver|]).
    apply NoDup_nil_2.
  - change (∀ id, id ∈ [1; 2] → 1 ≤ id ∧ id ≤ 2). intros id.
    rewrite !elem_of_cons, elem_of_nil. intros [->|[->|[]]]; lia.
  - vm_compute. reflexivity.
Qed.

Lemma two_slots_room : next_id_ two_slots + 1 < SIZE_MOD.
Proof. vm_compute. reflexivity. Qed.

(** A third slot joins the two. *)
Lemma X1_connect_registers_witness :
  Signal_wf two_slots
  ∧ id_ (connect place_back 5%nat two_slots).1 = 3
  ∧ find 3 (slots_ (connect place_back 5%nat two_slots).2) = Some 5%nat.
Proof.
  split; [exact two_slots_wf|].
  destruct (X1_connect_registers place_back place_back_permutation 5%nat two_slots
              two_slots_wf two_slots_room) as (Hid & _ & _ & _ & _ & Hf & _).
  split; [exact Hid|exact Hf].
Defined.

(** The handle of the first slot goes stale. *)
Lemma X3_stale_handle_witness :
  connected {| sig_ := true; id_ := 1 |} two_slots = true
  ∧ connected {| sig_ := true; id_ := 1 |}
      (connect place_back 5%nat (disconnect 1 two_slots)).2 = false.
Proof.
  assert (connected {| sig_ := true; id_ := 1 |} two_slots = true) as Hc
    by (vm_compute; reflexivity).
  split; [exact Hc|].
  exact (proj1 (proj2 (proj2
    (X3_stale_handle place_back place_back_permutation {| sig_ := true; id_ := 1 |}
       5%nat two_slots two_slots_wf two_slots_room Hc)))).
Defined.

(** An emission after the first of two slots was disconnected. *)
Lemma X5_emit_after_disconnect_witness :
  (emit (by_value emptied recruit) [4; 2]%nat (disconnect 1 two_slots)).2
  = [Invoke 2 1 [4; 2]%nat]
  ∧ (1 ∉ event_id <$> (emit (by_value emptied recruit) [4; 2]%nat
                          (disconnect 1 two_slots)).2)
  ∧ callee <$> (emit (by_value emptied recruit) [4; 2]%nat (disconnect 1 two_slots)).2
    = filter (λ p, p.1 ≠ 1)
        (callee <$> (emit (by_value emptied recruit) [4; 2]%nat two_slots).2).
Proof.
  split; [vm_compute; reflexivity|].
  destruct (X5_emit_after_disconnect (by_value emptied recruit) [4; 2]%nat 1 two_slots)
    as (Hnot & Hsame & _).
  split; [exact Hnot|].
  exact (Hsame (proj1 two_slots_wf) (recruit_keeps_connections emptied [4; 2]%nat)).
Defined.

Lemma quiet_wf {Args} (moved_from : Args → Args) slot a (s0 : Signal) :
  Signal_wf s0 → Signal_wf (by_value moved_from quiet slot a s0).1.
Proof. done. Qed.

(** The two slots, with callbacks that do nothing. *)
Lemma X6_signal_invariant_witness :
  Signal_wf two_slots ∧ Signal_wf (emit (by_value id quiet) tt two_slots).1.
Proof.
  split; [exact two_slots_wf|].
  exact (proj2 (proj2 (proj2 (proj2
    (X6_signal_invariant place_back place_back_permutation (by_value id quiet) tt
       two_slots two_slots_wf (λ slot a s0 _, quiet_wf id slot a s0)))))).
Defined.

End Signal.
